(** * Verification of the audio-clip synchronisation pipeline (src/index.ts)

    The development embeds [getVideoMeta], [downloadAndEncode] and
    [downloadAudioclip] of src/index.ts as Rocq functions over an explicit
    world (file system, resolution cache, resource index, trace of the
    external calls) and proves the properties the specification states
    about them.

    What the program is given from outside is a parameter of the model:
    the records the store returns, the answers of the video host, what the
    encoding tool leaves on disk, the identifiers of the generator.  The
    library functions the program calls on its own data are written out:
    lodash's [maxBy], sanitize-filename, [path.resolve], [JSON.stringify]
    and [JSON.parse] (on texts whose numbers are integers).  The numeric
    value of a string under unary [+] is taken as given.  The checks made
    before the run starts (lines 18-29), the query of the store (lines
    69-86), the stub of lines 218-228 and the lines written to the console
    are left out. *)

From Stdlib Require Import ZArith QArith Lia Ascii String List.
From Stdlib Require Import DecimalFacts DecimalPos DecimalString.
From stdpp Require Import base option list gmap strings.

Local Open Scope string_scope.
Local Open Scope list_scope.
Local Open Scope Z_scope.

(** ** Values of the language *)

Module JS.

(** A number of the language: [NaN], an infinity, or a finite number
    given by its exact value.  Every double is of this form.  [-0] is not
    told apart from [0]: the program only compares numbers and tests them
    for truthiness, where the two behave alike. *)
Inductive number :=
| NaN
| Infinity (negative : bool)
| Finite (q : Q).

Definition of_Z (z : Z) : number := Finite (inject_Z z).

Definition zero : number := of_Z 0.

(** [n !== n]. *)
Definition is_nan (n : number) : bool :=
  match n with
  | NaN => true
  | _ => false
  end.

(** [a > b]; every comparison with [NaN] is false. *)
Definition gt (a b : number) : bool :=
  match a, b with
  | NaN, _ | _, NaN => false
  | Infinity sa, Infinity sb => sb && negb sa
  | Infinity sa, Finite _ => negb sa
  | Finite _, Infinity sb => sb
  | Finite x, Finite y => Qnum y * QDen x <? Qnum x * QDen y
  end.

(** The raw value of a property that is declared optional and numeric and
    that the code converts with unary [+]: absent, a number, or a string. *)
Inductive value :=
| Undefined
| Num (n : number)
| Str (s : string).

(** Truthiness: [undefined], [0], [NaN] and the empty string are falsy. *)
Definition truthy (x : value) : bool :=
  match x with
  | Undefined => false
  | Num NaN => false
  | Num (Infinity _) => true
  | Num (Finite q) => negb (Qnum q =? 0)
  | Str s => negb (String.eqb s "")
  end.

(** [x || y]. *)
Definition or (x y : value) : value := if truthy x then x else y.

(** Unary [+]: [undefined] gives [NaN], a number itself, a string its
    numeric value.  The numeric value of a string, the language's
    [StringToNumber], is taken as given. *)
Definition ToNumber (StringToNumber : string -> number) (x : value) : number :=
  match x with
  | Undefined => NaN
  | Num n => n
  | Str s => StringToNumber s
  end.

(** Truthiness of an optional string: [undefined] and [""] are falsy. *)
Definition truthy_str (o : option string) : bool :=
  match o with
  | Some "" => false
  | Some _ => true
  | None => false
  end.

End JS.

(** ** Stream descriptors and resolved metadata *)

(** Modelled from the spec: the stream descriptor type of the resolution
    provider (its declaration is not part of src/), section 6:
    [{ hasAudio: bool, audioSampleRate?: number, url: string }].  The code
    does not rely on [audioSampleRate] being a number: it converts the
    value with unary [+] (lines 108 and 116) and tests it as it is (lines
    108 and 109).  The field therefore holds the raw value, which may be
    absent, a number or a string. *)
Record videoFormat := VideoFormat {
  hasAudio : bool;
  audioSampleRate : JS.value;
  format_url : string;
}.

(** Modelled from the spec: the overall part of the provider's answer,
    [{ videoId, canonicalUrl, title }], read by the code as
    [info.videoDetails.videoId], [.video_url] and [.title]. *)
Record videoDetails := VideoDetails {
  videoId : string;
  video_url : string;
  details_title : string;
}.

Record videoInfo := VideoInfo {
  formats : list videoFormat;
  videoDetails_of : videoDetails;
}.

(** [interface IVideoMeta], lines 88-96.  The object of lines 111-120 also
    carries the time of the call, [fetchedAt], which nothing reads. *)
Record IVideoMeta := VideoMeta {
  vm_id : string;
  vm_url : string;
  vm_title : string;
  vm_source_asr : JS.number;
  vm_source_url : string;
}.

Module Lodash.

(** One iteration of lodash's [baseExtremum] with the comparator
    [baseGt] ([value > other]): the pair is [(computed, result)].  While
    nothing is computed yet an element is taken when its key is not
    [NaN] ([current === current]); the keys here are numbers, so that the
    tests [current != null] and [!isSymbol(current)] hold. *)
Definition extremum_step {A} (iteratee : A -> JS.number)
    (acc : option (JS.number * A)) (value : A) : option (JS.number * A) :=
  let current := iteratee value in
  match acc with
  | None => if JS.is_nan current then None else Some (current, value)
  | Some (computed, _) =>
      if JS.gt current computed then Some (current, value) else acc
  end.

(** The accumulator pairs an element with its own key, which is not
    [NaN]. *)
Definition well_keyed {A} (iteratee : A -> JS.number)
    (acc : option (JS.number * A)) : Prop :=
  forall c x, acc = Some (c, x) -> c = iteratee x /\ JS.is_nan c = false.

Definition baseExtremum {A} (array : list A) (iteratee : A -> JS.number)
    : option (JS.number * A) :=
  fold_left (extremum_step iteratee) array None.

(** [maxBy(array, iteratee)]: the first of the elements whose key is the
    greatest among the keys that are not [NaN]; [undefined] when there is
    no such element, as on the empty array. *)
Definition maxBy {A} (array : list A) (iteratee : A -> JS.number) : option A :=
  snd <$> baseExtremum array iteratee.

End Lodash.

(** ** Stream resolution: [getVideoMeta], lines 98-127 *)

(** The resolution provider.  [getURLVideoID] parses a source URL
    ([None]: it throws); [getInfo] is the request to the video host, whose
    answer may depend on when it is made: the first argument counts the
    external calls made before it ([None]: the request is rejected).
    [StringToNumber] is the numeric value the language gives to a string
    of the answer under unary [+]; it is part of what the model is given,
    so that nothing is assumed about how strings are read. *)
Record provider := Provider {
  getURLVideoID : string -> option string;
  getInfo : nat -> string -> option videoInfo;
  StringToNumber : string -> JS.number;
}.

(** The iteratee of line 108: [+(i.audioSampleRate || 0)]. *)
Definition sampleRate (p : provider) (i : videoFormat) : JS.number :=
  JS.ToNumber (StringToNumber p)
    (JS.or (audioSampleRate i) (JS.Num JS.zero)).

(** Line 108. *)
Definition bestFormat (p : provider) (info : videoInfo) : option videoFormat :=
  Lodash.maxBy (List.filter hasAudio (formats info)) (sampleRate p).

(** The body of the [try] block from line 108 on; [None] is the throw of
    line 109, which tests the raw value of the selected stream. *)
Definition selectFormat (p : provider) (info : videoInfo) : option IVideoMeta :=
  match bestFormat p info with
  | None => None
  | Some best =>
      if JS.truthy (audioSampleRate best) then
        Some {| vm_id := videoId (videoDetails_of info);
                vm_url := video_url (videoDetails_of info);
                vm_title := details_title (videoDetails_of info);
                vm_source_asr :=
                  JS.ToNumber (StringToNumber p) (audioSampleRate best);
                vm_source_url := format_url best |}
      else None
  end.

(** [getVideoMeta(url)]: every exception of the [try] block is caught and
    turned into [null], here [None]. *)
Definition getVideoMeta (p : provider) (now : nat) (url : string)
    : option IVideoMeta :=
  match getURLVideoID p url with
  | None => None
  | Some _ =>
      match getInfo p now url with
      | None => None
      | Some info => selectFormat p info
      end
  end.

(** ** Filename derivation *)

Module Sanitize.

(** The npm package sanitize-filename, called at line 178 with no
    options, so that every match is replaced by the empty string.
    Strings are sequences of UTF-8 bytes. *)

Definition code (c : ascii) : nat := nat_of_ascii c.

(** [illegalRe]: the slash, question mark, angle brackets, backslash,
    colon, asterisk, vertical bar and double quote. *)
Definition illegal (c : ascii) : bool :=
  existsb (Nat.eqb (code c)) [47; 63; 60; 62; 92; 58; 42; 124; 34]%nat.

Definition remove_illegal (s : string) : string :=
  string_of_list_ascii
    (List.filter (fun c => negb (illegal c)) (list_ascii_of_string s)).

(** [controlRe]: the control characters; the code points U+0000-U+001F
    are single bytes, U+0080-U+009F are the byte 0xC2 followed by a
    byte in 0x80-0x9F. *)
Fixpoint remove_control (s : string) : string :=
  match s with
  | EmptyString => EmptyString
  | String c s' =>
      if (code c <=? 31)%nat then remove_control s'
      else
        match s' with
        | String d s'' =>
            if ((code c =? 194) && (128 <=? code d) && (code d <=? 159))%nat
            then remove_control s''
            else String c (remove_control s')
        | EmptyString => String c EmptyString
        end
  end.

Definition all_chars (P : ascii -> bool) (s : string) : bool :=
  forallb P (list_ascii_of_string s).

Definition is_dot (c : ascii) : bool := (code c =? 46)%nat.

(** [reservedRe]: a name made of dots only. *)
Definition remove_reserved (s : string) : string :=
  match s with
  | EmptyString => s
  | _ => if all_chars is_dot s then EmptyString else s
  end.

Definition lower (c : ascii) : ascii :=
  if ((65 <=? code c) && (code c <=? 90))%nat
  then ascii_of_nat (code c + 32) else c.

Definition lower_string (s : string) : string :=
  string_of_list_ascii (List.map lower (list_ascii_of_string s)).

Definition is_digit (c : ascii) : bool :=
  ((48 <=? code c) && (code c <=? 57))%nat.

(** The device names of [windowsReservedRe], matched at the start of the
    lower-cased name; the result is what follows the device name. *)
Definition strip_device (s : string) : option string :=
  match s with
  | String a (String b (String c r)) =>
      let w := lower_string (String a (String b (String c EmptyString))) in
      if existsb (String.eqb w) ["con"; "prn"; "aux"; "nul"] then Some r
      else if existsb (String.eqb w) ["com"; "lpt"] then
        match r with
        | String d r' => if is_digit d then Some r' else None
        | EmptyString => None
        end
      else None
  | _ => None
  end.

(** Whether a line terminator occurs: [.] of a regular expression does
    not match U+000A, U+000D, U+2028 (E2 80 A8) and U+2029 (E2 80 A9). *)
Fixpoint has_line_terminator (s : string) : bool :=
  match s with
  | EmptyString => false
  | String c s' =>
      if ((code c =? 10) || (code c =? 13))%nat then true
      else
        match s' with
        | String d (String e _) =>
            if ((code c =? 226) && (code d =? 128)
                && ((code e =? 168) || (code e =? 169)))%nat
            then true else has_line_terminator s'
        | _ => has_line_terminator s'
        end
  end.

(** [windowsReservedRe]: a device name, alone or followed by a dot and
    anything on the same line, whatever the case of its letters. *)
Definition remove_windows_reserved (s : string) : string :=
  match strip_device s with
  | Some EmptyString => EmptyString
  | Some (String c r) =>
      if is_dot c && negb (has_line_terminator r) then EmptyString else s
  | None => s
  end.

Definition dot_or_space (c : ascii) : bool :=
  ((code c =? 46) || (code c =? 32))%nat.

(** [windowsTrailingRe]: the dots and spaces that end the name. *)
Fixpoint remove_trailing (s : string) : string :=
  match s with
  | EmptyString => EmptyString
  | String c s' =>
      if all_chars dot_or_space s then EmptyString
      else String c (remove_trailing s')
  end.

Definition continuation (c : ascii) : bool :=
  ((128 <=? code c) && (code c <=? 191))%nat.

(** The longest prefix of [s] of at most [n] bytes that ends between two
    characters (truncate-utf8-bytes). *)
Fixpoint cut (n : nat) (s : string) : string :=
  match n with
  | O => String.substring 0 0 s
  | S n' =>
      match String.get n s with
      | Some c => if continuation c then cut n' s else String.substring 0 n s
      | None => String.substring 0 n s
      end
  end.

Definition truncate (s : string) (byteLength : nat) : string :=
  if (String.length s <=? byteLength)%nat then s else cut byteLength s.

Definition sanitizeFilename (input : string) : string :=
  truncate
    (remove_trailing
      (remove_windows_reserved
        (remove_reserved (remove_control (remove_illegal input)))))
    255.

End Sanitize.

(** [path.resolve(dir, segment)] for an absolute, normalised [dir] and a
    segment without separators that is neither [.] nor [..], which is what
    [sanitizeFilename] returns and what the two constant segments are. *)
Definition path_resolve (dir segment : string) : string :=
  match segment with
  | EmptyString => dir
  | _ => dir +:+ "/" +:+ segment
  end.

(** ** The persisted index: data model, lines 31-63 *)

(** A value stored in a field whose declared type the code does not
    enforce: [source.startTime] is declared a number and receives the
    record's raw [startTime]. *)
Inductive jsprim :=
| JSundefined
| JSnumber (z : Z)
| JSstring (s : string).

Definition jsprim_of (o : option string) : jsprim :=
  match o with
  | Some s => JSstring s
  | None => JSundefined
  end.

(** An optional property is [None] both when the key is absent and when
    its value is [undefined]: reading it gives [undefined] either way.
    The numbers of an index are integers here; the program itself stores
    one number only, the version tag 1. *)
Record Contributor := {
  contributor_name : option string;
  contributor_link : option string;
}.

Record Source := {
  source_url : string;
  source_title : string;
  source_startTime : jsprim;
}.

Record Filemeta := {
  filemeta_md5 : option string;
  filemeta_size : option Z;
  filemeta_duration : option Z;
}.

Record IResourceMeta := {
  meta_id : string;
  meta_refId : string;
  meta_title : string;
  meta_filename : string;
  meta_description : option string;
  meta_contributor : option Contributor;
  meta_catalog : option string;
  meta_tags : option (list string);
  meta_source : Source;
  meta_language : option (gmap string string);
  meta_filemeta : option Filemeta;
}.

Record IResourceIndex := {
  v : Z;
  resources : gmap string IResourceMeta;
}.

(** The index of line 162 when no file exists. *)
Definition fresh_index : IResourceIndex := {| v := 1; resources := ∅ |}.

(** Modelled from the spec: a record of the remote store (the code has it
    as [any]), section 3:
    [{ id, title, videoUrl, description?, author?, startTime?, duration? }],
    the two trim parameters being strings as in
    [IDownloadAndEncodeOptions]. *)
Record ResourceRecord := {
  record_id : string;
  record_title : string;
  record_videoUrl : string;
  record_description : option string;
  record_author : option string;
  record_startTime : option string;
  record_duration : option string;
}.

(** ** JSON text: [JSON.stringify] and [JSON.parse] *)

(** JSON values with integer-valued numbers, printed in decimal as
    JavaScript prints them below 10^21, and strings as sequences of UTF-8
    bytes.  [JSON.stringify] writes no white space; [JSON.parse] accepts
    it.  A text with a fraction, an exponent or an escaped surrogate is
    outside the model and is not read. *)
Module JSON.

#[local] Set Warnings "-register-all".
Inductive value :=
| Null
| Bool (b : bool)
| Number (z : Z)
| Str (s : string)
| Array (elements : list value)
| Object (members : list (string * value)).

Definition code (c : ascii) : N := N_of_ascii c.

Definition dquote : ascii := ascii_of_N 34.
Definition backslash : ascii := ascii_of_N 92.

(** *** Printing *)

Definition hex_digit (n : N) : ascii :=
  if (n <? 10)%N then ascii_of_N (48 + n)%N else ascii_of_N (87 + n)%N.

(** One character of [QuoteJSONString]: the quote, the backslash and the
    control characters are escaped, every other byte is copied. *)
Definition quote_char (c : ascii) : string :=
  let n := code c in
  if (n =? 34)%N then String backslash (String dquote EmptyString)
  else if (n =? 92)%N then String backslash (String backslash EmptyString)
  else if (n =? 8)%N then "\b"
  else if (n =? 9)%N then "\t"
  else if (n =? 10)%N then "\n"
  else if (n =? 12)%N then "\f"
  else if (n =? 13)%N then "\r"
  else if (n <? 32)%N then
    "\u00" +:+ String (hex_digit (n / 16)) (String (hex_digit (n mod 16)) EmptyString)
  else String c EmptyString.

(** The characters of [s] quoted, followed by the closing quote and
    [k]. *)
Fixpoint quote_body (s : string) (k : string) : string :=
  match s with
  | EmptyString => String dquote k
  | String c s' => quote_char c +:+ quote_body s' k
  end.

Definition quote (s : string) (k : string) : string :=
  String dquote (quote_body s k).

Definition print_Z (z : Z) : string :=
  match z with
  | Z0 => "0"
  | Zpos p => NilEmpty.string_of_uint (Pos.to_uint p)
  | Zneg p => String "-" (NilEmpty.string_of_uint (Pos.to_uint p))
  end.

(** [print v k] is the text of [v] followed by [k]. *)
Fixpoint print (v : value) (k : string) : string :=
  match v with
  | Null => "null" +:+ k
  | Bool true => "true" +:+ k
  | Bool false => "false" +:+ k
  | Number z => print_Z z +:+ k
  | Str s => quote s k
  | Array [] => "[]" +:+ k
  | Array (x :: l) =>
      String "[" (print x
        ((fix more (l : list value) : string :=
            match l with
            | [] => String "]" k
            | y :: l' => String "," (print y (more l'))
            end) l))
  | Object [] => "{}" +:+ k
  | Object ((key, x) :: l) =>
      String "{" (quote key (String ":" (print x
        ((fix more (l : list (string * value)) : string :=
            match l with
            | [] => String "}" k
            | (key', y) :: l' =>
                String "," (quote key' (String ":" (print y (more l'))))
            end) l))))
  end.

Definition stringify (v : value) : string := print v EmptyString.

(** The two inner loops of [print], on their own. *)
Fixpoint print_elements (k : string) (l : list value) : string :=
  match l with
  | [] => String "]" k
  | y :: l' => String "," (print y (print_elements k l'))
  end.

Fixpoint print_members (k : string) (l : list (string * value)) : string :=
  match l with
  | [] => String "}" k
  | (key, y) :: l' =>
      String "," (quote key (String ":" (print y (print_members k l'))))
  end.

(** *** Parsing *)

Definition is_ws (c : ascii) : bool :=
  ((code c =? 32) || (code c =? 9) || (code c =? 10) || (code c =? 13))%N.

Fixpoint skip_ws (s : string) : string :=
  match s with
  | String c s' => if is_ws c then skip_ws s' else s
  | EmptyString => s
  end.

Definition hex_value (c : ascii) : option N :=
  let n := code c in
  if ((48 <=? n) && (n <=? 57))%N then Some (n - 48)%N
  else if ((97 <=? n) && (n <=? 102))%N then Some (n - 87)%N
  else if ((65 <=? n) && (n <=? 70))%N then Some (n - 55)%N
  else None.

(** The UTF-8 bytes of a code unit of the basic plane; a surrogate has
    no encoding of its own. *)
Definition utf8 (n : N) : option string :=
  if (n <? 128)%N then Some (String (ascii_of_N n) EmptyString)
  else if (n <? 2048)%N then
    Some (String (ascii_of_N (192 + n / 64)%N)
           (String (ascii_of_N (128 + n mod 64)%N) EmptyString))
  else if ((55296 <=? n) && (n <=? 57343))%N then None
  else
    Some (String (ascii_of_N (224 + n / 4096)%N)
           (String (ascii_of_N (128 + (n / 64) mod 64)%N)
             (String (ascii_of_N (128 + n mod 64)%N) EmptyString))).

Definition unescape (c : ascii) : option ascii :=
  let n := code c in
  if (n =? 34)%N then Some dquote
  else if (n =? 92)%N then Some backslash
  else if (n =? 47)%N then Some "/"%char
  else if (n =? 98)%N then Some (ascii_of_N 8)
  else if (n =? 102)%N then Some (ascii_of_N 12)
  else if (n =? 110)%N then Some (ascii_of_N 10)
  else if (n =? 114)%N then Some (ascii_of_N 13)
  else if (n =? 116)%N then Some (ascii_of_N 9)
  else None.

Definition prepend (p : string) (r : option (string * string))
    : option (string * string) :=
  match r with
  | Some (str, rest) => Some (p +:+ str, rest)
  | None => None
  end.

(** The characters of a string up to its closing quote, and what
    follows it. *)
Fixpoint parse_string (s : string) : option (string * string) :=
  match s with
  | EmptyString => None
  | String c r =>
      if (code c =? 34)%N then Some (EmptyString, r)
      else if (code c =? 92)%N then
        match r with
        | String e r1 =>
            if (code e =? 117)%N then
              match r1 with
              | String h1 (String h2 (String h3 (String h4 r2))) =>
                  match hex_value h1, hex_value h2, hex_value h3, hex_value h4 with
                  | Some a, Some b, Some c', Some d =>
                      match utf8 (((a * 16 + b) * 16 + c') * 16 + d)%N with
                      | Some bytes => prepend bytes (parse_string r2)
                      | None => None
                      end
                  | _, _, _, _ => None
                  end
              | _ => None
              end
            else
              match unescape e with
              | Some ch => prepend (String ch EmptyString) (parse_string r1)
              | None => None
              end
        | EmptyString => None
        end
      else if (code c <? 32)%N then None
      else prepend (String c EmptyString) (parse_string r)
  end.

Definition is_digit (c : ascii) : bool :=
  ((48 <=? code c) && (code c <=? 57))%N.

(** The longest prefix of digits, and what follows it. *)
Fixpoint digits (s : string) : string * string :=
  match s with
  | String c s' =>
      if is_digit c then
        let '(ds, rest) := digits s' in (String c ds, rest)
      else (EmptyString, s)
  | EmptyString => (EmptyString, s)
  end.

(** Whether the text goes on with a fraction or an exponent, which the
    integer-valued numbers of the model do not have. *)
Definition continues_number (s : string) : bool :=
  match s with
  | String c _ => ((code c =? 46) || (code c =? 101) || (code c =? 69))%N
  | EmptyString => false
  end.

Definition parse_nat (s : string) : option (Z * string) :=
  let '(ds, rest) := digits s in
  match ds with
  | EmptyString => None
  | String "0" (String _ _) => None
  | _ =>
      if continues_number rest then None
      else
        match NilEmpty.uint_of_string ds with
        | Some u => Some (Z.of_uint u, rest)
        | None => None
        end
  end.

Definition parse_number (s : string) : option (Z * string) :=
  match s with
  | String "-" s' =>
      match parse_nat s' with
      | Some (z, rest) => Some (- z, rest)
      | None => None
      end
  | _ => parse_nat s
  end.

(** [expect w s]: what follows the word [w] at the start of [s]. *)
Fixpoint expect (w s : string) : option string :=
  match w with
  | EmptyString => Some s
  | String c w' =>
      match s with
      | String d s' => if Ascii.eqb c d then expect w' s' else None
      | EmptyString => None
      end
  end.

Fixpoint parse_value (fuel : nat) (s : string) : option (value * string) :=
  match fuel with
  | O => None
  | S fuel =>
      match skip_ws s with
      | EmptyString => None
      | String c r =>
          if (code c =? 110)%N then
            match expect "ull" r with Some r' => Some (Null, r') | None => None end
          else if (code c =? 116)%N then
            match expect "rue" r with Some r' => Some (Bool true, r') | None => None end
          else if (code c =? 102)%N then
            match expect "alse" r with Some r' => Some (Bool false, r') | None => None end
          else if (code c =? 34)%N then
            match parse_string r with
            | Some (str, r') => Some (Str str, r')
            | None => None
            end
          else if (code c =? 91)%N then
            match skip_ws r with
            | String "]" r' => Some (Array [], r')
            | r0 =>
                match parse_value fuel r0 with
                | Some (x, r1) =>
                    match parse_elements fuel r1 with
                    | Some (l, r2) => Some (Array (x :: l), r2)
                    | None => None
                    end
                | None => None
                end
            end
          else if (code c =? 123)%N then
            match skip_ws r with
            | String "}" r' => Some (Object [], r')
            | r0 =>
                match parse_member fuel r0 with
                | Some (m, r1) =>
                    match parse_members fuel r1 with
                    | Some (l, r2) => Some (Object (m :: l), r2)
                    | None => None
                    end
                | None => None
                end
            end
          else
            match parse_number (String c r) with
            | Some (z, r') => Some (Number z, r')
            | None => None
            end
      end
  end
with parse_elements (fuel : nat) (s : string) : option (list value * string) :=
  match fuel with
  | O => None
  | S fuel =>
      match skip_ws s with
      | String "]" r => Some ([], r)
      | String "," r =>
          match parse_value fuel r with
          | Some (x, r1) =>
              match parse_elements fuel r1 with
              | Some (l, r2) => Some (x :: l, r2)
              | None => None
              end
          | None => None
          end
      | _ => None
      end
  end
with parse_member (fuel : nat) (s : string) : option ((string * value) * string) :=
  match fuel with
  | O => None
  | S fuel =>
      match skip_ws s with
      | String c r =>
          if (code c =? 34)%N then
            match parse_string r with
            | Some (key, r1) =>
                match skip_ws r1 with
                | String ":" r2 =>
                    match parse_value fuel r2 with
                    | Some (x, r3) => Some ((key, x), r3)
                    | None => None
                    end
                | _ => None
                end
            | None => None
            end
          else None
      | EmptyString => None
      end
  end
with parse_members (fuel : nat) (s : string)
    : option (list (string * value) * string) :=
  match fuel with
  | O => None
  | S fuel =>
      match skip_ws s with
      | String "}" r => Some ([], r)
      | String "," r =>
          match parse_member fuel r with
          | Some (m, r1) =>
              match parse_members fuel r1 with
              | Some (l, r2) => Some (m :: l, r2)
              | None => None
              end
          | None => None
          end
      | _ => None
      end
  end.

Definition no_digit (k : string) : Prop :=
  match k with
  | EmptyString => True
  | String c _ => is_digit c = false
  end.

(** What may follow a value in a text: nothing, or a character that
    cannot continue a number. *)
Definition delimited (k : string) : Prop :=
  match k with
  | EmptyString => True
  | String c _ => is_digit c = false /\ continues_number k = false
  end.

(** The characters a value starts with. *)
Definition value_start (c : ascii) : bool :=
  is_digit c
  || existsb (N.eqb (code c)) [110; 116; 102; 45; 34; 91; 123]%N.

(** [JSON.parse(text)]; [None] is a [SyntaxError].  The whole text, up
    to white space, has to be one value. *)
Definition parse (text : string) : option value :=
  match parse_value (S (String.length text)) text with
  | Some (x, rest) =>
      match skip_ws rest with
      | EmptyString => Some x
      | _ => None
      end
  | None => None
  end.

(** [x] printed in front of [k] is read back with [k] left over, for
    any fuel that is at least the length of some text of [x]. *)
Definition reads_back (x : value) : Prop :=
  forall fuel k k',
    delimited k ->
    (String.length (print x k') <= fuel)%nat ->
    parse_value fuel (print x k) = Some (x, k).

End JSON.

(** ** The index as a JSON document *)

(** The properties of an entry are written in the order of lines 193-207
    and the entries of [resources] in the order of their keys.  The
    program writes the entries in the order in which they were inserted;
    reading the file back does not observe the difference. *)

Module Codec.

Import JSON.

(** A property whose value is [undefined] is left out by
    [JSON.stringify]. *)
Definition optional (key : string) (o : option value)
    : list (string * value) :=
  match o with
  | Some x => [(key, x)]
  | None => []
  end.

Definition encode_prim (p : jsprim) : option value :=
  match p with
  | JSundefined => None
  | JSnumber z => Some (Number z)
  | JSstring s => Some (Str s)
  end.

Definition encode_strings (m : gmap string string) : value :=
  Object (prod_map id Str <$> map_to_list m).

Definition encode_contributor (c : Contributor) : value :=
  Object (optional "name" (Str <$> contributor_name c)
          ++ optional "link" (Str <$> contributor_link c)).

Definition encode_source (s : Source) : value :=
  Object ([("url", Str (source_url s))]
          ++ optional "startTime" (encode_prim (source_startTime s))
          ++ [("title", Str (source_title s))]).

Definition encode_filemeta (f : Filemeta) : value :=
  Object (optional "md5" (Str <$> filemeta_md5 f)
          ++ optional "size" (Number <$> filemeta_size f)
          ++ optional "duration" (Number <$> filemeta_duration f)).

(** The properties of the object literal of lines 193-207 come first
    and in its order. *)
Definition encode_meta (m : IResourceMeta) : value :=
  Object ([("id", Str (meta_id m)); ("refId", Str (meta_refId m));
           ("title", Str (meta_title m));
           ("filename", Str (meta_filename m))]
          ++ optional "description" (Str <$> meta_description m)
          ++ [("source", encode_source (meta_source m))]
          ++ optional "contributor" (encode_contributor <$> meta_contributor m)
          ++ optional "catalog" (Str <$> meta_catalog m)
          ++ optional "tags" (Array ∘ fmap Str <$> meta_tags m)
          ++ optional "language" (encode_strings <$> meta_language m)
          ++ optional "filemeta" (encode_filemeta <$> meta_filemeta m)).

Definition encode_index (i : IResourceIndex) : value :=
  Object [("v", Number (v i));
          ("resources",
           Object (prod_map id encode_meta <$> map_to_list (resources i)))].

(** Reading a property: of two members with one key the later one
    stands. *)
Fixpoint field (key : string) (ms : list (string * value)) : option value :=
  match ms with
  | [] => None
  | (key', x) :: ms' =>
      match field key ms' with
      | Some y => Some y
      | None => if String.eqb key key' then Some x else None
      end
  end.

Definition as_string (x : value) : option string :=
  match x with Str s => Some s | _ => None end.

Definition as_number (x : value) : option Z :=
  match x with Number z => Some z | _ => None end.

Definition as_object (x : value) : option (list (string * value)) :=
  match x with Object ms => Some ms | _ => None end.

Definition as_strings (x : value) : option (list string) :=
  match x with Array l => mapM as_string l | _ => None end.

(** The typed view of a parsed document.  The code asserts the type
    [IResourceIndex] of what [JSON.parse] returns without a check; the
    model covers the documents that have this type, and [None] says that
    the document at hand does not. *)
Definition required {A} (key : string) (ms : list (string * value))
    (f : value -> option A) : option A :=
  field key ms ≫= f.

Definition opt {A} (key : string) (ms : list (string * value))
    (f : value -> option A) : option (option A) :=
  match field key ms with
  | None => Some None
  | Some x => Some <$> f x
  end.

(** The members in the order of the text, the later of two with one key
    standing. *)
Definition to_map {A} (f : value -> option A) (ms : list (string * value))
    : option (gmap string A) :=
  list_to_map ∘ reverse <$> mapM (λ '(key, x), pair key <$> f x) ms.

Definition as_string_map (x : value) : option (gmap string string) :=
  as_object x ≫= to_map as_string.

Definition decode_prim (ms : list (string * value)) : option jsprim :=
  match field "startTime" ms with
  | None => Some JSundefined
  | Some (Number z) => Some (JSnumber z)
  | Some (Str s) => Some (JSstring s)
  | Some _ => None
  end.

Definition decode_contributor (x : value) : option Contributor :=
  ms ← as_object x;
  name ← opt "name" ms as_string;
  link ← opt "link" ms as_string;
  Some {| contributor_name := name; contributor_link := link |}.

Definition decode_source (x : value) : option Source :=
  ms ← as_object x;
  url ← required "url" ms as_string;
  title ← required "title" ms as_string;
  startTime ← decode_prim ms;
  Some {| source_url := url; source_title := title;
          source_startTime := startTime |}.

Definition decode_filemeta (x : value) : option Filemeta :=
  ms ← as_object x;
  md5 ← opt "md5" ms as_string;
  size ← opt "size" ms as_number;
  duration ← opt "duration" ms as_number;
  Some {| filemeta_md5 := md5; filemeta_size := size;
          filemeta_duration := duration |}.

Definition decode_meta (x : value) : option IResourceMeta :=
  ms ← as_object x;
  id ← required "id" ms as_string;
  refId ← required "refId" ms as_string;
  title ← required "title" ms as_string;
  filename ← required "filename" ms as_string;
  description ← opt "description" ms as_string;
  contributor ← opt "contributor" ms decode_contributor;
  catalog ← opt "catalog" ms as_string;
  tags ← opt "tags" ms as_strings;
  source ← required "source" ms decode_source;
  language ← opt "language" ms as_string_map;
  filemeta ← opt "filemeta" ms decode_filemeta;
  Some {| meta_id := id; meta_refId := refId; meta_title := title;
          meta_filename := filename; meta_description := description;
          meta_contributor := contributor; meta_catalog := catalog;
          meta_tags := tags; meta_source := source;
          meta_language := language; meta_filemeta := filemeta |}.

Definition decode_index (x : value) : option IResourceIndex :=
  ms ← as_object x;
  version ← required "v" ms as_number;
  entries ← required "resources" ms (λ y, as_object y ≫= to_map decode_meta);
  Some {| v := version; resources := entries |}.

End Codec.

(** ** The file system *)

Inductive node :=
| Dir
| File (content : string).

Definition existsSync (fs : gmap string node) (path : string) : bool :=
  bool_decide (is_Some (fs !! path)).

(** [None]: the call throws. *)
Definition readFileSync (fs : gmap string node) (path : string)
    : option string :=
  match fs !! path with
  | Some (File content) => Some content
  | _ => None
  end.

(** [None]: the call throws, as it does on a directory.  The directory
    that holds [path] is taken to be there: the one file the program writes
    is the index file, in the working directory. *)
Definition writeFileSync (fs : gmap string node) (path content : string)
    : option (gmap string node) :=
  match fs !! path with
  | Some Dir => None
  | _ => Some (<[path := File content]> fs)
  end.

(** Line 162.  [None]: reading or parsing throws, or the document is not
    an [IResourceIndex] as lines 31-63 declare it.  The code only asserts
    the type; a run on a file of another shape is outside the model. *)
Definition loadMetaFile (fs : gmap string node) (metaFilePath : string)
    : option IResourceIndex :=
  if existsSync fs metaFilePath then
    text ← readFileSync fs metaFilePath;
    document ← JSON.parse text;
    Codec.decode_index document
  else Some fresh_index.

(** Line 214. *)
Definition writeMetaFile (fs : gmap string node) (metaFilePath : string)
    (metaFile : IResourceIndex) : option (gmap string node) :=
  writeFileSync fs metaFilePath (JSON.stringify (Codec.encode_index metaFile)).

(** ** The run: environment, state and trace *)

(** What the run is given.  [encoder now argv] is the outcome of running
    the encoding tool with the arguments [argv] when [now] external calls
    were made before: the contents of the file it leaves at its output
    path, or [None] when it leaves none.  [UUIDv4 n] is the identifier the
    generator returns at its call number [n]. *)
Record environment := {
  FFMPEG : string;
  dirname : string;
  ytdl : provider;
  encoder : nat -> list string -> option string;
  UUIDv4 : nat -> string;
}.

(** The external calls of a run, oldest first. *)
Inductive event :=
| Resolve (url : string) (result : option IVideoMeta)
| Exec (argv : list string).

Record state := {
  files : gmap string node;
  videoMetaCache : gmap string IVideoMeta;
  metaFile : IResourceIndex;
  trace : list event;
  generated : nat;
}.

Definition set_files (fs : gmap string node) (st : state) : state :=
  {| files := fs; videoMetaCache := videoMetaCache st;
     metaFile := metaFile st; trace := trace st; generated := generated st |}.

Definition set_cache (c : gmap string IVideoMeta) (st : state) : state :=
  {| files := files st; videoMetaCache := c;
     metaFile := metaFile st; trace := trace st; generated := generated st |}.

Definition log_event (ev : event) (st : state) : state :=
  {| files := files st; videoMetaCache := videoMetaCache st;
     metaFile := metaFile st; trace := trace st ++ [ev];
     generated := generated st |}.

(** [metaFile.resources[filename] = meta] with a newly generated
    identifier consumed. *)
Definition put_resource (filename : string) (meta : IResourceMeta)
    (st : state) : state :=
  {| files := files st; videoMetaCache := videoMetaCache st;
     metaFile := {| v := v (metaFile st);
                    resources := <[filename := meta]> (resources (metaFile st)) |};
     trace := trace st; generated := S (generated st) |}.

Record IDownloadAndEncodeOptions := {
  opt_url : string;
  opt_output : string;
  opt_startTime : option string;
  opt_duration : option string;
}.

(** The array of arguments of lines 138-146, as the code hands it to
    [shellescape].  What [shellescape] and the shell make of it, the command
    line and the arguments the tool receives in the end, is not modelled. *)
Definition encode_argv (e : environment) (o : IDownloadAndEncodeOptions)
    : list string :=
  [FFMPEG e; "-hide_banner"; "-nostdin"; "-i"; opt_url o]
  ++ (if JS.truthy_str (opt_startTime o)
      then ["-ss"; default "" (opt_startTime o)] else [])
  ++ (if JS.truthy_str (opt_duration o)
      then ["-t"; default "" (opt_duration o)] else [])
  ++ ["-vn"; "-c:a"; "libmp3lame"; opt_output o].

(** [downloadAndEncode], lines 137-147: the tool is run and its exit
    status is not looked at. *)
Definition downloadAndEncode (e : environment) (o : IDownloadAndEncodeOptions)
    (st : state) : state :=
  let argv := encode_argv e o in
  let fs :=
    match encoder e (length (trace st)) argv with
    | Some content => <[opt_output o := File content]> (files st)
    | None => files st
    end in
  log_event (Exec argv) (set_files fs st).

(** Line 168: the cache, or else the provider. *)
Definition lookupVideoMeta (e : environment) (videoUrl : string) (st : state)
    : option IVideoMeta * state :=
  match videoMetaCache st !! videoUrl with
  | Some videoMeta => (Some videoMeta, st)
  | None =>
      let result := getVideoMeta (ytdl e) (length (trace st)) videoUrl in
      (result, log_event (Resolve videoUrl result) st)
  end.

(** Line 174. *)
Definition remember (videoUrl : string) (videoMeta : IVideoMeta) (st : state)
    : state :=
  match videoMetaCache st !! videoUrl with
  | Some _ => st
  | None => set_cache (<[videoUrl := videoMeta]> (videoMetaCache st)) st
  end.

(** Line 178. *)
Definition deriveFilename (record : ResourceRecord) : string :=
  Sanitize.sanitizeFilename
    (record_id record +:+ "-" +:+ record_title record +:+ ".mp3").

(** Lines 193-207. *)
Definition makeMeta (id : string) (record : ResourceRecord)
    (videoMeta : IVideoMeta) (filename : string) : IResourceMeta :=
  {| meta_id := id;
     meta_refId := record_id record;
     meta_title := record_title record;
     meta_filename := filename;
     meta_description := record_description record;
     meta_source := {| source_url := vm_url videoMeta;
                       source_startTime := jsprim_of (record_startTime record);
                       source_title := record_title record |};
     meta_contributor := Some {| contributor_name := record_author record;
                                 contributor_link := None |};
     meta_catalog := None;
     meta_tags := None;
     meta_language := None;
     meta_filemeta := None |}.

(** Lines 185-209, the part of the loop body after the existence check. *)
Definition encodeAndIndex (e : environment) (record : ResourceRecord)
    (videoMeta : IVideoMeta) (filename savePath : string) (st : state)
    : state :=
  let st' :=
    downloadAndEncode e
      {| opt_url := vm_source_url videoMeta;
         opt_output := savePath;
         opt_startTime := record_startTime record;
         opt_duration := record_duration record |} st in
  let meta := makeMeta (UUIDv4 e (generated st')) record videoMeta filename in
  put_resource filename meta st'.

(** The body of the loop, lines 165-211. *)
Definition processRecord (e : environment) (tempDir : string)
    (st : state) (record : ResourceRecord) : state :=
  let videoUrl := record_videoUrl record in
  match lookupVideoMeta e videoUrl st with
  | (None, st) => st
  | (Some videoMeta, st) =>
      let st := remember videoUrl videoMeta st in
      let filename := deriveFilename record in
      let savePath := path_resolve tempDir filename in
      if existsSync (files st) savePath then st
      else encodeAndIndex e record videoMeta filename savePath st
  end.

Definition tempDir_of (e : environment) : string :=
  path_resolve (dirname e) ".temp".

Definition metaFilePath_of (e : environment) : string :=
  path_resolve (tempDir_of e) "meta.json".

(** Lines 155-162: the state the loop starts from.  The directory of the
    running script exists, so that creating [.temp] in it succeeds. *)
Definition initial (e : environment) (fs : gmap string node)
    : option state :=
  let tempDir := tempDir_of e in
  let fs := if existsSync fs tempDir then fs else <[tempDir := Dir]> fs in
  metaFile ← loadMetaFile fs (metaFilePath_of e);
  Some {| files := fs; videoMetaCache := ∅; metaFile := metaFile;
          trace := []; generated := 0 |}.

(** Lines 164-212. *)
Definition loop (e : environment) (records : list ResourceRecord)
    (st : state) : state :=
  fold_left (processRecord e (tempDir_of e)) records st.

(** [downloadAudioclip], lines 149-216, on the records the store
    returned; [None]: the index file could not be loaded or written. *)
Definition downloadAudioclip (e : environment)
    (records : list ResourceRecord) (fs : gmap string node) : option state :=
  st ← initial e fs;
  let st := loop e records st in
  fs ← writeMetaFile (files st) (metaFilePath_of e) (metaFile st);
  Some (set_files fs st).


(** ** Vocabulary of the statements *)

(** The same environment with another encoding tool. *)
Definition with_encoder (enc : nat -> list string -> option string)
    (e : environment) : environment :=
  {| FFMPEG := FFMPEG e; dirname := dirname e; ytdl := ytdl e;
     encoder := enc; UUIDv4 := UUIDv4 e |}.

(** What line 168 gives for a record: its resolved metadata, if any. *)
Definition resolution (e : environment) (st : state) (record : ResourceRecord)
    : option IVideoMeta :=
  (lookupVideoMeta e (record_videoUrl record) st).1.

(** The state after line 174 when resolution gave [videoMeta]. *)
Definition resolved_state (e : environment) (st : state)
    (record : ResourceRecord) (videoMeta : IVideoMeta) : state :=
  remember (record_videoUrl record) videoMeta
    (lookupVideoMeta e (record_videoUrl record) st).2.

Definition savePath_of (tempDir : string) (record : ResourceRecord) : string :=
  path_resolve tempDir (deriveFilename record).

Definition options_of (tempDir : string) (record : ResourceRecord)
    (videoMeta : IVideoMeta) : IDownloadAndEncodeOptions :=
  {| opt_url := vm_source_url videoMeta;
     opt_output := savePath_of tempDir record;
     opt_startTime := record_startTime record;
     opt_duration := record_duration record |}.

Definition is_resolution (url : string) (ev : event) : bool :=
  match ev with
  | Resolve u _ => String.eqb u url
  | Exec _ => false
  end.

Definition is_success (url : string) (ev : event) : bool :=
  match ev with
  | Resolve u (Some _) => String.eqb u url
  | _ => false
  end.

Definition is_exec (ev : event) : bool :=
  match ev with
  | Exec _ => true
  | Resolve _ _ => false
  end.

(** How often the provider was called for [url], and how often with
    success. *)
Definition invocations (url : string) (t : list event) : nat :=
  length (List.filter (is_resolution url) t).

Definition successes (url : string) (t : list event) : nat :=
  length (List.filter (is_success url) t).

(** How many records carry [url]. *)
Definition carrying (url : string) (records : list ResourceRecord) : nat :=
  length (List.filter (fun r => String.eqb (record_videoUrl r) url) records).

(** The cache holds a URL exactly when the provider was called for it with
    success, and it holds the metadata some call returned. *)
Definition cache_tracks (e : environment) (st : state) : Prop :=
  forall url,
    match videoMetaCache st !! url with
    | Some videoMeta =>
        successes url (trace st) = 1%nat
        /\ exists now, getVideoMeta (ytdl e) now url = Some videoMeta
    | None => successes url (trace st) = 0%nat
    end.

(** ** Concrete inputs *)

Module Scenario.

(** The three streams of the stream-selection scenario. *)
Definition three_streams : list videoFormat :=
  [ {| hasAudio := true; audioSampleRate := JS.Num (JS.of_Z 44100);
       format_url := "https://stream/low" |};
    {| hasAudio := true; audioSampleRate := JS.Num (JS.of_Z 48000);
       format_url := "https://stream/high" |};
    {| hasAudio := false; audioSampleRate := JS.Num (JS.of_Z 96000);
       format_url := "https://stream/video" |} ].

Definition details : videoDetails :=
  {| videoId := "abc"; video_url := "https://host/watch?v=abc";
     details_title := "Clip" |}.

Definition three_info : videoInfo :=
  {| formats := three_streams; videoDetails_of := details |}.

Definition abc_info : videoInfo :=
  {| formats := [ {| hasAudio := true; audioSampleRate := JS.Num (JS.of_Z 48000);
                     format_url := "https://stream/abc.audio" |} ];
     videoDetails_of := details |}.

Definition abc_meta : IVideoMeta :=
  {| vm_id := "abc"; vm_url := "https://host/watch?v=abc";
     vm_title := "Clip"; vm_source_asr := JS.of_Z 48000;
     vm_source_url := "https://stream/abc.audio" |}.

(** Two audio streams: the first reports no sample rate, the second the
    rate [0], as a string. *)
Definition unrated_info : videoInfo :=
  {| formats := [ {| hasAudio := true; audioSampleRate := JS.Undefined;
                     format_url := "https://stream/unrated.audio" |};
                  {| hasAudio := true; audioSampleRate := JS.Str "0";
                     format_url := "https://stream/zero.audio" |} ];
     videoDetails_of := details |}.

(** One audio stream whose rate is a string without a numeric value. *)
Definition garbled_info : videoInfo :=
  {| formats := [ {| hasAudio := true; audioSampleRate := JS.Str "n/a";
                     format_url := "https://stream/garbled.audio" |} ];
     videoDetails_of := details |}.

(** A video host that knows four addresses and rejects the request for
    any other one.  Of the strings of its answers only those made of
    decimal digits have a numeric value. *)
Definition host : provider :=
  {| getURLVideoID := fun url =>
       if String.prefix "https://host/" url then Some url else None;
     getInfo := fun _ url =>
       if String.eqb url "https://host/abc" then Some abc_info
       else if String.eqb url "https://host/three" then Some three_info
       else if String.eqb url "https://host/unrated" then Some unrated_info
       else if String.eqb url "https://host/garbled" then Some garbled_info
       else None;
     StringToNumber := fun s =>
       match NilEmpty.uint_of_string s with
       | Some d => JS.of_Z (Z.of_uint d)
       | None => JS.NaN
       end |}.

(** The encoder leaves a file, or leaves none, according to [works]. *)
Definition env (works : bool) : environment :=
  {| FFMPEG := "/usr/bin/ffmpeg";
     dirname := "/app";
     ytdl := host;
     encoder := fun _ _ => if works then Some "audio" else None;
     UUIDv4 := fun n => "uuid-" +:+ NilEmpty.string_of_uint (Nat.to_uint n) |}.

Definition r1 : ResourceRecord :=
  {| record_id := "r1"; record_title := "Test/Clip";
     record_videoUrl := "https://host/abc";
     record_description := None; record_author := None;
     record_startTime := Some "10"; record_duration := Some "5" |}.

(** A record of another identity that derives the file name of
    [r1]. *)
Definition r2 : ResourceRecord :=
  {| record_id := "r1"; record_title := "Test:Clip";
     record_videoUrl := "https://host/abc";
     record_description := None; record_author := Some "someone";
     record_startTime := None; record_duration := None |}.

(** A record whose address the host does not know. *)
Definition gone : ResourceRecord :=
  {| record_id := "r3"; record_title := "Gone";
     record_videoUrl := "https://host/gone";
     record_description := None; record_author := None;
     record_startTime := None; record_duration := None |}.

(** Two records of different identities that derive one file name. *)
Definition c1 : ResourceRecord :=
  {| record_id := "7"; record_title := "a-b";
     record_videoUrl := "https://host/abc";
     record_description := None; record_author := Some "first";
     record_startTime := None; record_duration := None |}.

Definition c2 : ResourceRecord :=
  {| record_id := "7-a"; record_title := "b";
     record_videoUrl := "https://host/abc";
     record_description := None; record_author := Some "second";
     record_startTime := None; record_duration := None |}.

(** An index file left by an earlier run whose audio file is gone. *)
Definition stale_index : IResourceIndex :=
  {| v := 1;
     resources :=
       {[ "r1-TestClip.mp3" := makeMeta "old" r1 abc_meta "r1-TestClip.mp3" ]} |}.

Definition stale_files : gmap string node :=
  {[ "/app/.temp" := Dir;
     "/app/.temp/meta.json"
       := File (JSON.stringify (Codec.encode_index stale_index)) ]}.

Definition start (fs : gmap string node) (index : IResourceIndex) : state :=
  {| files := fs; videoMetaCache := ∅; metaFile := index;
     trace := []; generated := 0 |}.

End Scenario.

(** ** Vocabulary of the further properties *)

(** Every entry is stored under its own file name. *)
Definition keyed_by_filename (index : IResourceIndex) : Prop :=
  forall key m, resources index !! key = Some m -> meta_filename m = key.

(** The number of encoder runs and of provider calls in a trace. *)
Definition execs (t : list event) : nat := length (List.filter is_exec t).

Definition resolves (t : list event) : nat :=
  length (List.filter (fun ev => negb (is_exec ev)) t).

(** Letters, digits, the dash and the underscore. *)
Definition plain (c : ascii) : bool :=
  let n := Sanitize.code c in
  (((48 <=? n) && (n <=? 57)) || ((65 <=? n) && (n <=? 90))
   || ((97 <=? n) && (n <=? 122)) || (n =? 45) || (n =? 95))%nat.

Definition plain_string (s : string) : bool :=
  forallb plain (list_ascii_of_string s).

Definition is_dash (c : ascii) : bool := (Sanitize.code c =? 45)%nat.

Definition dash_free (s : string) : bool :=
  forallb (fun c => negb (is_dash c)) (list_ascii_of_string s).

(** ** More concrete inputs *)

Module Cases.

(** Two audio streams share the highest sample rate. *)
Definition tie_info : videoInfo :=
  {| formats :=
       [ {| hasAudio := true; audioSampleRate := JS.Num (JS.of_Z 44100);
            format_url := "https://stream/low" |};
         {| hasAudio := false; audioSampleRate := JS.Num (JS.of_Z 96000);
            format_url := "https://stream/video" |};
         {| hasAudio := true; audioSampleRate := JS.Num (JS.of_Z 48000);
            format_url := "https://stream/first" |};
         {| hasAudio := true; audioSampleRate := JS.Num (JS.of_Z 48000);
            format_url := "https://stream/second" |} ];
     videoDetails_of := Scenario.details |}.

Definition tie_host : provider :=
  {| getURLVideoID := fun url => Some url;
     getInfo := fun _ _ => Some tie_info;
     StringToNumber := fun _ => JS.NaN |}.

Definition tie_meta : IVideoMeta :=
  {| vm_id := "abc"; vm_url := "https://host/watch?v=abc";
     vm_title := "Clip"; vm_source_asr := JS.of_Z 48000;
     vm_source_url := "https://stream/first" |}.

(** One audio stream whose rate is the string [0]. *)
Definition zero_info : videoInfo :=
  {| formats := [ {| hasAudio := true; audioSampleRate := JS.Str "0";
                     format_url := "https://stream/zero.audio" |} ];
     videoDetails_of := Scenario.details |}.

Definition zero_host : provider :=
  {| getURLVideoID := fun url => Some url;
     getInfo := fun _ _ => Some zero_info;
     StringToNumber := StringToNumber Scenario.host |}.

Definition zero_meta : IVideoMeta :=
  {| vm_id := "abc"; vm_url := "https://host/watch?v=abc";
     vm_title := "Clip"; vm_source_asr := JS.zero;
     vm_source_url := "https://stream/zero.audio" |}.

(** A record whose id starts with a device name and a dot. *)
Definition device_record : ResourceRecord :=
  {| record_id := "nul.7"; record_title := "Intro";
     record_videoUrl := "https://host/abc";
     record_description := None; record_author := None;
     record_startTime := None; record_duration := None |}.

(** A record with the id of [Scenario.c1] and another title. *)
Definition plain_record : ResourceRecord :=
  {| record_id := "7"; record_title := "b_2";
     record_videoUrl := "https://host/xyz";
     record_description := None; record_author := None;
     record_startTime := None; record_duration := None |}.

End Cases.

(** * Properties *)

(** ** JSON texts are read back *)

Module JSONFacts.

Import JSON.

Lemma value_rect' (P : value -> Prop) :
  P Null -> (forall b, P (Bool b)) -> (forall z, P (Number z)) ->
  (forall s, P (Str s)) ->
  (forall l, Forall P l -> P (Array l)) ->
  (forall ms, Forall (fun m => P (snd m)) ms -> P (Object ms)) ->
  forall x, P x.
Proof.
  intros HN HB HZ HS HA HO.
  fix IH 1.
  intros [ | b | z | s | l | ms ].
  - exact HN.
  - apply HB.
  - apply HZ.
  - apply HS.
  - apply HA. induction l as [ | x l IHl ]; constructor; [ apply IH | exact IHl ].
  - apply HO. induction ms as [ | [key x] ms IHms ]; constructor;
      [ apply IH | exact IHms ].
Qed.

Lemma print_array x l k :
  print (Array (x :: l)) k = String "[" (print x (print_elements k l)).
Proof.
  cbn [print]. do 2 f_equal.
  induction l as [ | y l IHl ]; cbn [print_elements]; [ reflexivity | ].
  now rewrite IHl.
Qed.

Lemma print_object key x l k :
  print (Object ((key, x) :: l)) k
  = String "{" (quote key (String ":" (print x (print_members k l)))).
Proof.
  cbn [print]. do 4 f_equal.
  induction l as [ | [key' y] l IHl ]; cbn [print_members]; [ reflexivity | ].
  now rewrite IHl.
Qed.

(** *** Strings *)

Lemma parse_quote_char c r :
  parse_string (quote_char c +:+ r)
  = prepend (String c EmptyString) (parse_string r).
Proof.
  destruct c as [[] [] [] [] [] [] [] []]; reflexivity.
Qed.

Lemma prepend_char c s k :
  prepend (String c EmptyString) (Some (s, k)) = Some (String c s, k).
Proof. reflexivity. Qed.

Lemma parse_quote_body s k : parse_string (quote_body s k) = Some (s, k).
Proof.
  induction s as [ | c s IHs ]; [ reflexivity | ].
  cbn [quote_body]. now rewrite parse_quote_char, IHs.
Qed.

(** *** Numbers *)

Lemma delimited_no_digit k : delimited k -> no_digit k.
Proof. destruct k; simpl; [ trivial | tauto ]. Qed.

Lemma delimited_continues k : delimited k -> continues_number k = false.
Proof. destruct k; simpl; [ trivial | tauto ]. Qed.

Lemma digits_no_digit k : no_digit k -> digits k = (EmptyString, k).
Proof. destruct k as [ | c k ]; simpl; [ trivial | now intros -> ]. Qed.

Lemma digits_uint d k :
  no_digit k ->
  digits (NilEmpty.string_of_uint d +:+ k) = (NilEmpty.string_of_uint d, k).
Proof.
  intros Hk.
  induction d; cbn [NilEmpty.string_of_uint];
    [ now apply digits_no_digit | .. ];
    change (String ?c ?s +:+ k) with (String c (s +:+ k));
    cbn [digits]; rewrite IHd; reflexivity.
Qed.

Lemma to_uint_no_leading_zero p d : Pos.to_uint p <> Decimal.D0 d.
Proof.
  intros H.
  pose proof (DecimalPos.Unsigned.to_of (Pos.to_uint p)) as Hn.
  rewrite DecimalPos.Unsigned.of_to in Hn. cbn [N.to_uint] in Hn.
  unfold Decimal.unorm in Hn.
  destruct (Decimal.nzhead (Pos.to_uint p)) eqn:Hz;
    try (rewrite H in Hn; discriminate).
  - apply (DecimalPos.Unsigned.to_uint_nonzero p). exact Hn.
  - apply (DecimalFacts.nzhead_nonzero (Pos.to_uint p) u). congruence.
Qed.

Lemma parse_nat_pos p k :
  delimited k ->
  parse_nat (NilEmpty.string_of_uint (Pos.to_uint p) +:+ k) = Some (Zpos p, k).
Proof.
  intros Hk. unfold parse_nat.
  rewrite digits_uint by now apply delimited_no_digit.
  rewrite (delimited_continues k Hk), NilEmpty.usu.
  assert (Z.of_uint (Pos.to_uint p) = Zpos p) as ->.
  { unfold Z.of_uint. now rewrite DecimalPos.Unsigned.of_to. }
  pose proof (DecimalPos.Unsigned.to_uint_nonnil p) as Hnil.
  pose proof (to_uint_no_leading_zero p) as Hzero.
  destruct (Pos.to_uint p) as [ | d | d | d | d | d | d | d | d | d | d ];
    try reflexivity.
  - now contradict Hnil.
  - now destruct (Hzero d).
Qed.

Lemma parse_nat_zero k : delimited k -> parse_nat (String "0" k) = Some (0, k).
Proof.
  intros Hk. unfold parse_nat. cbn [digits].
  rewrite digits_no_digit by now apply delimited_no_digit.
  change (is_digit "0") with true. cbv beta iota zeta.
  now rewrite (delimited_continues k Hk).
Qed.

Lemma uint_first d :
  d <> Decimal.Nil ->
  exists c s, NilEmpty.string_of_uint d = String c s /\ is_digit c = true.
Proof. destruct d; [ congruence | .. ]; intros _; do 2 eexists; split; reflexivity. Qed.

Lemma parse_number_digit c s :
  is_digit c = true -> parse_number (String c s) = parse_nat (String c s).
Proof.
  destruct c as [[] [] [] [] [] [] [] []]; try discriminate; reflexivity.
Qed.

Lemma parse_print_Z z k :
  delimited k -> parse_number (print_Z z +:+ k) = Some (z, k).
Proof.
  intros Hk. destruct z as [ | p | p ]; cbn [print_Z].
  - change ("0" +:+ k) with (String "0" k).
    rewrite parse_number_digit by reflexivity. now apply parse_nat_zero.
  - destruct (uint_first (Pos.to_uint p)) as (c & s & Hs & Hc);
      [ apply DecimalPos.Unsigned.to_uint_nonnil | ].
    pose proof (parse_nat_pos p k Hk) as Hp. rewrite Hs in Hp |- *.
    change (String c s +:+ k) with (String c (s +:+ k)) in Hp |- *.
    now rewrite parse_number_digit.
  - change (String "-" ?s +:+ k) with (String "-" (s +:+ k)).
    cbn [parse_number]. simpl.
    now rewrite parse_nat_pos.
Qed.

(** *** Values *)

Lemma append_nil (k : string) : "" +:+ k = k.
Proof. reflexivity. Qed.

Lemma append_cons c (a k : string) : String c a +:+ k = String c (a +:+ k).
Proof. reflexivity. Qed.

Lemma length_append_ge (a k : string) :
  (String.length k <= String.length (a +:+ k))%nat.
Proof.
  induction a as [ | c a IHa ]; [ now rewrite append_nil | ].
  rewrite append_cons. cbn [String.length]. lia.
Qed.

Lemma length_quote_body_ge s k :
  (String.length k <= String.length (quote_body s k))%nat.
Proof.
  induction s as [ | c s IHs ]; cbn [quote_body]; [ simpl; lia | ].
  etransitivity; [ exact IHs | apply length_append_ge ].
Qed.

Lemma length_quote_ge s k :
  (String.length k <= String.length (quote s k))%nat.
Proof. unfold quote. pose proof (length_quote_body_ge s k). simpl. lia. Qed.

Lemma length_cons_ge c (s k : string) :
  (String.length k <= String.length s)%nat ->
  (String.length k <= String.length (String c s))%nat.
Proof. cbn [String.length]. lia. Qed.

Lemma length_print_ge x : forall k,
  (String.length k <= String.length (print x k))%nat.
Proof.
  induction x as [ | [] | z | s | l IHl | ms IHms ] using value_rect'; intros k.
  - apply length_append_ge.
  - apply length_append_ge.
  - apply length_append_ge.
  - apply length_append_ge.
  - apply length_quote_ge.
  - destruct l as [ | x l ]; [ apply length_append_ge | ].
    rewrite print_array. inversion_clear IHl as [ | ? ? Hx Hl ].
    apply length_cons_ge. etransitivity; [ | apply Hx ].
    induction Hl as [ | y l Hy Hl IH ]; apply length_cons_ge; [ lia | ].
    etransitivity; [ exact IH | apply Hy ].
  - destruct ms as [ | [key x] ms ]; [ apply length_append_ge | ].
    rewrite print_object. inversion_clear IHms as [ | ? ? Hx Hms ].
    apply length_cons_ge. etransitivity; [ | apply length_quote_ge ].
    apply length_cons_ge. etransitivity; [ | apply Hx ].
    induction Hms as [ | [key' y] ms Hy Hms IH ]; apply length_cons_ge; [ lia | ].
    etransitivity; [ | apply length_quote_ge ].
    apply length_cons_ge. etransitivity; [ exact IH | apply Hy ].
Qed.

Lemma delimited_comma k : delimited (String "," k).
Proof. split; reflexivity. Qed.

Lemma delimited_bracket k : delimited (String "]" k).
Proof. split; reflexivity. Qed.

Lemma delimited_brace k : delimited (String "}" k).
Proof. split; reflexivity. Qed.

Lemma delimited_elements k l : delimited (print_elements k l).
Proof. destruct l; [ apply delimited_bracket | apply delimited_comma ]. Qed.

Lemma delimited_members k l : delimited (print_members k l).
Proof. destruct l as [ | [] ]; [ apply delimited_brace | apply delimited_comma ]. Qed.

(** A text that starts with a digit or a minus sign is read as a
    number. *)
Lemma parse_value_number fuel c s :
  is_digit c = true \/ c = "-"%char ->
  parse_value (S fuel) (String c s)
  = match parse_number (String c s) with
    | Some (z, r) => Some (Number z, r)
    | None => None
    end.
Proof.
  intros [H | ->]; [ | reflexivity ].
  destruct c as [[] [] [] [] [] [] [] []]; try discriminate; reflexivity.
Qed.

Lemma print_Z_first z k :
  exists c s, print_Z z +:+ k = String c s
              /\ (is_digit c = true \/ c = "-"%char).
Proof.
  destruct z as [ | p | p ]; cbn [print_Z].
  - do 2 eexists. split; [ reflexivity | now left ].
  - destruct (uint_first (Pos.to_uint p)) as (c & s & -> & Hc);
      [ apply DecimalPos.Unsigned.to_uint_nonnil | ].
    do 2 eexists. split; [ reflexivity | now left ].
  - do 2 eexists. split; [ reflexivity | now right ].
Qed.

Lemma print_first x k :
  exists c s, print x k = String c s /\ value_start c = true.
Proof.
  destruct x as [ | [] | z | s | [ | x l ] | [ | [key x] ms ] ];
    try (do 2 eexists; split; reflexivity).
  destruct (print_Z_first z k) as (c & s & Hs & [Hc | ->]).
  - exists c, s. split; [ exact Hs | ]. unfold value_start. now rewrite Hc.
  - exists "-"%char, s. split; [ exact Hs | reflexivity ].
Qed.

Lemma fuel_cons c (s : string) fuel :
  (String.length (String c s) <= fuel)%nat ->
  exists f, fuel = S f /\ (String.length s <= f)%nat.
Proof.
  cbn [String.length]. destruct fuel as [ | f ]; [ lia | ].
  exists f. split; [ reflexivity | lia ].
Qed.

Lemma parse_value_string f r :
  parse_value (S f) (String dquote r)
  = match parse_string r with
    | Some (str, r') => Some (Str str, r')
    | None => None
    end.
Proof. reflexivity. Qed.

Lemma parse_value_array f c s :
  value_start c = true ->
  parse_value (S f) (String "[" (String c s))
  = match parse_value f (String c s) with
    | Some (x, r1) =>
        match parse_elements f r1 with
        | Some (l, r2) => Some (Array (x :: l), r2)
        | None => None
        end
    | None => None
    end.
Proof.
  destruct c as [[] [] [] [] [] [] [] []]; try discriminate; reflexivity.
Qed.

Lemma parse_elements_comma f c s :
  value_start c = true ->
  parse_elements (S f) (String "," (String c s))
  = match parse_value f (String c s) with
    | Some (x, r1) =>
        match parse_elements f r1 with
        | Some (l, r2) => Some (x :: l, r2)
        | None => None
        end
    | None => None
    end.
Proof. reflexivity. Qed.

Lemma parse_member_quote f key r :
  parse_member (S f) (quote key (String ":" r))
  = match parse_value f r with
    | Some (x, r') => Some ((key, x), r')
    | None => None
    end.
Proof.
  unfold quote.
  change (parse_member (S f) (String dquote ?t))
    with (match parse_string t with
          | Some (key, r1) =>
              match skip_ws r1 with
              | String ":" r2 =>
                  match parse_value f r2 with
                  | Some (x, r3) => Some ((key, x), r3)
                  | None => None
                  end
              | _ => None
              end
          | None => None
          end).
  rewrite parse_quote_body. reflexivity.
Qed.

Lemma elements_read_back l :
  Forall reads_back l ->
  forall fuel k k',
    (String.length (print_elements k' l) <= fuel)%nat ->
    parse_elements fuel (print_elements k l) = Some (l, k).
Proof.
  induction 1 as [ | y l Hy Hl IH ]; intros fuel k k' Hfuel.
  - apply fuel_cons in Hfuel as (f & -> & _). reflexivity.
  - cbn [print_elements] in Hfuel |- *.
    apply fuel_cons in Hfuel as (f & -> & Hf).
    destruct (print_first y (print_elements k l)) as (c & s & Hs & Hc).
    rewrite Hs, parse_elements_comma, <- Hs by exact Hc.
    rewrite (Hy f _ (print_elements k' l)) by
      (try apply delimited_elements; exact Hf).
    rewrite (IH f k k'); [ reflexivity | ].
    etransitivity; [ apply length_print_ge | exact Hf ].
Qed.

Lemma members_read_back ms :
  Forall (fun m => reads_back (snd m)) ms ->
  forall fuel k k',
    (String.length (print_members k' ms) <= fuel)%nat ->
    parse_members fuel (print_members k ms) = Some (ms, k).
Proof.
  induction 1 as [ | [key y] ms Hy Hms IH ]; intros fuel k k' Hfuel.
  - apply fuel_cons in Hfuel as (f & -> & _). reflexivity.
  - cbn [print_members] in Hfuel |- *. cbn [snd] in Hy.
    apply fuel_cons in Hfuel as (f & -> & Hf).
    change (parse_members (S f) (String "," ?t))
      with (match parse_member f t with
            | Some (m, r1) =>
                match parse_members f r1 with
                | Some (l, r2) => Some (m :: l, r2)
                | None => None
                end
            | None => None
            end).
    pose proof (length_quote_ge key
      (String ":" (print y (print_members k' ms)))) as Hq.
    cbn [String.length] in Hq.
    destruct f as [ | f ]; [ lia | ].
    rewrite parse_member_quote.
    rewrite (Hy f _ (print_members k' ms)) by
      (try apply delimited_members; lia).
    rewrite (IH (S f) k k'); [ reflexivity | ].
    pose proof (length_print_ge y (print_members k' ms)). lia.
Qed.

Lemma value_reads_back x : reads_back x.
Proof.
  induction x as [ | b | z | s | l IHl | ms IHms ] using value_rect';
    intros fuel k k' Hk Hfuel.
  - apply fuel_cons in Hfuel as (f & -> & _). reflexivity.
  - assert (exists f, fuel = S f) as [f ->]
      by (destruct b; apply fuel_cons in Hfuel as (f & -> & _); eauto).
    destruct b; reflexivity.
  - destruct (print_Z_first z k') as (c' & s' & Hs' & _).
    cbn [print] in Hfuel. rewrite Hs' in Hfuel.
    apply fuel_cons in Hfuel as (f & -> & _).
    destruct (print_Z_first z k) as (c & s0 & Hs & Hc).
    cbn [print]. rewrite Hs, parse_value_number, <- Hs by exact Hc.
    now rewrite parse_print_Z.
  - apply fuel_cons in Hfuel as (f & -> & _).
    cbn [print]. unfold quote.
    now rewrite parse_value_string, parse_quote_body.
  - destruct l as [ | x l ].
    + apply fuel_cons in Hfuel as (f & -> & _). reflexivity.
    + rewrite print_array in Hfuel |- *.
      apply fuel_cons in Hfuel as (f & -> & Hf).
      inversion_clear IHl as [ | ? ? Hx Hl ].
      destruct (print_first x (print_elements k l)) as (c & s & Hs & Hc).
      rewrite Hs, parse_value_array, <- Hs by exact Hc.
      rewrite (Hx f _ (print_elements k' l)) by
        (try apply delimited_elements; exact Hf).
      rewrite (elements_read_back l Hl f k k'); [ reflexivity | ].
      etransitivity; [ apply length_print_ge | exact Hf ].
  - destruct ms as [ | [key x] ms ].
    + apply fuel_cons in Hfuel as (f & -> & _). reflexivity.
    + rewrite print_object in Hfuel |- *.
      apply fuel_cons in Hfuel as (f & -> & Hf).
      inversion_clear IHms as [ | ? ? Hx Hms ]. cbn [snd] in Hx.
      change (parse_value (S f) (String "{" (quote key ?t)))
        with (match parse_member f (quote key t) with
              | Some (m, r1) =>
                  match parse_members f r1 with
                  | Some (l, r2) => Some (Object (m :: l), r2)
                  | None => None
                  end
              | None => None
              end).
      pose proof (length_quote_ge key
        (String ":" (print x (print_members k' ms)))) as Hq.
      cbn [String.length] in Hq.
      destruct f as [ | f ]; [ lia | ].
      rewrite parse_member_quote.
      rewrite (Hx f _ (print_members k' ms)) by
        (try apply delimited_members; lia).
      rewrite (members_read_back ms Hms (S f) k k'); [ reflexivity | ].
      pose proof (length_print_ge x (print_members k' ms)). lia.
Qed.

(** [JSON.parse(JSON.stringify(x))] is [x]. *)
Lemma parse_stringify x : parse (stringify x) = Some x.
Proof.
  unfold parse, stringify.
  rewrite (value_reads_back x _ EmptyString EmptyString); [ reflexivity | exact I | lia ].
Qed.

End JSONFacts.

(** ** The index is read back from its document *)

Module CodecFacts.

Import JSON Codec.

Lemma mapM_encode {A B} (f : B -> option A) (g : A -> B) (l : list A) :
  (forall x, f (g x) = Some x) -> mapM f (g <$> l) = Some l.
Proof.
  intros Hfg. induction l as [ | x l IHl ]; [ reflexivity | ].
  cbn. rewrite Hfg. cbn. rewrite IHl. reflexivity.
Qed.

Lemma list_to_map_reverse {A} (m : gmap string A) :
  list_to_map (reverse (map_to_list m)) = m.
Proof.
  rewrite <- (list_to_map_to_list m) at 2.
  apply list_to_map_proper.
  - rewrite fmap_reverse, reverse_Permutation. apply NoDup_fst_map_to_list.
  - apply reverse_Permutation.
Qed.

Lemma to_map_encode {A} (f : value -> option A) (g : A -> value)
    (m : gmap string A) :
  (forall x, f (g x) = Some x) ->
  to_map f (prod_map id g <$> map_to_list m) = Some m.
Proof.
  intros Hfg. unfold to_map.
  rewrite mapM_encode.
  - cbn. now rewrite list_to_map_reverse.
  - intros [key x]. cbn. now rewrite Hfg.
Qed.

Lemma decode_encode_strings m : as_string_map (encode_strings m) = Some m.
Proof. unfold as_string_map. cbn. now apply to_map_encode. Qed.

Lemma decode_encode_tags l : as_strings (Array (Str <$> l)) = Some l.
Proof. cbn. now apply mapM_encode. Qed.

Lemma decode_encode_contributor c :
  decode_contributor (encode_contributor c) = Some c.
Proof. destruct c as [[name | ] [link | ]]; reflexivity. Qed.

Lemma decode_encode_source s : decode_source (encode_source s) = Some s.
Proof. destruct s as [url title [ | z | startTime ]]; reflexivity. Qed.

Lemma decode_encode_filemeta f :
  decode_filemeta (encode_filemeta f) = Some f.
Proof. destruct f as [[md5 | ] [size | ] [duration | ]]; reflexivity. Qed.

Lemma decode_encode_meta m : decode_meta (encode_meta m) = Some m.
Proof.
  destruct m as [id refId title filename description contributor catalog
                   tags source language filemeta].
  unfold encode_meta.
  cbn [meta_id meta_refId meta_title meta_filename meta_description
       meta_contributor meta_catalog meta_tags meta_source meta_language
       meta_filemeta].
  pose proof (decode_encode_source source) as Hsource.
  set (xsource := encode_source source) in *. clearbody xsource.
  assert (forall c, decode_contributor (encode_contributor c) = Some c)
    as Hcontributor by apply decode_encode_contributor.
  assert (forall f, decode_filemeta (encode_filemeta f) = Some f)
    as Hfilemeta by apply decode_encode_filemeta.
  assert (forall l, as_strings ((Array ∘ fmap Str) l) = Some l)
    as Htags by apply decode_encode_tags.
  assert (forall m, as_string_map (encode_strings m) = Some m)
    as Hlanguage by apply decode_encode_strings.
  destruct description, contributor, catalog, tags, language, filemeta;
    unfold decode_meta, required, opt;
    cbn -[decode_source decode_contributor decode_filemeta as_strings
          encode_contributor encode_filemeta encode_strings as_string_map
          compose];
    rewrite ?Hsource, ?Hcontributor, ?Hfilemeta, ?Htags, ?Hlanguage;
    reflexivity.
Qed.

Lemma decode_encode_index i : decode_index (encode_index i) = Some i.
Proof.
  destruct i as [version entries]. unfold decode_index, encode_index.
  cbn [v resources as_object mbind option_bind].
  pose proof (to_map_encode decode_meta encode_meta entries
                decode_encode_meta) as Hentries.
  set (members := prod_map id encode_meta <$> map_to_list entries) in *.
  clearbody members.
  cbn -[to_map]. rewrite Hentries. reflexivity.
Qed.

End CodecFacts.

(** ** Numbers and raw values *)

Module JSFacts.

Lemma gt_nan_r a : JS.gt a JS.NaN = false.
Proof. now destruct a. Qed.

Lemma gt_not_nan a b : JS.gt a b = true -> JS.is_nan a = false /\ JS.is_nan b = false.
Proof. destruct a, b; cbn; try discriminate; auto. Qed.

Lemma gt_irrefl a : JS.gt a a = false.
Proof.
  destruct a as [ | [] | q ]; cbn; try reflexivity. apply Z.ltb_irrefl.
Qed.

Lemma gt_trans a b c :
  JS.gt a b = true -> JS.gt b c = true -> JS.gt a c = true.
Proof.
  destruct a as [ | [] | x ], b as [ | [] | y ], c as [ | [] | z ]; cbn;
    try discriminate; try reflexivity.
  rewrite !Z.ltb_lt. intros H1 H2. exact (Qlt_trans z y x H2 H1).
Qed.

Lemma gt_asym a b : JS.gt a b = true -> JS.gt b a = false.
Proof.
  intros H. destruct (JS.gt b a) eqn:Hba; [ | reflexivity ].
  pose proof (gt_trans a b a H Hba) as Haa. now rewrite gt_irrefl in Haa.
Qed.

(** [a > b] and not [c > b], for a number [c], give [a > c]. *)
Lemma gt_le_trans a b c :
  JS.gt a b = true -> JS.gt c b = false -> JS.is_nan c = false ->
  JS.gt a c = true.
Proof.
  destruct a as [ | [] | x ], b as [ | [] | y ], c as [ | [] | z ]; cbn;
    try discriminate; try reflexivity.
  rewrite Z.ltb_lt, Z.ltb_ge, Z.ltb_lt. intros H1 H2 _.
  exact (Qle_lt_trans z y x H2 H1).
Qed.

(** A number that is zero compares as [0] does. *)
Lemma gt_zero_l q b :
  Qnum q = 0 -> JS.gt (JS.Finite q) b = JS.gt JS.zero b.
Proof.
  intros Hq. destruct b as [ | sb | y ]; cbn; try reflexivity.
  rewrite Hq, !Z.mul_0_l.
  destruct (Z.ltb_spec (Qnum y * QDen q) 0) as [H | H],
           (Z.ltb_spec (Qnum y * 1) 0) as [H' | H']; try reflexivity; nia.
Qed.

Lemma truthy_finite q : JS.truthy (JS.Num (JS.Finite q)) = negb (Qnum q =? 0).
Proof. reflexivity. Qed.

Lemma gt_zero_truthy n :
  JS.gt n JS.zero = true -> JS.truthy (JS.Num n) = true.
Proof.
  destruct n as [ | s | q ]; cbn; try discriminate; try reflexivity.
  rewrite Z.mul_0_l, Z.ltb_lt, negb_true_iff, Z.eqb_neq. nia.
Qed.

End JSFacts.

(** ** Stream resolution *)

Section Selection.

Context {A : Type} (key : A -> JS.number).

Lemma extremum_keep (l : list A) c x :
  (forall y, y ∈ l -> JS.gt (key y) c = false) ->
  fold_left (Lodash.extremum_step key) l (Some (c, x)) = Some (c, x).
Proof.
  induction l as [ | a l IHl ]; intros H; cbn [fold_left]; [ reflexivity | ].
  assert (Lodash.extremum_step key (Some (c, x)) a = Some (c, x)) as ->.
  { unfold Lodash.extremum_step. now rewrite (H a) by apply list_elem_of_here. }
  apply IHl. intros y Hy. apply H. now apply list_elem_of_further.
Qed.

(** The result of the fold is the accumulator it started with, or the
    first element of the list whose key is above the accumulator's and
    above or equal to every other key that is a number. *)
Lemma extremum_first (l : list A) : forall acc c x,
  Lodash.well_keyed key acc ->
  fold_left (Lodash.extremum_step key) l acc = Some (c, x) ->
  (acc = Some (c, x) /\ forall y, y ∈ l -> JS.gt (key y) c = false)
  \/ exists pre post,
       l = pre ++ x :: post /\ c = key x /\ JS.is_nan c = false
       /\ (forall y, y ∈ pre ->
             JS.is_nan (key y) = true \/ JS.gt c (key y) = true)
       /\ (forall c0 x0, acc = Some (c0, x0) -> JS.gt c c0 = true)
       /\ (forall y, y ∈ post -> JS.gt (key y) c = false).
Proof.
  induction l as [ | a l IHl ]; intros acc c x Hacc H; cbn [fold_left] in H.
  - left. split; [ exact H | ]. intros y Hy. inversion Hy.
  - assert (Lodash.well_keyed key (Lodash.extremum_step key acc a)) as Hstep.
    { intros c1 x1. unfold Lodash.extremum_step.
      destruct acc as [[c0 x0] | ].
      - destruct (JS.gt (key a) c0) eqn:Hgt.
        + intros [= <- <-]. split; [ reflexivity | ].
          now apply JSFacts.gt_not_nan in Hgt.
        + apply Hacc.
      - destruct (JS.is_nan (key a)) eqn:Hnan; [ discriminate | ].
        intros [= <- <-]. now split. }
    apply (IHl _ _ _ Hstep) in H
      as [[Hfirst Hle] | (pre & post & -> & -> & Hnan & Hpre & Hgt & Hpost)].
    + unfold Lodash.extremum_step in Hfirst.
      destruct acc as [[c0 x0] | ].
      * destruct (JS.gt (key a) c0) eqn:Hcmp.
        -- injection Hfirst as <- <-. right. exists [], l.
           repeat split; auto.
           ++ now apply JSFacts.gt_not_nan in Hcmp.
           ++ intros y Hy. inversion Hy.
           ++ now intros ? ? [= <- <-].
        -- left. split; [ exact Hfirst | ].
           injection Hfirst as -> ->.
           intros y Hy. apply elem_of_cons in Hy as [-> | Hy]; auto.
      * destruct (JS.is_nan (key a)) eqn:Hna; [ discriminate | ].
        injection Hfirst as <- <-. right. exists [], l.
        repeat split; auto.
        -- intros y Hy. inversion Hy.
        -- intros ? ? [=].
    + right. exists (a :: pre), post.
      split; [ reflexivity | ]. split; [ reflexivity | ].
      split; [ exact Hnan | ].
      assert ((JS.is_nan (key a) = true \/ JS.gt (key x) (key a) = true)
              /\ forall c0 x0, acc = Some (c0, x0) -> JS.gt (key x) c0 = true)
        as [Ha Hacc0].
      { unfold Lodash.extremum_step in Hgt.
        destruct acc as [[c0 x0] | ].
        - destruct (JS.gt (key a) c0) eqn:Hcmp.
          + specialize (Hgt _ _ eq_refl). split; [ now right | ].
            intros ? ? [= <- <-]. exact (JSFacts.gt_trans _ _ _ Hgt Hcmp).
          + specialize (Hgt _ _ eq_refl). split.
            * destruct (JS.is_nan (key a)) eqn:Hna; [ now left | right ].
              exact (JSFacts.gt_le_trans _ _ _ Hgt Hcmp Hna).
            * now intros ? ? [= <- <-].
        - split; [ | intros ? ? [=] ].
          destruct (JS.is_nan (key a)) eqn:Hna; [ now left | right ].
          now apply (Hgt (key a) a). }
      split; [ | split; [ exact Hacc0 | exact Hpost ] ].
      intros y Hy. apply elem_of_cons in Hy as [-> | Hy]; auto.
Qed.

Lemma extremum_none (l : list A) : forall acc,
  fold_left (Lodash.extremum_step key) l acc = None <->
  acc = None /\ forall y, y ∈ l -> JS.is_nan (key y) = true.
Proof.
  induction l as [ | a l IHl ]; intros acc; cbn [fold_left].
  - split; [ intros ->; split; [ reflexivity | intros y Hy; inversion Hy ]
           | now intros [-> _] ].
  - rewrite IHl. unfold Lodash.extremum_step. split.
    + intros [Hstep Hall]. destruct acc as [[c0 x0] | ].
      * destruct (JS.gt (key a) c0); discriminate.
      * destruct (JS.is_nan (key a)) eqn:Hna; [ | discriminate ].
        split; [ reflexivity | ].
        intros y Hy. apply elem_of_cons in Hy as [-> | Hy]; auto.
    + intros [-> Hall]. rewrite (Hall a) by apply list_elem_of_here.
      split; [ reflexivity | ].
      intros y Hy. apply Hall. now apply list_elem_of_further.
Qed.

Lemma well_keyed_None : Lodash.well_keyed key None.
Proof. intros c x [=]. Qed.

(** [maxBy] returns the first of the elements with the greatest key. *)
Lemma maxBy_first (l : list A) x :
  Lodash.maxBy l key = Some x <->
  exists pre post,
    l = pre ++ x :: post /\ JS.is_nan (key x) = false
    /\ (forall y, y ∈ pre ->
          JS.is_nan (key y) = true \/ JS.gt (key x) (key y) = true)
    /\ (forall y, y ∈ post -> JS.gt (key y) (key x) = false).
Proof.
  unfold Lodash.maxBy, Lodash.baseExtremum. split.
  - destruct (fold_left _ l None) as [[c x'] | ] eqn:H; [ | discriminate ].
    intros [= <-].
    apply (extremum_first _ _ _ _ well_keyed_None) in H
      as [[H _] | (pre & post & -> & -> & Hnan & Hpre & _ & Hpost)];
      [ discriminate | ].
    exists pre, post. auto.
  - intros (pre & post & -> & Hnan & Hpre & Hpost).
    rewrite fold_left_app. cbn [fold_left].
    assert (Lodash.extremum_step key
              (fold_left (Lodash.extremum_step key) pre None) x
            = Some (key x, x)) as ->.
    { destruct (fold_left _ pre None) as [[c0 x0] | ] eqn:Hfold;
        unfold Lodash.extremum_step.
      - apply (extremum_first _ _ _ _ well_keyed_None) in Hfold
          as [[Hfold _] | (a & b & -> & -> & Hnan0 & _)]; [ discriminate | ].
        destruct (Hpre x0) as [Hx0 | ->]; [ | congruence | reflexivity ].
        rewrite elem_of_app, elem_of_cons. auto.
      - now rewrite Hnan. }
    now rewrite (extremum_keep post _ _ Hpost).
Qed.

Lemma maxBy_None (l : list A) :
  Lodash.maxBy l key = None <-> forall y, y ∈ l -> JS.is_nan (key y) = true.
Proof.
  unfold Lodash.maxBy, Lodash.baseExtremum.
  pose proof (extremum_none l None) as H.
  destruct (fold_left _ l None) as [[c x] | ]; cbn.
  - split; [ discriminate | ]. intros Hall.
    discriminate (proj2 H (conj eq_refl Hall)).
  - split; [ intros _; now apply H | reflexivity ].
Qed.

Lemma maxBy_Some (l : list A) x :
  Lodash.maxBy l key = Some x ->
  x ∈ l /\ JS.is_nan (key x) = false
  /\ forall y, y ∈ l -> JS.gt (key y) (key x) = false.
Proof.
  intros H. apply maxBy_first in H as (pre & post & -> & Hnan & Hpre & Hpost).
  split; [ rewrite elem_of_app, elem_of_cons; auto | ].
  split; [ exact Hnan | ].
  intros y Hy. rewrite elem_of_app, elem_of_cons in Hy.
  destruct Hy as [Hy | [-> | Hy]].
  - destruct (Hpre y Hy) as [Hy' | Hy'].
    + destruct (key y); try discriminate. reflexivity.
    + now apply JSFacts.gt_asym.
  - apply JSFacts.gt_irrefl.
  - now apply Hpost.
Qed.

End Selection.

Lemma filter_split {A} (f : A -> bool) (l : list A) : forall a x b,
  List.filter f l = a ++ x :: b ->
  exists l1 l2,
    l = l1 ++ x :: l2 /\ List.filter f l1 = a /\ List.filter f l2 = b.
Proof.
  induction l as [ | y l IHl ]; intros a x b H; cbn [List.filter] in H.
  - destruct a; discriminate.
  - destruct (f y) eqn:Hy.
    + destruct a as [ | z a ]; cbn in H; injection H as -> H.
      * exists [], l. cbn. auto.
      * apply IHl in H as (l1 & l2 & -> & <- & <-).
        exists (z :: l1), l2. cbn. now rewrite Hy.
    + apply IHl in H as (l1 & l2 & -> & <- & <-).
      exists (y :: l1), l2. cbn. now rewrite Hy.
Qed.

Lemma elem_of_filter_audio (l : list videoFormat) g :
  g ∈ List.filter hasAudio l <-> g ∈ l /\ hasAudio g = true.
Proof. rewrite !list_elem_of_In. apply filter_In. Qed.

Lemma sampleRate_truthy p i :
  JS.truthy (audioSampleRate i) = true ->
  sampleRate p i = JS.ToNumber (StringToNumber p) (audioSampleRate i).
Proof. intros H. unfold sampleRate, JS.or. now rewrite H. Qed.

Lemma sampleRate_falsy p i :
  JS.truthy (audioSampleRate i) = false -> sampleRate p i = JS.zero.
Proof. intros H. unfold sampleRate, JS.or. now rewrite H. Qed.

(** For a stream whose rate is a number the key is that number, or [0]
    where the number is [0] or [NaN]. *)
Lemma sampleRate_number p g r b :
  audioSampleRate g = JS.Num r ->
  JS.gt (sampleRate p g) b = false -> JS.gt r b = false.
Proof.
  intros Hr. destruct (JS.truthy (audioSampleRate g)) eqn:Ht.
  - now rewrite (sampleRate_truthy p g Ht), Hr.
  - rewrite (sampleRate_falsy p g Ht). rewrite Hr in Ht.
    destruct r as [ | s | q ]; [ reflexivity | discriminate | ].
    rewrite JSFacts.truthy_finite, negb_false_iff, Z.eqb_eq in Ht.
    now rewrite (JSFacts.gt_zero_l q b Ht).
Qed.

Lemma sampleRate_positive p g r :
  audioSampleRate g = JS.Num r -> JS.gt r JS.zero = true ->
  sampleRate p g = r.
Proof.
  intros Hr Hpos. rewrite sampleRate_truthy; rewrite Hr; [ reflexivity | ].
  now apply JSFacts.gt_zero_truthy.
Qed.

(** The selected stream is the first of the audio-carrying streams whose
    key is the greatest. *)
Lemma bestFormat_first p info best :
  bestFormat p info = Some best <->
  exists pre post,
    formats info = pre ++ best :: post
    /\ hasAudio best = true
    /\ JS.is_nan (sampleRate p best) = false
    /\ (forall g, g ∈ pre -> hasAudio g = true ->
          JS.is_nan (sampleRate p g) = true
          \/ JS.gt (sampleRate p best) (sampleRate p g) = true)
    /\ (forall g, g ∈ post -> hasAudio g = true ->
          JS.gt (sampleRate p g) (sampleRate p best) = false).
Proof.
  unfold bestFormat. rewrite maxBy_first. split.
  - intros (a & b & Hsplit & Hnan & Hpre & Hpost).
    assert (hasAudio best = true) as Haudio.
    { apply (elem_of_filter_audio (formats info) best).
      rewrite Hsplit, elem_of_app, elem_of_cons. auto. }
    apply filter_split in Hsplit as (pre & post & Hformats & <- & <-).
    exists pre, post. repeat split; try assumption.
    + intros g Hg Hga. apply Hpre. now apply elem_of_filter_audio.
    + intros g Hg Hga. apply Hpost. now apply elem_of_filter_audio.
  - intros (pre & post & -> & Haudio & Hnan & Hpre & Hpost).
    exists (List.filter hasAudio pre), (List.filter hasAudio post).
    rewrite List.filter_app. cbn [List.filter]. rewrite Haudio.
    repeat split; try assumption.
    + intros g Hg. apply elem_of_filter_audio in Hg as [Hg Hga]. auto.
    + intros g Hg. apply elem_of_filter_audio in Hg as [Hg Hga]. auto.
Qed.

Lemma bestFormat_Some p info best :
  bestFormat p info = Some best ->
  best ∈ formats info /\ hasAudio best = true
  /\ JS.is_nan (sampleRate p best) = false
  /\ forall g, g ∈ formats info -> hasAudio g = true ->
       JS.gt (sampleRate p g) (sampleRate p best) = false.
Proof.
  unfold bestFormat. intros H. apply maxBy_Some in H as (Hin & Hnan & Hmax).
  apply elem_of_filter_audio in Hin as [Hin Haudio].
  repeat split; try assumption.
  intros g Hg Hga. apply Hmax. now apply elem_of_filter_audio.
Qed.

Lemma bestFormat_None p info :
  bestFormat p info = None <->
  forall f, f ∈ formats info -> hasAudio f = true ->
    JS.is_nan (sampleRate p f) = true.
Proof.
  unfold bestFormat. rewrite maxBy_None. split.
  - intros H f Hf Hfa. apply H. now apply elem_of_filter_audio.
  - intros H f Hf. apply elem_of_filter_audio in Hf as [Hf Hfa]. auto.
Qed.

Lemma selectFormat_Some p info vm :
  selectFormat p info = Some vm ->
  exists best,
    bestFormat p info = Some best
    /\ JS.truthy (audioSampleRate best) = true
    /\ JS.ToNumber (StringToNumber p) (audioSampleRate best) = vm_source_asr vm
    /\ sampleRate p best = vm_source_asr vm
    /\ vm_source_url vm = format_url best
    /\ vm_url vm = video_url (videoDetails_of info).
Proof.
  unfold selectFormat. destruct (bestFormat p info) as [best | ] eqn:Hbest;
    [ | discriminate ].
  destruct (JS.truthy (audioSampleRate best)) eqn:Ht; [ | discriminate ].
  intros [= <-]. exists best. cbn.
  repeat split; try assumption. now apply sampleRate_truthy.
Qed.

Lemma selectFormat_None p info :
  selectFormat p info = None <->
  bestFormat p info = None
  \/ exists best,
       bestFormat p info = Some best
       /\ JS.truthy (audioSampleRate best) = false.
Proof.
  unfold selectFormat. destruct (bestFormat p info) as [best | ].
  - destruct (JS.truthy (audioSampleRate best)) eqn:Ht; split.
    + discriminate.
    + intros [H | (b & [= <-] & H)]; congruence.
    + intros _. right. now exists best.
    + reflexivity.
  - split; [ now left | reflexivity ].
Qed.

Lemma getVideoMeta_Some p now url vm :
  getVideoMeta p now url = Some vm <->
  is_Some (getURLVideoID p url)
  /\ exists info, getInfo p now url = Some info /\ selectFormat p info = Some vm.
Proof.
  unfold getVideoMeta. split.
  - destruct (getURLVideoID p url); [ | discriminate ].
    destruct (getInfo p now url) as [info | ]; [ | discriminate ]. eauto.
  - intros [[id ->] (info & -> & Hsel)]. exact Hsel.
Qed.

(** C1.  Whenever stream resolution returns a stream, that stream is one of
    the audio-carrying streams of the provider's answer, it reports a
    sample rate, whose numeric value is the rate returned, and no
    audio-carrying stream has a higher sample rate (a missing rate
    counting as 0, as in line 108; for a rate that is a number this is the
    number itself); resolution does return a stream as soon as some
    audio-carrying stream reports a positive sample rate; and on the three
    streams 44100 Hz (audio), 48000 Hz (audio) and 96000 Hz (no audio) it
    returns the 48000 Hz stream. *)
Theorem highest_audio_sample_rate_selected :
  (forall p now url vm,
     getVideoMeta p now url = Some vm ->
     exists info best,
       getInfo p now url = Some info
       /\ best ∈ formats info /\ hasAudio best = true
       /\ JS.truthy (audioSampleRate best) = true
       /\ JS.ToNumber (StringToNumber p) (audioSampleRate best)
          = vm_source_asr vm
       /\ JS.is_nan (vm_source_asr vm) = false
       /\ vm_source_url vm = format_url best
       /\ (forall g, g ∈ formats info -> hasAudio g = true ->
             JS.gt (sampleRate p g) (vm_source_asr vm) = false)
       /\ (forall g r, g ∈ formats info -> hasAudio g = true ->
             audioSampleRate g = JS.Num r ->
             JS.gt r (vm_source_asr vm) = false))
  /\ (forall p now url info g,
        is_Some (getURLVideoID p url) ->
        getInfo p now url = Some info ->
        g ∈ formats info -> hasAudio g = true ->
        (JS.gt (sampleRate p g) JS.zero = true
         \/ exists r, audioSampleRate g = JS.Num r
                      /\ JS.gt r JS.zero = true) ->
        is_Some (getVideoMeta p now url))
  /\ (forall p now url d u1 u2 u3,
        is_Some (getURLVideoID p url) ->
        getInfo p now url
        = Some {| formats :=
                    [ {| hasAudio := true;
                         audioSampleRate := JS.Num (JS.of_Z 44100);
                         format_url := u1 |};
                      {| hasAudio := true;
                         audioSampleRate := JS.Num (JS.of_Z 48000);
                         format_url := u2 |};
                      {| hasAudio := false;
                         audioSampleRate := JS.Num (JS.of_Z 96000);
                         format_url := u3 |} ];
                  videoDetails_of := d |} ->
        exists vm, getVideoMeta p now url = Some vm
                   /\ vm_source_asr vm = JS.of_Z 48000
                   /\ vm_source_url vm = u2).
Proof.
  split; [ | split ].
  - intros p now url vm H.
    apply getVideoMeta_Some in H as (_ & info & Hinfo & Hsel).
    apply selectFormat_Some in Hsel
      as (best & Hbest & Htruthy & Hasr & Hkey & Hurl & _).
    apply bestFormat_Some in Hbest as (Hin & Haudio & Hnan & Hmax).
    rewrite Hkey in Hnan, Hmax.
    exists info, best. repeat split; try assumption.
    intros g r Hg Hga Hr.
    exact (sampleRate_number p g r _ Hr (Hmax g Hg Hga)).
  - intros p now url info g [id Hid] Hinfo Hg Hga Hpos.
    assert (JS.gt (sampleRate p g) JS.zero = true) as Hkey.
    { destruct Hpos as [Hpos | (r & Hr & Hpos)]; [ exact Hpos | ].
      now rewrite (sampleRate_positive p g r Hr Hpos). }
    destruct (getVideoMeta p now url) as [vm | ] eqn:Hnone; [ eauto | ].
    exfalso. unfold getVideoMeta in Hnone. rewrite Hid, Hinfo in Hnone.
    apply selectFormat_None in Hnone as [Hnone | (best & Hbest & Hfalsy)].
    + rewrite bestFormat_None in Hnone. specialize (Hnone g Hg Hga).
      apply JSFacts.gt_not_nan in Hkey as [Hkey _]. congruence.
    + apply bestFormat_Some in Hbest as (_ & _ & _ & Hmax).
      specialize (Hmax g Hg Hga).
      rewrite (sampleRate_falsy p best Hfalsy) in Hmax. congruence.
  - intros p now url d u1 u2 u3 [id Hid] Hinfo.
    unfold getVideoMeta. rewrite Hid, Hinfo.
    eexists. split; [ reflexivity | split; reflexivity ].
Qed.

(** The three streams, as the host of the scenario returns them. *)
Lemma highest_audio_sample_rate_selected_witness :
  exists vm, getVideoMeta Scenario.host 0 "https://host/three" = Some vm
             /\ vm_source_asr vm = JS.of_Z 48000
             /\ vm_source_url vm = "https://stream/high".
Proof.
  apply (proj2 (proj2 highest_audio_sample_rate_selected)
           Scenario.host 0%nat "https://host/three" Scenario.details
           "https://stream/low" "https://stream/high" "https://stream/video").
  - eexists. reflexivity.
  - reflexivity.
Defined.

(** ** One record *)

Section Step.

Context (e : environment) (tempDir : string).

Implicit Types (st : state) (r : ResourceRecord).

Lemma processRecord_unresolved st r :
  resolution e st r = None ->
  processRecord e tempDir st r
  = log_event (Resolve (record_videoUrl r) None) st
  /\ videoMetaCache st !! record_videoUrl r = None
  /\ getVideoMeta (ytdl e) (length (trace st)) (record_videoUrl r) = None.
Proof.
  unfold resolution, processRecord, lookupVideoMeta.
  destruct (videoMetaCache st !! record_videoUrl r) as [vm | ]; cbn [fst];
    [ discriminate | ].
  intros ->. auto.
Qed.

Lemma processRecord_resolved st r vm :
  resolution e st r = Some vm ->
  processRecord e tempDir st r
  = if existsSync (files (resolved_state e st r vm)) (savePath_of tempDir r)
    then resolved_state e st r vm
    else encodeAndIndex e r vm (deriveFilename r) (savePath_of tempDir r)
           (resolved_state e st r vm).
Proof.
  unfold resolution, resolved_state, processRecord, savePath_of.
  destruct (lookupVideoMeta e (record_videoUrl r) st) as [res st1]; cbn [fst snd].
  now intros ->.
Qed.

Lemma resolved_state_cases st r vm :
  resolution e st r = Some vm ->
  (videoMetaCache st !! record_videoUrl r = Some vm
   /\ resolved_state e st r vm = st)
  \/ (videoMetaCache st !! record_videoUrl r = None
      /\ getVideoMeta (ytdl e) (length (trace st)) (record_videoUrl r) = Some vm
      /\ resolved_state e st r vm
         = set_cache (<[record_videoUrl r := vm]> (videoMetaCache st))
             (log_event (Resolve (record_videoUrl r) (Some vm)) st)).
Proof.
  unfold resolution, resolved_state, lookupVideoMeta, remember.
  destruct (videoMetaCache st !! record_videoUrl r) as [vm' | ] eqn:Hc;
    cbn [fst snd].
  - intros [= ->]. left. now rewrite Hc.
  - intros Hres. right. cbn [log_event videoMetaCache]. now rewrite Hc, Hres.
Qed.

Lemma resolved_state_files st r vm :
  resolution e st r = Some vm -> files (resolved_state e st r vm) = files st.
Proof. intros H. destruct (resolved_state_cases st r vm H) as [[_ ->] | (_ & _ & ->)]; reflexivity. Qed.

Lemma resolved_state_metaFile st r vm :
  resolution e st r = Some vm -> metaFile (resolved_state e st r vm) = metaFile st.
Proof. intros H. destruct (resolved_state_cases st r vm H) as [[_ ->] | (_ & _ & ->)]; reflexivity. Qed.

Lemma resolved_state_generated st r vm :
  resolution e st r = Some vm -> generated (resolved_state e st r vm) = generated st.
Proof. intros H. destruct (resolved_state_cases st r vm H) as [[_ ->] | (_ & _ & ->)]; reflexivity. Qed.

Lemma resolved_state_trace st r vm :
  resolution e st r = Some vm ->
  trace (resolved_state e st r vm)
  = match videoMetaCache st !! record_videoUrl r with
    | Some _ => trace st
    | None => trace st ++ [Resolve (record_videoUrl r) (Some vm)]
    end.
Proof.
  intros H. destruct (resolved_state_cases st r vm H) as [[Hc ->] | (Hc & _ & ->)];
    now rewrite Hc.
Qed.

(** The record is skipped because its file exists. *)
Lemma processRecord_present st r vm :
  resolution e st r = Some vm ->
  existsSync (files st) (savePath_of tempDir r) = true ->
  processRecord e tempDir st r = resolved_state e st r vm.
Proof.
  intros Hres Hfile. rewrite (processRecord_resolved st r vm Hres).
  now rewrite (resolved_state_files st r vm Hres), Hfile.
Qed.

(** The record reaches the encode step. *)
Lemma processRecord_encode st r vm :
  resolution e st r = Some vm ->
  existsSync (files st) (savePath_of tempDir r) = false ->
  processRecord e tempDir st r
  = encodeAndIndex e r vm (deriveFilename r) (savePath_of tempDir r)
      (resolved_state e st r vm).
Proof.
  intros Hres Hfile. rewrite (processRecord_resolved st r vm Hres).
  now rewrite (resolved_state_files st r vm Hres), Hfile.
Qed.

Lemma encodeAndIndex_metaFile r vm filename savePath st :
  metaFile (encodeAndIndex e r vm filename savePath st)
  = {| v := v (metaFile st);
       resources := <[filename := makeMeta (UUIDv4 e (generated st)) r vm filename]>
                      (resources (metaFile st)) |}.
Proof. reflexivity. Qed.

Lemma encodeAndIndex_generated r vm filename savePath st :
  generated (encodeAndIndex e r vm filename savePath st) = S (generated st).
Proof. reflexivity. Qed.

Lemma encodeAndIndex_trace r vm filename savePath st :
  trace (encodeAndIndex e r vm filename savePath st)
  = trace st
    ++ [Exec (encode_argv e {| opt_url := vm_source_url vm;
                               opt_output := savePath;
                               opt_startTime := record_startTime r;
                               opt_duration := record_duration r |})].
Proof. reflexivity. Qed.

Lemma encodeAndIndex_files r vm filename savePath st :
  files (encodeAndIndex e r vm filename savePath st)
  = match encoder e (length (trace st))
            (encode_argv e {| opt_url := vm_source_url vm;
                              opt_output := savePath;
                              opt_startTime := record_startTime r;
                              opt_duration := record_duration r |}) with
    | Some content => <[savePath := File content]> (files st)
    | None => files st
    end.
Proof. reflexivity. Qed.

End Step.

Lemma processRecord_outcomes e tempDir st r :
  (resolution e st r = None
   /\ processRecord e tempDir st r
      = log_event (Resolve (record_videoUrl r) None) st)
  \/ (exists vm, resolution e st r = Some vm
        /\ existsSync (files st) (savePath_of tempDir r) = true
        /\ processRecord e tempDir st r = resolved_state e st r vm)
  \/ (exists vm, resolution e st r = Some vm
        /\ existsSync (files st) (savePath_of tempDir r) = false
        /\ processRecord e tempDir st r
           = encodeAndIndex e r vm (deriveFilename r) (savePath_of tempDir r)
               (resolved_state e st r vm)).
Proof.
  destruct (resolution e st r) as [vm | ] eqn:Hres.
  - destruct (existsSync (files st) (savePath_of tempDir r)) eqn:Hfile.
    + right. left. exists vm. auto using processRecord_present.
    + right. right. exists vm. auto using processRecord_encode.
  - left. split; [ reflexivity | ]. now apply processRecord_unresolved.
Qed.

Lemma resolution_with_encoder enc e st r :
  resolution (with_encoder enc e) st r = resolution e st r.
Proof. reflexivity. Qed.

Lemma resolved_state_with_encoder enc e st r vm :
  resolved_state (with_encoder enc e) st r vm = resolved_state e st r vm.
Proof. reflexivity. Qed.

(** ** The loop *)

Lemma loop_cons e r rs st :
  loop e (r :: rs) st = loop e rs (processRecord e (tempDir_of e) st r).
Proof. reflexivity. Qed.

Lemma loop_app e rs1 rs2 st :
  loop e (rs1 ++ rs2) st = loop e rs2 (loop e rs1 st).
Proof. unfold loop. apply fold_left_app. Qed.

Lemma processRecord_generated e tempDir st r :
  (generated st <= generated (processRecord e tempDir st r))%nat.
Proof.
  destruct (processRecord_outcomes e tempDir st r)
    as [[_ ->] | [(vm & Hres & _ & ->) | (vm & Hres & _ & ->)]].
  - reflexivity.
  - now rewrite resolved_state_generated.
  - rewrite encodeAndIndex_generated, resolved_state_generated by assumption. lia.
Qed.

Lemma loop_generated e rs : forall st,
  (generated st <= generated (loop e rs st))%nat.
Proof.
  induction rs as [ | r rs IH ]; intros st; [ reflexivity | ].
  rewrite loop_cons. etransitivity; [ apply processRecord_generated | apply IH ].
Qed.

Lemma getVideoMeta_None p now url :
  getVideoMeta p now url = None <->
  getURLVideoID p url = None \/ getInfo p now url = None
  \/ exists info, getInfo p now url = Some info /\ selectFormat p info = None.
Proof.
  unfold getVideoMeta. split.
  - destruct (getURLVideoID p url); [ | now left ].
    destruct (getInfo p now url) as [info | ]; [ | right; now left ].
    intros H. right. right. now exists info.
  - intros [-> | [H | (info & Hinfo & H)]]; [ reflexivity | | ];
      destruct (getURLVideoID p url); try reflexivity.
    + now rewrite H.
    + now rewrite Hinfo.
Qed.

(** No stream is selected, or the selected one has a falsy rate: it is
    then the first audio-carrying stream whose key is [0], with no key
    above [0]. *)
Lemma selectFormat_fails p info :
  selectFormat p info = None <->
  (forall f, f ∈ formats info -> hasAudio f = true ->
     JS.is_nan (sampleRate p f) = true)
  \/ exists pre best post,
       formats info = pre ++ best :: post
       /\ hasAudio best = true
       /\ JS.truthy (audioSampleRate best) = false
       /\ (forall g, g ∈ pre -> hasAudio g = true ->
             JS.is_nan (sampleRate p g) = true
             \/ JS.gt JS.zero (sampleRate p g) = true)
       /\ (forall g, g ∈ post -> hasAudio g = true ->
             JS.gt (sampleRate p g) JS.zero = false).
Proof.
  rewrite selectFormat_None, bestFormat_None. split.
  - intros [H | (best & Hbest & Hfalsy)]; [ now left | right ].
    apply bestFormat_first in Hbest
      as (pre & post & Hsplit & Haudio & _ & Hpre & Hpost).
    rewrite (sampleRate_falsy p best Hfalsy) in Hpre, Hpost.
    exists pre, best, post. auto.
  - intros [H | (pre & best & post & Hsplit & Haudio & Hfalsy & Hpre & Hpost)];
      [ now left | right ].
    exists best. split; [ | exact Hfalsy ].
    apply bestFormat_first. exists pre, post.
    rewrite (sampleRate_falsy p best Hfalsy). auto.
Qed.

(** C3, as amended.  Stream resolution fails exactly when the URL cannot be
    parsed, or the provider's request fails, or no audio-carrying stream
    can be selected (every audio-carrying stream, if there is one, has a
    rate that is not a number), or the selected stream lacks a sample
    rate: the first of the audio-carrying streams whose rate, a missing
    one counting as 0, is the highest has a falsy rate ([undefined], the
    empty string, [0] or [NaN]), which requires that no audio-carrying
    stream has a rate above 0.  In particular it fails when no stream
    carries audio and when every audio-carrying stream lacks a sample
    rate.  A record whose resolution fails leaves the index, the files,
    the cache and the identifier generator as they were, the call of the
    provider being the only thing that happened, and the loop goes on with
    the next record. *)
Theorem failed_resolution_skips_record :
  (forall p now url,
     getVideoMeta p now url = None <->
     getURLVideoID p url = None
     \/ getInfo p now url = None
     \/ exists info,
          getInfo p now url = Some info
          /\ ((forall f, f ∈ formats info -> hasAudio f = true ->
                 JS.is_nan (sampleRate p f) = true)
              \/ exists pre best post,
                   formats info = pre ++ best :: post
                   /\ hasAudio best = true
                   /\ JS.truthy (audioSampleRate best) = false
                   /\ (forall g, g ∈ pre -> hasAudio g = true ->
                         JS.is_nan (sampleRate p g) = true
                         \/ JS.gt JS.zero (sampleRate p g) = true)
                   /\ (forall g, g ∈ post -> hasAudio g = true ->
                         JS.gt (sampleRate p g) JS.zero = false)))
  /\ (forall p now url info,
        getInfo p now url = Some info ->
        (forall f, f ∈ formats info -> hasAudio f = false) ->
        getVideoMeta p now url = None)
  /\ (forall p now url info,
        getInfo p now url = Some info ->
        (forall f, f ∈ formats info -> hasAudio f = true ->
           JS.truthy (audioSampleRate f) = false) ->
        getVideoMeta p now url = None)
  /\ (forall e st r rs,
        resolution e st r = None ->
        let st' := processRecord e (tempDir_of e) st r in
        metaFile st' = metaFile st
        /\ files st' = files st
        /\ videoMetaCache st' = videoMetaCache st
        /\ generated st' = generated st
        /\ trace st' = trace st ++ [Resolve (record_videoUrl r) None]
        /\ loop e (r :: rs) st = loop e rs st').
Proof.
  split; [ | split; [ | split ] ].
  - intros p now url. rewrite getVideoMeta_None.
    setoid_rewrite selectFormat_fails. reflexivity.
  - intros p now url info Hinfo Hnone. apply getVideoMeta_None.
    right. right. exists info. split; [ exact Hinfo | ].
    apply selectFormat_fails. left. intros f Hf Hfa.
    rewrite (Hnone f Hf) in Hfa. discriminate.
  - intros p now url info Hinfo Hall. apply getVideoMeta_None.
    right. right. exists info. split; [ exact Hinfo | ].
    unfold selectFormat.
    destruct (bestFormat p info) as [best | ] eqn:Hbest; [ | reflexivity ].
    apply bestFormat_Some in Hbest as (Hin & Haudio & _).
    now rewrite (Hall best Hin Haudio).
  - intros e st r rs Hres st'.
    destruct (processRecord_unresolved e (tempDir_of e) st r Hres) as (Hst' & _).
    subst st'. rewrite loop_cons, Hst'. repeat split.
Qed.

(** A record whose URL the host rejects, followed by [r1]. *)
Lemma failed_resolution_skips_record_witness :
  let e := Scenario.env true in
  let st := Scenario.start ∅ fresh_index in
  let st' := processRecord e (tempDir_of e) st Scenario.gone in
  metaFile st' = metaFile st
  /\ files st' = files st
  /\ videoMetaCache st' = videoMetaCache st
  /\ generated st' = generated st
  /\ trace st' = trace st ++ [Resolve "https://host/gone" None]
  /\ loop e [Scenario.gone; Scenario.r1] st = loop e [Scenario.r1] st'.
Proof.
  apply (proj2 (proj2 (proj2 failed_resolution_skips_record))
           (Scenario.env true) (Scenario.start ∅ fresh_index) Scenario.gone
           [Scenario.r1]).
  vm_compute. reflexivity.
Defined.

(** C3 as stated fails.  Resolution fails for a URL that parses when the
    provider rejects the request.  It fails for a URL that parses although
    both returned streams carry audio and the second of them reports a
    sample rate: the first stream, which reports none, counts as 0 and is
    the one selected.  And it fails for a URL that parses although the one
    returned stream carries audio and reports a sample rate, a string
    that has no numeric value. *)
Lemma resolution_fails_for_other_reasons :
  (getVideoMeta Scenario.host 0 "https://host/gone" = None
   /\ is_Some (getURLVideoID Scenario.host "https://host/gone")
   /\ getInfo Scenario.host 0 "https://host/gone" = None)
  /\ (getVideoMeta Scenario.host 0 "https://host/unrated" = None
      /\ is_Some (getURLVideoID Scenario.host "https://host/unrated")
      /\ getInfo Scenario.host 0 "https://host/unrated"
         = Some {| formats :=
                     [ {| hasAudio := true; audioSampleRate := JS.Undefined;
                          format_url := "https://stream/unrated.audio" |};
                       {| hasAudio := true; audioSampleRate := JS.Str "0";
                          format_url := "https://stream/zero.audio" |} ];
                   videoDetails_of := Scenario.details |})
  /\ (getVideoMeta Scenario.host 0 "https://host/garbled" = None
      /\ is_Some (getURLVideoID Scenario.host "https://host/garbled")
      /\ getInfo Scenario.host 0 "https://host/garbled"
         = Some {| formats :=
                     [ {| hasAudio := true; audioSampleRate := JS.Str "n/a";
                          format_url := "https://stream/garbled.audio" |} ];
                   videoDetails_of := Scenario.details |}).
Proof.
  split; [ | split ].
  - split; [ reflexivity | ]. split; [ eexists; reflexivity | reflexivity ].
  - split; [ reflexivity | ]. split; [ eexists; reflexivity | reflexivity ].
  - split; [ reflexivity | ]. split; [ eexists; reflexivity | reflexivity ].
Qed.

Lemma filter_exec_snoc_resolve t url res :
  List.filter is_exec (t ++ [Resolve url res]) = List.filter is_exec t.
Proof. rewrite List.filter_app. cbn. apply app_nil_r. Qed.

Lemma resolved_state_exec e st r vm :
  resolution e st r = Some vm ->
  List.filter is_exec (trace (resolved_state e st r vm))
  = List.filter is_exec (trace st).
Proof.
  intros H. rewrite (resolved_state_trace e st r vm H).
  destruct (videoMetaCache st !! record_videoUrl r); [ reflexivity | ].
  apply filter_exec_snoc_resolve.
Qed.

(** C4, as amended.  A record whose derived file exists on disk is skipped
    after its stream resolution: no file is produced, the index and the
    identifier generator are untouched and the encoder is not invoked; the
    provider is called for the record's URL unless the cache holds it. *)
Theorem existing_file_skips_after_resolution :
  forall e tempDir st r,
    existsSync (files st) (savePath_of tempDir r) = true ->
    let st' := processRecord e tempDir st r in
    files st' = files st
    /\ metaFile st' = metaFile st
    /\ generated st' = generated st
    /\ List.filter is_exec (trace st') = List.filter is_exec (trace st)
    /\ trace st'
       = match videoMetaCache st !! record_videoUrl r with
         | Some _ => trace st
         | None =>
             trace st
             ++ [Resolve (record_videoUrl r)
                   (getVideoMeta (ytdl e) (length (trace st)) (record_videoUrl r))]
         end.
Proof.
  intros e tempDir st r Hfile st'. subst st'.
  destruct (processRecord_outcomes e tempDir st r)
    as [[Hres ->] | [(vm & Hres & _ & ->) | (vm & _ & Hmissing & _)]];
    [ | | congruence ].
  - destruct (processRecord_unresolved e tempDir st r Hres) as (_ & -> & ->).
    repeat split. apply filter_exec_snoc_resolve.
  - rewrite resolved_state_files, resolved_state_metaFile,
      resolved_state_generated, resolved_state_exec, resolved_state_trace
      by assumption.
    repeat split.
    destruct (resolved_state_cases e st r vm Hres) as [[-> _] | (-> & -> & _)];
      reflexivity.
Qed.

(** The record [r1] when its file is on disk. *)
Lemma existing_file_skips_after_resolution_witness :
  let e := Scenario.env true in
  let st := Scenario.start {[ "/app/.temp/r1-TestClip.mp3" := File "audio" ]}
              fresh_index in
  let st' := processRecord e "/app/.temp" st Scenario.r1 in
  files st' = files st
  /\ metaFile st' = metaFile st
  /\ generated st' = generated st
  /\ List.filter is_exec (trace st') = List.filter is_exec (trace st)
  /\ trace st'
     = match videoMetaCache st !! record_videoUrl Scenario.r1 with
       | Some _ => trace st
       | None =>
           trace st
           ++ [Resolve (record_videoUrl Scenario.r1)
                 (getVideoMeta (ytdl e) (length (trace st))
                    (record_videoUrl Scenario.r1))]
       end.
Proof.
  apply (existing_file_skips_after_resolution (Scenario.env true) "/app/.temp"
           (Scenario.start {[ "/app/.temp/r1-TestClip.mp3" := File "audio" ]}
              fresh_index)
           Scenario.r1).
  vm_compute. reflexivity.
Defined.

(** C4 as stated fails: for a record whose file exists the provider is
    called all the same. *)
Lemma existing_file_is_resolved_all_the_same :
  let st := Scenario.start {[ "/app/.temp/r1-TestClip.mp3" := File "audio" ]}
              fresh_index in
  existsSync (files st) (savePath_of "/app/.temp" Scenario.r1) = true
  /\ trace (processRecord (Scenario.env true) "/app/.temp" st Scenario.r1)
     = [Resolve "https://host/abc" (Some Scenario.abc_meta)].
Proof. split; vm_compute; reflexivity. Qed.

(** C8, as amended.  For a record whose derived file name has an index
    entry while its file is missing from disk, the entry plays no part:
    when the record's resolution succeeds the encoder is invoked for it and
    the entry is overwritten with new metadata; only when resolution fails
    is the record skipped, the encoder not invoked and the index left as it
    was. *)
Theorem index_entry_does_not_prevent_download :
  forall e tempDir st r old,
    resources (metaFile st) !! deriveFilename r = Some old ->
    existsSync (files st) (savePath_of tempDir r) = false ->
    let st' := processRecord e tempDir st r in
    match resolution e st r with
    | Some vm =>
        trace st'
        = trace (resolved_state e st r vm)
          ++ [Exec (encode_argv e (options_of tempDir r vm))]
        /\ resources (metaFile st') !! deriveFilename r
           = Some (makeMeta (UUIDv4 e (generated st)) r vm (deriveFilename r))
    | None =>
        List.filter is_exec (trace st') = List.filter is_exec (trace st)
        /\ metaFile st' = metaFile st
    end.
Proof.
  intros e tempDir st r old _ Hfile st'. subst st'.
  destruct (resolution e st r) as [vm | ] eqn:Hres.
  - rewrite (processRecord_encode e tempDir st r vm Hres Hfile).
    rewrite encodeAndIndex_trace, encodeAndIndex_metaFile. cbn [resources].
    rewrite lookup_insert_eq.
    now rewrite (resolved_state_generated e st r vm Hres).
  - destruct (processRecord_unresolved e tempDir st r Hres) as (-> & _).
    cbn [log_event trace metaFile]. split; [ apply filter_exec_snoc_resolve | reflexivity ].
Qed.

(** The record [r1] with a stale index entry and no file. *)
Lemma index_entry_does_not_prevent_download_witness :
  let e := Scenario.env true in
  let st := Scenario.start Scenario.stale_files Scenario.stale_index in
  let st' := processRecord e "/app/.temp" st Scenario.r1 in
  match resolution e st Scenario.r1 with
  | Some vm =>
      trace st'
      = trace (resolved_state e st Scenario.r1 vm)
        ++ [Exec (encode_argv e (options_of "/app/.temp" Scenario.r1 vm))]
      /\ resources (metaFile st') !! deriveFilename Scenario.r1
         = Some (makeMeta (UUIDv4 e (generated st)) Scenario.r1 vm
                   (deriveFilename Scenario.r1))
  | None =>
      List.filter is_exec (trace st') = List.filter is_exec (trace st)
      /\ metaFile st' = metaFile st
  end.
Proof.
  apply (index_entry_does_not_prevent_download (Scenario.env true) "/app/.temp"
           (Scenario.start Scenario.stale_files Scenario.stale_index)
           Scenario.r1
           (makeMeta "old" Scenario.r1 Scenario.abc_meta "r1-TestClip.mp3")).
  - vm_compute. reflexivity.
  - vm_compute. reflexivity.
Defined.

(** C8 as stated fails: the index file holds an entry for the record's
    file name, the file itself is missing, and the run invokes the encoder
    for the record. *)
Lemma stale_entry_is_downloaded_again :
  loadMetaFile Scenario.stale_files "/app/.temp/meta.json"
  = Some Scenario.stale_index
  /\ is_Some (resources Scenario.stale_index !! deriveFilename Scenario.r1)
  /\ existsSync Scenario.stale_files (savePath_of "/app/.temp" Scenario.r1)
     = false
  /\ trace <$> downloadAudioclip (Scenario.env true) [Scenario.r1]
                 Scenario.stale_files
     = Some [Resolve "https://host/abc" (Some Scenario.abc_meta);
             Exec ["/usr/bin/ffmpeg"; "-hide_banner"; "-nostdin"; "-i";
                   "https://stream/abc.audio"; "-ss"; "10"; "-t"; "5"; "-vn";
                   "-c:a"; "libmp3lame"; "/app/.temp/r1-TestClip.mp3"]].
Proof.
  split; [ vm_compute; reflexivity | ].
  split; [ eexists; vm_compute; reflexivity | ].
  split; vm_compute; reflexivity.
Qed.

(** ** Invariants of the loop *)

Lemma successes_snoc url t ev :
  successes url (t ++ [ev])
  = (successes url t + if is_success url ev then 1 else 0)%nat.
Proof.
  unfold successes. rewrite List.filter_app, length_app. cbn.
  now destruct (is_success url ev).
Qed.

Lemma invocations_snoc url t ev :
  invocations url (t ++ [ev])
  = (invocations url t + if is_resolution url ev then 1 else 0)%nat.
Proof.
  unfold invocations. rewrite List.filter_app, length_app. cbn.
  now destruct (is_resolution url ev).
Qed.

Lemma cache_tracks_start e st :
  videoMetaCache st = ∅ -> trace st = [] -> cache_tracks e st.
Proof. intros Hc Ht url. now rewrite Hc, Ht, lookup_empty. Qed.

Lemma cache_tracks_exec e st st' argv :
  videoMetaCache st' = videoMetaCache st ->
  trace st' = trace st ++ [Exec argv] ->
  cache_tracks e st -> cache_tracks e st'.
Proof.
  intros Hc Ht H url. specialize (H url).
  rewrite Hc, Ht, successes_snoc. cbn [is_success].
  now rewrite Nat.add_0_r.
Qed.

Lemma cache_tracks_failure e st url :
  cache_tracks e st -> cache_tracks e (log_event (Resolve url None) st).
Proof.
  intros H u. specialize (H u). cbn [log_event videoMetaCache trace].
  rewrite successes_snoc. cbn [is_success]. now rewrite Nat.add_0_r.
Qed.

Lemma cache_tracks_resolved e st r vm :
  resolution e st r = Some vm ->
  cache_tracks e st -> cache_tracks e (resolved_state e st r vm).
Proof.
  intros Hres H.
  destruct (resolved_state_cases e st r vm Hres) as [[_ ->] | (Hc & Hget & ->)];
    [ exact H | ].
  intros u. cbn [set_cache log_event videoMetaCache trace].
  rewrite successes_snoc. cbn [is_success].
  destruct (String.eqb_spec (record_videoUrl r) u) as [<- | Hne].
  - rewrite lookup_insert_eq. specialize (H (record_videoUrl r)).
    rewrite Hc in H. rewrite H. split; [ reflexivity | eauto ].
  - rewrite lookup_insert_ne by exact Hne. specialize (H u).
    now rewrite Nat.add_0_r.
Qed.

Lemma cache_tracks_step e tempDir st r :
  cache_tracks e st -> cache_tracks e (processRecord e tempDir st r).
Proof.
  intros H.
  destruct (processRecord_outcomes e tempDir st r)
    as [[_ ->] | [(vm & Hres & _ & ->) | (vm & Hres & _ & ->)]].
  - now apply cache_tracks_failure.
  - now apply cache_tracks_resolved.
  - eapply cache_tracks_exec;
      [ | apply encodeAndIndex_trace | now apply cache_tracks_resolved ].
    reflexivity.
Qed.

Lemma cache_tracks_loop e rs : forall st,
  cache_tracks e st -> cache_tracks e (loop e rs st).
Proof.
  induction rs as [ | r rs IH ]; intros st H; [ exact H | ].
  rewrite loop_cons. now apply IH, cache_tracks_step.
Qed.

(** What resolution gives for a record is what the provider returned for
    its URL at some call. *)
Lemma resolution_from_provider e st r vm :
  cache_tracks e st ->
  resolution e st r = Some vm ->
  exists now, getVideoMeta (ytdl e) now (record_videoUrl r) = Some vm.
Proof.
  intros H Hres.
  destruct (resolved_state_cases e st r vm Hres) as [[Hc _] | (_ & Hget & _)];
    [ | eauto ].
  specialize (H (record_videoUrl r)). rewrite Hc in H. apply H.
Qed.

(** An entry of the index after a record is the entry before it, or the
    one the record created on reaching the encode step. *)
Lemma processRecord_entry e tempDir st r key :
  resources (metaFile (processRecord e tempDir st r)) !! key
  = resources (metaFile st) !! key
  \/ (key = deriveFilename r
      /\ existsSync (files st) (savePath_of tempDir r) = false
      /\ exists vm,
           resolution e st r = Some vm
           /\ resources (metaFile (processRecord e tempDir st r)) !! key
              = Some (makeMeta (UUIDv4 e (generated st)) r vm (deriveFilename r))).
Proof.
  destruct (processRecord_outcomes e tempDir st r)
    as [[_ ->] | [(vm & Hres & _ & ->) | (vm & Hres & Hfile & ->)]].
  - now left.
  - left. now rewrite resolved_state_metaFile.
  - rewrite encodeAndIndex_metaFile. cbn [resources].
    rewrite (resolved_state_metaFile e st r vm Hres),
      (resolved_state_generated e st r vm Hres).
    destruct (String.eqb_spec (deriveFilename r) key) as [<- | Hne].
    + right. rewrite lookup_insert_eq. eauto 6.
    + left. now rewrite lookup_insert_ne.
Qed.

Lemma existsSync_insert fs path path' node :
  existsSync fs path = true -> existsSync (<[path' := node]> fs) path = true.
Proof.
  unfold existsSync. rewrite !bool_decide_eq_true, lookup_insert_is_Some.
  intros H. destruct (decide (path' = path)); auto.
Qed.

Lemma processRecord_files e tempDir st r path :
  existsSync (files st) path = true ->
  existsSync (files (processRecord e tempDir st r)) path = true.
Proof.
  intros H.
  destruct (processRecord_outcomes e tempDir st r)
    as [[_ ->] | [(vm & Hres & _ & ->) | (vm & Hres & _ & ->)]].
  - exact H.
  - now rewrite resolved_state_files.
  - rewrite encodeAndIndex_files, (resolved_state_files e st r vm Hres).
    destruct (encoder e _ _); [ now apply existsSync_insert | exact H ].
Qed.

(** An entry of the index after the loop is an entry the loop started
    with, or carries the identifier of one of the generator's calls made
    during the loop. *)
Lemma loop_created_ids e rs : forall st key m,
  resources (metaFile (loop e rs st)) !! key = Some m ->
  resources (metaFile st) !! key = Some m
  \/ exists k, (generated st <= k < generated (loop e rs st))%nat
               /\ meta_id m = UUIDv4 e k.
Proof.
  induction rs as [ | r rs IH ]; intros st key m Hm; [ now left | ].
  rewrite loop_cons in Hm |- *.
  pose proof (processRecord_generated e (tempDir_of e) st r) as Hstep.
  pose proof (loop_generated e rs (processRecord e (tempDir_of e) st r)) as Hrest.
  destruct (IH _ key m Hm) as [Hm1 | (k & Hk & Hid)].
  - destruct (processRecord_entry e (tempDir_of e) st r key)
      as [Hsame | (-> & Hfile & vm & Hres & Hnew)].
    + left. congruence.
    + right. exists (generated st). rewrite Hnew in Hm1. injection Hm1 as <-.
      split; [ | reflexivity ].
      assert (generated (processRecord e (tempDir_of e) st r) = S (generated st))
        as Hgen.
      { rewrite (processRecord_encode e (tempDir_of e) st r vm Hres Hfile).
        rewrite encodeAndIndex_generated. f_equal.
        now apply resolved_state_generated. }
      lia.
  - right. exists k. split; [ lia | exact Hid ].
Qed.

(** C2.  A record whose resolution succeeded and whose file is missing
    gets exactly one index entry, under its derived file name, with the
    record's id as [refId] and the generator's next identifier as [id];
    this holds whatever the encoder does (the entry does not depend on the
    encoder), the encoder being invoked once; the generator's call is
    consumed, so that, the generator never repeating itself, every entry
    created later in the run has another [id]. *)
Theorem index_entry_whatever_the_encoder :
  forall e tempDir st r vm (enc : nat -> list string -> option string),
    resolution e st r = Some vm ->
    existsSync (files st) (savePath_of tempDir r) = false ->
    let e' := with_encoder enc e in
    let st' := processRecord e' tempDir st r in
    let meta := makeMeta (UUIDv4 e (generated st)) r vm (deriveFilename r) in
    metaFile st'
    = {| v := v (metaFile st);
         resources := <[deriveFilename r := meta]> (resources (metaFile st)) |}
    /\ meta_refId meta = record_id r
    /\ meta_id meta = UUIDv4 e (generated st)
    /\ generated st' = S (generated st)
    /\ trace st'
       = trace (resolved_state e st r vm)
         ++ [Exec (encode_argv e (options_of tempDir r vm))]
    /\ (forall rs key m,
          (forall i j, UUIDv4 e i = UUIDv4 e j -> i = j) ->
          resources (metaFile (loop e' rs st')) !! key = Some m ->
          resources (metaFile st') !! key = Some m
          \/ meta_id m <> meta_id meta).
Proof.
  intros e tempDir st r vm enc Hres Hfile e' st' meta.
  assert (st' = encodeAndIndex e' r vm (deriveFilename r) (savePath_of tempDir r)
                  (resolved_state e st r vm)) as Hst'.
  { subst st' e'. rewrite (processRecord_encode _ _ st r vm); auto. }
  assert (generated st' = S (generated st)) as Hgen.
  { rewrite Hst', encodeAndIndex_generated. f_equal.
    now apply resolved_state_generated. }
  repeat split.
  - rewrite Hst', encodeAndIndex_metaFile.
    rewrite (resolved_state_metaFile e st r vm Hres).
    now rewrite (resolved_state_generated e st r vm Hres).
  - exact Hgen.
  - now rewrite Hst', encodeAndIndex_trace.
  - intros rs key m Hinj Hm.
    destruct (loop_created_ids e' rs st' key m Hm) as [Hold | (k & Hk & Hid)];
      [ now left | right ].
    rewrite Hid. cbn [makeMeta meta_id UUIDv4 with_encoder]. intros Heq.
    apply Hinj in Heq. lia.
Qed.

(** The record [r1] with an encoder that leaves nothing. *)
Lemma index_entry_whatever_the_encoder_witness :
  let e := Scenario.env true in
  let st := Scenario.start ∅ fresh_index in
  let st' := processRecord (with_encoder (fun _ _ => None) e) "/app/.temp" st
               Scenario.r1 in
  let meta := makeMeta (UUIDv4 e (generated st)) Scenario.r1 Scenario.abc_meta
                (deriveFilename Scenario.r1) in
  metaFile st'
  = {| v := v (metaFile st);
       resources := <[deriveFilename Scenario.r1 := meta]> (resources (metaFile st)) |}
  /\ meta_refId meta = record_id Scenario.r1
  /\ meta_id meta = UUIDv4 e (generated st)
  /\ generated st' = S (generated st)
  /\ trace st'
     = trace (resolved_state e st Scenario.r1 Scenario.abc_meta)
       ++ [Exec (encode_argv e (options_of "/app/.temp" Scenario.r1 Scenario.abc_meta))]
  /\ (forall rs key m,
        (forall i j, UUIDv4 e i = UUIDv4 e j -> i = j) ->
        resources (metaFile (loop (with_encoder (fun _ _ => None) e) rs st'))
          !! key = Some m ->
        resources (metaFile st') !! key = Some m
        \/ meta_id m <> meta_id meta).
Proof.
  apply (index_entry_whatever_the_encoder (Scenario.env true) "/app/.temp"
           (Scenario.start ∅ fresh_index) Scenario.r1 Scenario.abc_meta
           (fun _ _ => None)).
  - vm_compute. reflexivity.
  - vm_compute. reflexivity.
Defined.

(** C10.  Every entry of the index after the loop is an entry the loop
    started with, or was created for one of the records: then its
    [source.url] is the canonical URL of the video the provider returned for
    the record's URL, its [source.title] and [source.startTime] are the
    record's own title and raw start time, its contributor is present with
    the record's author (absent or not) as name and no link, and its
    catalog, tags, language and file metadata are not set. *)
Theorem created_entry_fields :
  forall e rs st key m,
    videoMetaCache st = ∅ -> trace st = [] ->
    resources (metaFile (loop e rs st)) !! key = Some m ->
    resources (metaFile st) !! key = Some m
    \/ exists r vm now info,
         r ∈ rs /\ key = deriveFilename r
         /\ getVideoMeta (ytdl e) now (record_videoUrl r) = Some vm
         /\ getInfo (ytdl e) now (record_videoUrl r) = Some info
         /\ source_url (meta_source m) = video_url (videoDetails_of info)
         /\ source_title (meta_source m) = record_title r
         /\ source_startTime (meta_source m) = jsprim_of (record_startTime r)
         /\ meta_contributor m
            = Some {| contributor_name := record_author r;
                      contributor_link := None |}
         /\ meta_catalog m = None /\ meta_tags m = None
         /\ meta_language m = None /\ meta_filemeta m = None.
Proof.
  intros e rs st key m Hcache Htrace.
  pose proof (cache_tracks_start e st Hcache Htrace) as Hinv.
  clear Hcache Htrace. revert st Hinv.
  induction rs as [ | r rs IH ]; intros st Hinv Hm; [ now left | ].
  rewrite loop_cons in Hm.
  destruct (IH _ (cache_tracks_step e (tempDir_of e) st r Hinv) Hm)
    as [Hstep | (r' & vm & now & info & Hin & Hrest)].
  - destruct (processRecord_entry e (tempDir_of e) st r key)
      as [Hsame | (-> & _ & vm & Hres & Hnew)].
    + left. congruence.
    + right. rewrite Hnew in Hstep. injection Hstep as <-.
      destruct (resolution_from_provider e st r vm Hinv Hres) as [now Hget].
      pose proof Hget as Hget'.
      apply getVideoMeta_Some in Hget' as (_ & info & Hinfo & Hsel).
      apply selectFormat_Some in Hsel as (_ & _ & _ & _ & _ & _ & Hurl).
      exists r, vm, now, info. cbn.
      repeat split; try assumption; apply list_elem_of_here.
  - right. exists r', vm, now, info. split; [ now apply list_elem_of_further | exact Hrest ].
Qed.

(** The entry the run creates for [r1]. *)
Lemma created_entry_fields_witness :
  let e := Scenario.env true in
  let st := Scenario.start ∅ fresh_index in
  let key := "r1-TestClip.mp3" in
  let m := makeMeta "uuid-0" Scenario.r1 Scenario.abc_meta "r1-TestClip.mp3" in
  resources (metaFile st) !! key = Some m
  \/ exists r vm now info,
       r ∈ [Scenario.r1] /\ key = deriveFilename r
       /\ getVideoMeta (ytdl e) now (record_videoUrl r) = Some vm
       /\ getInfo (ytdl e) now (record_videoUrl r) = Some info
       /\ source_url (meta_source m) = video_url (videoDetails_of info)
       /\ source_title (meta_source m) = record_title r
       /\ source_startTime (meta_source m) = jsprim_of (record_startTime r)
       /\ meta_contributor m
          = Some {| contributor_name := record_author r;
                    contributor_link := None |}
       /\ meta_catalog m = None /\ meta_tags m = None
       /\ meta_language m = None /\ meta_filemeta m = None.
Proof.
  apply (created_entry_fields (Scenario.env true) [Scenario.r1]
           (Scenario.start ∅ fresh_index) "r1-TestClip.mp3"
           (makeMeta "uuid-0" Scenario.r1 Scenario.abc_meta "r1-TestClip.mp3")).
  - reflexivity.
  - reflexivity.
  - vm_compute. reflexivity.
Defined.

Lemma processRecord_present_untouched e tempDir st r :
  existsSync (files st) (savePath_of tempDir r) = true ->
  files (processRecord e tempDir st r) = files st
  /\ metaFile (processRecord e tempDir st r) = metaFile st
  /\ List.filter is_exec (trace (processRecord e tempDir st r))
     = List.filter is_exec (trace st).
Proof.
  intros Hfile.
  destruct (processRecord_outcomes e tempDir st r)
    as [[_ ->] | [(vm & Hres & _ & ->) | (vm & _ & Hmissing & _)]];
    [ | | congruence ].
  - repeat split. apply filter_exec_snoc_resolve.
  - now rewrite resolved_state_files, resolved_state_metaFile,
      resolved_state_exec.
Qed.

Lemma loop_files e rs path : forall st,
  existsSync (files st) path = true ->
  existsSync (files (loop e rs st)) path = true.
Proof.
  induction rs as [ | r rs IH ]; intros st H; [ exact H | ].
  rewrite loop_cons. now apply IH, processRecord_files.
Qed.

(** C9, as amended.  Within the loop no index entry is ever deleted; an
    entry changes only when a record that derives its file name reaches the
    encode step, which needs the file to be missing from disk, so an entry
    whose file exists is kept as it is to the end of the loop.  In the
    collision scenario, when the file exists after the first record (it
    does when the first record's encode left it), the second record is
    skipped: the index, the files and the encoder invocations stay as the
    first record left them. *)
Theorem index_entries_kept_while_file_exists :
  (forall e rs st key,
     is_Some (resources (metaFile st) !! key) ->
     is_Some (resources (metaFile (loop e rs st)) !! key))
  /\ (forall e tempDir st r key,
        resources (metaFile (processRecord e tempDir st r)) !! key
        <> resources (metaFile st) !! key ->
        key = deriveFilename r
        /\ existsSync (files st) (savePath_of tempDir r) = false
        /\ is_Some (resolution e st r))
  /\ (forall e rs st key m,
        resources (metaFile st) !! key = Some m ->
        existsSync (files st) (path_resolve (tempDir_of e) key) = true ->
        resources (metaFile (loop e rs st)) !! key = Some m)
  /\ (forall e st r1 r2,
        deriveFilename r1 = deriveFilename r2 ->
        let st1 := processRecord e (tempDir_of e) st r1 in
        let st2 := processRecord e (tempDir_of e) st1 r2 in
        existsSync (files st1) (savePath_of (tempDir_of e) r1) = true ->
        metaFile st2 = metaFile st1
        /\ files st2 = files st1
        /\ List.filter is_exec (trace st2) = List.filter is_exec (trace st1))
  /\ (forall e st r1 vm content,
        resolution e st r1 = Some vm ->
        existsSync (files st) (savePath_of (tempDir_of e) r1) = false ->
        encoder e (length (trace (resolved_state e st r1 vm)))
          (encode_argv e (options_of (tempDir_of e) r1 vm)) = Some content ->
        existsSync (files (processRecord e (tempDir_of e) st r1))
          (savePath_of (tempDir_of e) r1) = true).
Proof.
  split; [ | split; [ | split; [ | split ] ] ].
  - intros e rs. induction rs as [ | r rs IH ]; intros st key H; [ exact H | ].
    rewrite loop_cons. apply IH.
    destruct (processRecord_entry e (tempDir_of e) st r key)
      as [-> | (_ & _ & vm & _ & ->)]; [ exact H | eauto ].
  - intros e tempDir st r key Hne.
    destruct (processRecord_entry e tempDir st r key)
      as [Hsame | (-> & Hfile & vm & Hres & _)]; [ congruence | ].
    rewrite Hres. eauto.
  - intros e rs. induction rs as [ | r rs IH ]; intros st key m Hm Hfile;
      [ exact Hm | ].
    rewrite loop_cons. apply IH.
    + destruct (processRecord_entry e (tempDir_of e) st r key)
        as [-> | (-> & Hmissing & _)]; [ exact Hm | ].
      unfold savePath_of in Hmissing. congruence.
    + now apply processRecord_files.
  - intros e st r1 r2 Hsame st1 st2 Hfile. subst st2.
    assert (existsSync (files st1) (savePath_of (tempDir_of e) r2) = true) as H
      by (unfold savePath_of in *; now rewrite <- Hsame).
    destruct (processRecord_present_untouched e (tempDir_of e) st1 r2 H)
      as (Hf & Hm & Hx).
    auto.
  - intros e st r1 vm content Hres Hfile Henc.
    rewrite (processRecord_encode e (tempDir_of e) st r1 vm Hres Hfile).
    rewrite encodeAndIndex_files. unfold options_of in Henc. rewrite Henc.
    unfold existsSync. rewrite bool_decide_eq_true, lookup_insert_eq. eauto.
Qed.

(** The two colliding records with an encoder that leaves its file. *)
Lemma index_entries_kept_while_file_exists_witness :
  let e := Scenario.env true in
  let st1 := processRecord e (tempDir_of e) (Scenario.start ∅ fresh_index)
               Scenario.c1 in
  let st2 := processRecord e (tempDir_of e) st1 Scenario.c2 in
  metaFile st2 = metaFile st1
  /\ files st2 = files st1
  /\ List.filter is_exec (trace st2) = List.filter is_exec (trace st1).
Proof.
  apply (proj1 (proj2 (proj2 (proj2 index_entries_kept_while_file_exists)))
           (Scenario.env true) (Scenario.start ∅ fresh_index)
           Scenario.c1 Scenario.c2).
  - vm_compute. reflexivity.
  - vm_compute. reflexivity.
Defined.

(** C9 as stated fails: when the encoder leaves no file for the first of
    two records that derive one file name, the second record is not
    skipped, the encoder runs twice, and the entry of the first record is
    replaced by the metadata of the second. *)
Lemma collision_replaces_entry_when_encode_left_no_file :
  let e := Scenario.env false in
  let st1 := processRecord e (tempDir_of e) (Scenario.start ∅ fresh_index)
               Scenario.c1 in
  let st2 := processRecord e (tempDir_of e) st1 Scenario.c2 in
  deriveFilename Scenario.c1 = "7-a-b.mp3"
  /\ deriveFilename Scenario.c2 = "7-a-b.mp3"
  /\ meta_refId <$> resources (metaFile st1) !! "7-a-b.mp3" = Some "7"
  /\ meta_refId <$> resources (metaFile st2) !! "7-a-b.mp3" = Some "7-a"
  /\ length (List.filter is_exec (trace st2)) = 2%nat.
Proof. repeat split; vm_compute; reflexivity. Qed.

(** ** Calls of the provider *)

Lemma invocations_app url t1 t2 :
  invocations url (t1 ++ t2) = (invocations url t1 + invocations url t2)%nat.
Proof. unfold invocations. now rewrite List.filter_app, length_app. Qed.

Lemma processRecord_invocations e tempDir st r url :
  invocations url (trace (processRecord e tempDir st r))
  = (invocations url (trace st)
     + match videoMetaCache st !! record_videoUrl r with
       | Some _ => 0
       | None => if String.eqb (record_videoUrl r) url then 1 else 0
       end)%nat.
Proof.
  destruct (processRecord_outcomes e tempDir st r)
    as [[Hres ->] | [(vm & Hres & _ & ->) | (vm & Hres & _ & ->)]].
  - destruct (processRecord_unresolved e tempDir st r Hres) as (_ & -> & _).
    cbn [log_event trace]. now rewrite invocations_snoc.
  - rewrite (resolved_state_trace e st r vm Hres).
    destruct (videoMetaCache st !! record_videoUrl r);
      [ lia | now rewrite invocations_snoc ].
  - rewrite encodeAndIndex_trace, invocations_snoc. cbn [is_resolution].
    rewrite (resolved_state_trace e st r vm Hres).
    destruct (videoMetaCache st !! record_videoUrl r);
      [ lia | rewrite invocations_snoc; cbn [is_resolution]; lia ].
Qed.

Lemma processRecord_cache e tempDir st r url vm :
  videoMetaCache st !! url = Some vm ->
  videoMetaCache (processRecord e tempDir st r) !! url = Some vm.
Proof.
  intros H.
  assert (forall vm', resolution e st r = Some vm' ->
            videoMetaCache (resolved_state e st r vm') !! url = Some vm) as Hr.
  { intros vm' Hres.
    destruct (resolved_state_cases e st r vm' Hres) as [[_ ->] | (Hc & _ & ->)];
      [ exact H | ].
    cbn [set_cache videoMetaCache]. rewrite lookup_insert_ne; [ exact H | ].
    intros <-. congruence. }
  destruct (processRecord_outcomes e tempDir st r)
    as [[_ ->] | [(vm' & Hres & _ & ->) | (vm' & Hres & _ & ->)]];
    [ exact H | now apply Hr | ].
  change (videoMetaCache (encodeAndIndex e r vm' (deriveFilename r)
                            (savePath_of tempDir r) (resolved_state e st r vm')))
    with (videoMetaCache (resolved_state e st r vm')).
  now apply Hr.
Qed.

Lemma cached_url_not_resolved_again e rs url : forall st vm,
  videoMetaCache st !! url = Some vm ->
  invocations url (trace (loop e rs st)) = invocations url (trace st).
Proof.
  induction rs as [ | r rs IH ]; intros st vm H; [ reflexivity | ].
  rewrite loop_cons.
  rewrite (IH _ vm) by now apply processRecord_cache.
  rewrite processRecord_invocations.
  destruct (videoMetaCache st !! record_videoUrl r) eqn:Hc; [ lia | ].
  destruct (String.eqb_spec (record_videoUrl r) url) as [Heq | _]; [ | lia ].
  congruence.
Qed.

Lemma unresolvable_url_retried e rs url :
  (forall now, getVideoMeta (ytdl e) now url = None) ->
  forall st,
    cache_tracks e st ->
    invocations url (trace (loop e rs st))
    = (invocations url (trace st) + carrying url rs)%nat.
Proof.
  intros Hnever.
  assert (forall st r, cache_tracks e st ->
            record_videoUrl r = url ->
            videoMetaCache st !! record_videoUrl r = None) as Hmiss.
  { intros st r Hinv ->. specialize (Hinv url).
    destruct (videoMetaCache st !! url); [ | reflexivity ].
    destruct Hinv as (_ & now & Hget). rewrite Hnever in Hget. discriminate. }
  induction rs as [ | r rs IH ]; intros st Hinv.
  - unfold carrying. cbn. lia.
  - rewrite loop_cons, IH by now apply cache_tracks_step.
    rewrite processRecord_invocations. unfold carrying. cbn [List.filter].
    destruct (String.eqb_spec (record_videoUrl r) url) as [Heq | Hne].
    + rewrite (Hmiss st r Hinv Heq). cbn [length]. lia.
    + destruct (videoMetaCache st !! record_videoUrl r); lia.
Qed.

(** C5, as amended.  In a run the provider succeeds at most once for a
    URL, and once it has succeeded for a URL it is not called for that URL
    again, whatever records follow; a failed resolution is not remembered:
    for a URL that never resolves the provider is called once for every
    record that carries it. *)
Theorem provider_called_until_first_success :
  forall e rs st,
    videoMetaCache st = ∅ -> trace st = [] ->
    (forall url, (successes url (trace (loop e rs st)) <= 1)%nat)
    /\ (forall url rs1 rs2,
          rs = rs1 ++ rs2 ->
          successes url (trace (loop e rs1 st)) = 1%nat ->
          invocations url (trace (loop e rs st))
          = invocations url (trace (loop e rs1 st)))
    /\ (forall url,
          (forall now, getVideoMeta (ytdl e) now url = None) ->
          invocations url (trace (loop e rs st)) = carrying url rs).
Proof.
  intros e rs st Hcache Htrace.
  pose proof (cache_tracks_start e st Hcache Htrace) as Hinv.
  split; [ | split ].
  - intros url. pose proof (cache_tracks_loop e rs st Hinv url) as H.
    destruct (videoMetaCache (loop e rs st) !! url); [ destruct H as [-> _] | ]; lia.
  - intros url rs1 rs2 -> Hone. rewrite loop_app.
    pose proof (cache_tracks_loop e rs1 st Hinv url) as H.
    destruct (videoMetaCache (loop e rs1 st) !! url) as [vm | ] eqn:Hc;
      [ | congruence ].
    now apply (cached_url_not_resolved_again e rs2 url _ vm).
  - intros url Hnever.
    rewrite (unresolvable_url_retried e rs url Hnever st Hinv), Htrace.
    reflexivity.
Qed.

(** Four records on two URLs, one of which never resolves. *)
Lemma provider_called_until_first_success_witness :
  let e := Scenario.env true in
  let st := Scenario.start ∅ fresh_index in
  let rs := [Scenario.r1; Scenario.gone; Scenario.r2; Scenario.gone] in
  (forall url, (successes url (trace (loop e rs st)) <= 1)%nat)
  /\ (forall url rs1 rs2,
        rs = rs1 ++ rs2 ->
        successes url (trace (loop e rs1 st)) = 1%nat ->
        invocations url (trace (loop e rs st))
        = invocations url (trace (loop e rs1 st)))
  /\ (forall url,
        (forall now, getVideoMeta (ytdl e) now url = None) ->
        invocations url (trace (loop e rs st)) = carrying url rs).
Proof.
  apply (provider_called_until_first_success (Scenario.env true)
           [Scenario.r1; Scenario.gone; Scenario.r2; Scenario.gone]
           (Scenario.start ∅ fresh_index)).
  - reflexivity.
  - reflexivity.
Defined.

(** C5 as stated fails: two records carry a URL whose resolution fails,
    and the provider is called for it twice. *)
Lemma failed_resolution_is_retried :
  let st := loop (Scenario.env true) [Scenario.gone; Scenario.gone]
              (Scenario.start ∅ fresh_index) in
  trace st = [Resolve "https://host/gone" None; Resolve "https://host/gone" None]
  /\ invocations "https://host/gone" (trace st) = 2%nat.
Proof. split; vm_compute; reflexivity. Qed.

(** ** The index file *)

Lemma writeMetaFile_lookup fs path index fs' :
  writeMetaFile fs path index = Some fs' ->
  fs' !! path = Some (File (JSON.stringify (Codec.encode_index index))).
Proof.
  unfold writeMetaFile, writeFileSync.
  destruct (fs !! path) as [[ | content] | ]; intros [= <-];
    apply lookup_insert_eq.
Qed.

Lemma loadMetaFile_file fs path text :
  fs !! path = Some (File text) ->
  loadMetaFile fs path
  = match JSON.parse text with
    | Some document => Codec.decode_index document
    | None => None
    end.
Proof.
  intros H. unfold loadMetaFile, existsSync, readFileSync.
  rewrite H, bool_decide_true by eauto. reflexivity.
Qed.

Lemma load_after_write fs path index fs' :
  writeMetaFile fs path index = Some fs' -> loadMetaFile fs' path = Some index.
Proof.
  intros H. rewrite (loadMetaFile_file _ _ _ (writeMetaFile_lookup _ _ _ _ H)).
  rewrite JSONFacts.parse_stringify.
  apply CodecFacts.decode_encode_index.
Qed.

Lemma write_succeeds fs path index :
  fs !! path <> Some Dir -> is_Some (writeMetaFile fs path index).
Proof.
  unfold writeMetaFile, writeFileSync. intros H.
  destruct (fs !! path) as [[ | content] | ]; [ congruence | eauto | eauto ].
Qed.

Lemma load_not_dir fs path index :
  loadMetaFile fs path = Some index -> fs !! path <> Some Dir.
Proof.
  unfold loadMetaFile, existsSync, readFileSync. intros Hload Hdir.
  rewrite Hdir, bool_decide_true in Hload by eauto.
  cbn [mbind option_bind] in Hload. discriminate Hload.
Qed.

Lemma initial_Some e fs st0 :
  initial e fs = Some st0 ->
  videoMetaCache st0 = ∅ /\ trace st0 = [] /\ generated st0 = 0%nat
  /\ loadMetaFile (files st0) (metaFilePath_of e) = Some (metaFile st0)
  /\ files st0 !! metaFilePath_of e <> Some Dir.
Proof.
  unfold initial.
  set (fs1 := if existsSync fs (tempDir_of e) then fs
              else <[tempDir_of e := Dir]> fs).
  destruct (loadMetaFile fs1 (metaFilePath_of e)) as [index | ] eqn:Hload;
    [ | discriminate ].
  cbn. intros [= <-]. cbn. repeat split; try assumption.
  now apply (load_not_dir _ _ index).
Qed.

Lemma not_dir_insert (fs : gmap string node) path path' content :
  fs !! path <> Some Dir -> <[path' := File content]> fs !! path <> Some Dir.
Proof.
  intros H. destruct (decide (path' = path)) as [-> | Hne].
  - rewrite lookup_insert_eq. discriminate.
  - now rewrite lookup_insert_ne.
Qed.

Lemma processRecord_not_dir e tempDir st r path :
  files st !! path <> Some Dir ->
  files (processRecord e tempDir st r) !! path <> Some Dir.
Proof.
  intros H.
  destruct (processRecord_outcomes e tempDir st r)
    as [[_ ->] | [(vm & Hres & _ & ->) | (vm & Hres & _ & ->)]].
  - exact H.
  - now rewrite resolved_state_files.
  - rewrite encodeAndIndex_files, (resolved_state_files e st r vm Hres).
    destruct (encoder e _ _); [ now apply not_dir_insert | exact H ].
Qed.

Lemma loop_not_dir e rs path : forall st,
  files st !! path <> Some Dir -> files (loop e rs st) !! path <> Some Dir.
Proof.
  induction rs as [ | r rs IH ]; intros st H; [ exact H | ].
  rewrite loop_cons. now apply IH, processRecord_not_dir.
Qed.

(** The run ends as soon as it could start: the index file is written. *)
Lemma downloadAudioclip_initial e rs fs st0 :
  initial e fs = Some st0 ->
  exists fs',
    writeMetaFile (files (loop e rs st0)) (metaFilePath_of e)
      (metaFile (loop e rs st0)) = Some fs'
    /\ downloadAudioclip e rs fs = Some (set_files fs' (loop e rs st0)).
Proof.
  intros Hinit. unfold downloadAudioclip. rewrite Hinit.
  cbn [mbind option_bind].
  apply initial_Some in Hinit as (_ & _ & _ & _ & Hdir).
  destruct (write_succeeds (files (loop e rs st0)) (metaFilePath_of e)
              (metaFile (loop e rs st0))) as [fs' Hfs'];
    [ now apply loop_not_dir | ].
  exists fs'. now rewrite Hfs'.
Qed.

(** ** The end-to-end scenario *)

Lemma path_resolve_inj dir a b :
  a <> EmptyString -> b <> EmptyString ->
  path_resolve dir a = path_resolve dir b -> a = b.
Proof.
  destruct a as [ | x a ], b as [ | y b ]; try congruence. intros _ _.
  cbn [path_resolve]. intros H.
  apply (inj (String.app dir)) in H. apply (inj (String.app "/")) in H.
  exact H.
Qed.

(** C6.  With the record [r1] (title [Test/Clip], start time 10, duration
    5), a resolver that returns a stream of 48000 Hz at
    [https://stream/abc.audio] for the record's URL and no file at the
    derived path, the run invokes the encoder once, on that stream with
    [-ss 10 -t 5 -vn -c:a libmp3lame], writing to the file named
    [r1-TestClip.mp3] (the sanitised name, its slash removed) in the
    working directory, where the file is when the encoder leaves it; the
    index gains exactly the entry keyed by that file name, with [refId]
    [r1], and is written to the index file. *)
Theorem end_to_end_scenario :
  forall e fs st0 vm,
    initial e fs = Some st0 ->
    getVideoMeta (ytdl e) 0 "https://host/abc" = Some vm ->
    vm_source_asr vm = JS.of_Z 48000 ->
    vm_source_url vm = "https://stream/abc.audio" ->
    existsSync (files st0) (path_resolve (tempDir_of e) "r1-TestClip.mp3")
    = false ->
    let savePath := path_resolve (tempDir_of e) "r1-TestClip.mp3" in
    let argv := [FFMPEG e; "-hide_banner"; "-nostdin";
                 "-i"; "https://stream/abc.audio";
                 "-ss"; "10"; "-t"; "5";
                 "-vn"; "-c:a"; "libmp3lame"; savePath] in
    exists st meta,
      downloadAudioclip e [Scenario.r1] fs = Some st
      /\ Sanitize.sanitizeFilename "r1-Test/Clip.mp3" = "r1-TestClip.mp3"
      /\ trace st = [Resolve "https://host/abc" (Some vm); Exec argv]
      /\ (forall content,
            encoder e 1 argv = Some content ->
            files st !! savePath = Some (File content))
      /\ resources (metaFile st)
         = <["r1-TestClip.mp3" := meta]> (resources (metaFile st0))
      /\ meta_refId meta = "r1"
      /\ meta_filename meta = "r1-TestClip.mp3"
      /\ loadMetaFile (files st) (metaFilePath_of e) = Some (metaFile st).
Proof.
  intros e fs st0 vm Hinit Hget Hasr Hurl Hfile savePath argv.
  destruct (downloadAudioclip_initial e [Scenario.r1] fs st0 Hinit)
    as (fs' & Hwrite & Hrun).
  apply initial_Some in Hinit as (Hcache & Htrace & Hgen & _ & _).
  assert (resolution e st0 Scenario.r1 = Some vm) as Hres.
  { unfold resolution, lookupVideoMeta. rewrite Hcache, lookup_empty, Htrace.
    exact Hget. }
  assert (deriveFilename Scenario.r1 = "r1-TestClip.mp3") as Hname
    by reflexivity.
  assert (savePath_of (tempDir_of e) Scenario.r1 = savePath) as Hpath
    by (unfold savePath_of; now rewrite Hname).
  assert (trace (resolved_state e st0 Scenario.r1 vm)
          = [Resolve "https://host/abc" (Some vm)]) as Htr.
  { rewrite (resolved_state_trace e st0 Scenario.r1 vm Hres).
    now rewrite Hcache, lookup_empty, Htrace. }
  assert (encode_argv e {| opt_url := vm_source_url vm;
                           opt_output := savePath;
                           opt_startTime := record_startTime Scenario.r1;
                           opt_duration := record_duration Scenario.r1 |}
          = argv) as Hargv.
  { unfold encode_argv.
    cbn [opt_url opt_output opt_startTime opt_duration].
    rewrite Hurl. reflexivity. }
  assert (loop e [Scenario.r1] st0
          = encodeAndIndex e Scenario.r1 vm "r1-TestClip.mp3" savePath
              (resolved_state e st0 Scenario.r1 vm)) as Hloop.
  { rewrite loop_cons. cbn [loop fold_left].
    rewrite (processRecord_encode e (tempDir_of e) st0 Scenario.r1 vm Hres)
      by now rewrite Hpath.
    now rewrite Hpath, Hname. }
  rewrite Hloop in Hwrite, Hrun.
  exists (set_files fs'
            (encodeAndIndex e Scenario.r1 vm "r1-TestClip.mp3" savePath
               (resolved_state e st0 Scenario.r1 vm))),
    (makeMeta (UUIDv4 e (generated st0)) Scenario.r1 vm "r1-TestClip.mp3").
  split; [ exact Hrun | ].
  split; [ reflexivity | ].
  cbn [set_files trace files metaFile].
  split; [ | split; [ | split; [ | split; [ | split ] ] ] ].
  - now rewrite encodeAndIndex_trace, Htr, Hargv.
  - intros content Henc.
    assert (fs' = <[metaFilePath_of e
                    := File (JSON.stringify
                               (Codec.encode_index
                                  (metaFile (encodeAndIndex e Scenario.r1 vm
                                     "r1-TestClip.mp3" savePath
                                     (resolved_state e st0 Scenario.r1 vm)))))]>
                    (files (encodeAndIndex e Scenario.r1 vm "r1-TestClip.mp3"
                              savePath (resolved_state e st0 Scenario.r1 vm))))
      as ->.
    { revert Hwrite. unfold writeMetaFile, writeFileSync.
      destruct (_ !! metaFilePath_of e) as [[ | c] | ]; now intros [= <-]. }
    rewrite lookup_insert_ne.
    + rewrite encodeAndIndex_files, Htr, Hargv. cbn [length].
      rewrite Henc. apply lookup_insert_eq.
    + unfold metaFilePath_of. subst savePath. intros Heq.
      apply path_resolve_inj in Heq; discriminate.
  - rewrite encodeAndIndex_metaFile. cbn [resources].
    now rewrite (resolved_state_metaFile e st0 Scenario.r1 vm Hres),
      (resolved_state_generated e st0 Scenario.r1 vm Hres).
  - reflexivity.
  - reflexivity.
  - now apply (load_after_write _ _ _ _ Hwrite).
Qed.

(** The scenario on an empty file system. *)
Lemma end_to_end_scenario_witness :
  let e := Scenario.env true in
  let savePath := path_resolve (tempDir_of e) "r1-TestClip.mp3" in
  let argv := [FFMPEG e; "-hide_banner"; "-nostdin";
               "-i"; "https://stream/abc.audio";
               "-ss"; "10"; "-t"; "5";
               "-vn"; "-c:a"; "libmp3lame"; savePath] in
  exists st meta,
    downloadAudioclip e [Scenario.r1] ∅ = Some st
    /\ Sanitize.sanitizeFilename "r1-Test/Clip.mp3" = "r1-TestClip.mp3"
    /\ trace st
       = [Resolve "https://host/abc" (Some Scenario.abc_meta); Exec argv]
    /\ (forall content,
          encoder e 1 argv = Some content ->
          files st !! savePath = Some (File content))
    /\ resources (metaFile st)
       = <["r1-TestClip.mp3" := meta]>
           (resources (metaFile (Scenario.start {[ "/app/.temp" := Dir ]}
                                   fresh_index)))
    /\ meta_refId meta = "r1"
    /\ meta_filename meta = "r1-TestClip.mp3"
    /\ loadMetaFile (files st) (metaFilePath_of e) = Some (metaFile st).
Proof.
  apply (end_to_end_scenario (Scenario.env true) ∅
           (Scenario.start {[ "/app/.temp" := Dir ]} fresh_index)
           Scenario.abc_meta).
  - vm_compute. reflexivity.
  - reflexivity.
  - reflexivity.
  - reflexivity.
  - vm_compute. reflexivity.
Defined.

(** * Further properties of the code *)

(** ** Which stream wins a tie *)

(** X1.  The stream that resolution returns is the earliest of the
    audio-carrying streams with the highest sample rate: every
    audio-carrying stream listed before it has a strictly lower rate (a
    missing one counting as 0) or a rate that is not a number, and none
    listed after it has a higher one. *)
Theorem earliest_of_the_best_streams_selected :
  forall p now url vm,
    getVideoMeta p now url = Some vm ->
    exists info pre best post,
      getInfo p now url = Some info
      /\ formats info = pre ++ best :: post
      /\ hasAudio best = true
      /\ JS.truthy (audioSampleRate best) = true
      /\ JS.ToNumber (StringToNumber p) (audioSampleRate best)
         = vm_source_asr vm
      /\ vm_source_url vm = format_url best
      /\ (forall g, g ∈ pre -> hasAudio g = true ->
            JS.is_nan (sampleRate p g) = true
            \/ JS.gt (vm_source_asr vm) (sampleRate p g) = true)
      /\ (forall g, g ∈ post -> hasAudio g = true ->
            JS.gt (sampleRate p g) (vm_source_asr vm) = false).
Proof.
  intros p now url vm H.
  apply getVideoMeta_Some in H as (_ & info & Hinfo & Hsel).
  apply selectFormat_Some in Hsel
    as (best & Hbest & Htruthy & Hasr & Hkey & Hurl & _).
  apply bestFormat_first in Hbest
    as (pre & post & Hsplit & Haudio & _ & Hpre & Hpost).
  rewrite Hkey in Hpre, Hpost.
  exists info, pre, best, post. repeat split; assumption.
Qed.

Lemma earliest_of_the_best_streams_selected_witness :
  exists info pre best post,
    getInfo Cases.tie_host 0 "https://host/tie" = Some info
    /\ formats info = pre ++ best :: post
    /\ hasAudio best = true
    /\ JS.truthy (audioSampleRate best) = true
    /\ JS.ToNumber (StringToNumber Cases.tie_host) (audioSampleRate best)
       = vm_source_asr Cases.tie_meta
    /\ vm_source_url Cases.tie_meta = format_url best
    /\ (forall g, g ∈ pre -> hasAudio g = true ->
          JS.is_nan (sampleRate Cases.tie_host g) = true
          \/ JS.gt (vm_source_asr Cases.tie_meta)
               (sampleRate Cases.tie_host g) = true)
    /\ (forall g, g ∈ post -> hasAudio g = true ->
          JS.gt (sampleRate Cases.tie_host g)
            (vm_source_asr Cases.tie_meta) = false).
Proof.
  apply (earliest_of_the_best_streams_selected Cases.tie_host 0%nat
           "https://host/tie" Cases.tie_meta).
  reflexivity.
Defined.

(** X18.  Stream resolution succeeds exactly when the URL parses, the
    request is answered, and the first of the audio-carrying streams with
    the highest rate (a missing rate counting as 0, a rate without numeric
    value being passed over) has a truthy rate; the metadata returned then
    carries the identity of the video and that stream's URL and rate,
    whatever the rate is: a stream whose rate is the string [0] resolves
    with the rate 0 when no rate is above 0. *)
Theorem resolution_succeeds_exactly_when :
  forall p now url vm,
    getVideoMeta p now url = Some vm <->
    is_Some (getURLVideoID p url)
    /\ exists info pre best post,
         getInfo p now url = Some info
         /\ formats info = pre ++ best :: post
         /\ hasAudio best = true
         /\ JS.truthy (audioSampleRate best) = true
         /\ JS.is_nan (JS.ToNumber (StringToNumber p) (audioSampleRate best))
            = false
         /\ (forall g, g ∈ pre -> hasAudio g = true ->
               JS.is_nan (sampleRate p g) = true
               \/ JS.gt (JS.ToNumber (StringToNumber p) (audioSampleRate best))
                    (sampleRate p g) = true)
         /\ (forall g, g ∈ post -> hasAudio g = true ->
               JS.gt (sampleRate p g)
                 (JS.ToNumber (StringToNumber p) (audioSampleRate best))
               = false)
         /\ vm = {| vm_id := videoId (videoDetails_of info);
                    vm_url := video_url (videoDetails_of info);
                    vm_title := details_title (videoDetails_of info);
                    vm_source_asr :=
                      JS.ToNumber (StringToNumber p) (audioSampleRate best);
                    vm_source_url := format_url best |}.
Proof.
  intros p now url vm. rewrite getVideoMeta_Some. split.
  - intros [Hid (info & Hinfo & Hsel)]. split; [ exact Hid | ].
    unfold selectFormat in Hsel.
    destruct (bestFormat p info) as [best | ] eqn:Hbest; [ | discriminate ].
    destruct (JS.truthy (audioSampleRate best)) eqn:Htruthy; [ | discriminate ].
    injection Hsel as <-.
    apply bestFormat_first in Hbest
      as (pre & post & Hsplit & Haudio & Hnan & Hpre & Hpost).
    rewrite (sampleRate_truthy p best Htruthy) in Hnan, Hpre, Hpost.
    exists info, pre, best, post. repeat split; assumption.
  - intros [Hid (info & pre & best & post & Hinfo & Hsplit & Haudio & Htruthy
                 & Hnan & Hpre & Hpost & ->)].
    split; [ exact Hid | ]. exists info. split; [ exact Hinfo | ].
    assert (bestFormat p info = Some best) as Hbest.
    { apply bestFormat_first. exists pre, post.
      rewrite (sampleRate_truthy p best Htruthy). auto. }
    unfold selectFormat. now rewrite Hbest, Htruthy.
Qed.

(** One audio stream whose rate is the string [0]: it resolves, with the
    rate 0. *)
Lemma resolution_succeeds_exactly_when_witness :
  getVideoMeta Cases.zero_host 0 "https://host/zero" = Some Cases.zero_meta.
Proof.
  apply (proj2 (resolution_succeeds_exactly_when Cases.zero_host 0%nat
                  "https://host/zero" Cases.zero_meta)).
  split; [ eexists; reflexivity | ].
  exists Cases.zero_info, [],
    {| hasAudio := true; audioSampleRate := JS.Str "0";
       format_url := "https://stream/zero.audio" |}, [].
  repeat split; try reflexivity; intros g Hg; inversion Hg.
Defined.

(** ** The derived file name *)

Lemma all_chars_forall P s :
  Sanitize.all_chars P s = true <->
  forall c, c ∈ list_ascii_of_string s -> P c = true.
Proof.
  unfold Sanitize.all_chars. rewrite forallb_forall.
  split; intros H c Hc; apply H; now apply list_elem_of_In.
Qed.

Lemma all_chars_cons P c s :
  Sanitize.all_chars P (String c s) = P c && Sanitize.all_chars P s.
Proof. reflexivity. Qed.

Lemma all_chars_remove_illegal s :
  Sanitize.all_chars (fun c => negb (Sanitize.illegal c))
    (Sanitize.remove_illegal s) = true.
Proof.
  apply all_chars_forall. intros c Hc. unfold Sanitize.remove_illegal in Hc.
  rewrite list_ascii_of_string_of_list_ascii in Hc.
  apply list_elem_of_In, filter_In in Hc. apply Hc.
Qed.

Lemma remove_control_bounded n : forall s,
  (String.length s <= n)%nat ->
  (forall P, Sanitize.all_chars P s = true ->
             Sanitize.all_chars P (Sanitize.remove_control s) = true)
  /\ Sanitize.all_chars (fun c => (31 <? Sanitize.code c)%nat)
       (Sanitize.remove_control s) = true.
Proof.
  induction n as [ | n IH ]; intros s Hn.
  - destruct s; [ split; auto | cbn in Hn; lia ].
  - destruct s as [ | c s ]; [ split; auto | ].
    cbn [String.length] in Hn.
    assert (String.length s <= n)%nat as Hs by lia.
    destruct (IH s Hs) as [Hkeep Hhigh].
    cbn [Sanitize.remove_control].
    destruct (Nat.leb_spec (Sanitize.code c) 31) as [Hlow | Hc].
    + split; [ | exact Hhigh ].
      intros P HP. rewrite all_chars_cons in HP.
      apply andb_true_iff in HP as [_ HP]. now apply Hkeep.
    + assert ((31 <? Sanitize.code c)%nat = true) as Hc'
        by now apply Nat.ltb_lt.
      destruct s as [ | d s' ].
      * split; [ auto | ]. rewrite all_chars_cons, Hc'. reflexivity.
      * destruct ((Sanitize.code c =? 194)%nat && (128 <=? Sanitize.code d)%nat
                  && (Sanitize.code d <=? 159)%nat).
        -- cbn [String.length] in Hs.
           destruct (IH s' ltac:(lia)) as [Hkeep' Hhigh'].
           split; [ | exact Hhigh' ].
           intros P HP. rewrite !all_chars_cons in HP.
           apply andb_true_iff in HP as [_ HP].
           apply andb_true_iff in HP as [_ HP]. now apply Hkeep'.
        -- split.
           ++ intros P HP. rewrite all_chars_cons in HP |- *.
              apply andb_true_iff in HP as [-> HP]. now apply Hkeep.
           ++ rewrite all_chars_cons, Hc'. exact Hhigh.
Qed.

Lemma all_chars_remove_control P s :
  Sanitize.all_chars P s = true ->
  Sanitize.all_chars P (Sanitize.remove_control s) = true.
Proof. apply (remove_control_bounded (String.length s) s); lia. Qed.

Lemma remove_control_high s :
  Sanitize.all_chars (fun c => (31 <? Sanitize.code c)%nat)
    (Sanitize.remove_control s) = true.
Proof. apply (remove_control_bounded (String.length s) s); lia. Qed.

Lemma all_chars_remove_reserved P s :
  Sanitize.all_chars P s = true ->
  Sanitize.all_chars P (Sanitize.remove_reserved s) = true.
Proof.
  unfold Sanitize.remove_reserved. destruct s; [ auto | ].
  destruct (Sanitize.all_chars Sanitize.is_dot _); auto.
Qed.

Lemma all_chars_remove_windows_reserved P s :
  Sanitize.all_chars P s = true ->
  Sanitize.all_chars P (Sanitize.remove_windows_reserved s) = true.
Proof.
  unfold Sanitize.remove_windows_reserved.
  destruct (Sanitize.strip_device s) as [[ | c r] | ]; auto.
  destruct (Sanitize.is_dot c && negb (Sanitize.has_line_terminator r)); auto.
Qed.

Lemma all_chars_remove_trailing P s :
  Sanitize.all_chars P s = true ->
  Sanitize.all_chars P (Sanitize.remove_trailing s) = true.
Proof.
  induction s as [ | c s IH ]; [ auto | ].
  cbn [Sanitize.remove_trailing].
  destruct (Sanitize.all_chars Sanitize.dot_or_space (String c s)); [ auto | ].
  rewrite !all_chars_cons. intros H.
  apply andb_true_iff in H as [-> H]. now apply IH.
Qed.

Lemma all_chars_substring P n : forall s,
  Sanitize.all_chars P s = true ->
  Sanitize.all_chars P (String.substring 0 n s) = true.
Proof.
  induction n as [ | n IH ]; intros [ | c s ]; cbn [String.substring]; auto.
  rewrite !all_chars_cons. intros H.
  apply andb_true_iff in H as [-> H]. now apply IH.
Qed.

Lemma length_substring n : forall s,
  (String.length (String.substring 0 n s) <= n)%nat.
Proof.
  induction n as [ | n IH ]; intros [ | c s ]; cbn [String.substring String.length];
    try lia.
  specialize (IH s). lia.
Qed.

Lemma cut_substring n s :
  exists k, (k <= n)%nat /\ Sanitize.cut n s = String.substring 0 k s.
Proof.
  induction n as [ | n IH ]; [ exists 0%nat; split; [ lia | reflexivity ] | ].
  cbn [Sanitize.cut].
  destruct (String.get (S n) s) as [c | ];
    [ destruct (Sanitize.continuation c) | ];
    try (exists (S n); split; [ lia | reflexivity ]).
  destruct IH as (k & Hk & ->). exists k. split; [ lia | reflexivity ].
Qed.

Lemma all_chars_truncate P s n :
  Sanitize.all_chars P s = true ->
  Sanitize.all_chars P (Sanitize.truncate s n) = true.
Proof.
  unfold Sanitize.truncate. destruct (String.length s <=? n)%nat; [ auto | ].
  destruct (cut_substring n s) as (k & _ & ->). apply all_chars_substring.
Qed.

Lemma all_chars_sanitize_tail P s :
  Sanitize.all_chars P s = true ->
  Sanitize.all_chars P
    (Sanitize.truncate
       (Sanitize.remove_trailing
          (Sanitize.remove_windows_reserved (Sanitize.remove_reserved s)))
       255) = true.
Proof.
  intros H.
  now apply all_chars_truncate, all_chars_remove_trailing,
    all_chars_remove_windows_reserved, all_chars_remove_reserved.
Qed.

(** X2.  The file name derived for a record holds none of the characters
    slash, backslash, question mark, angle brackets, colon, asterisk,
    vertical bar and double quote, and no control character below
    U+0020, whatever the record's id and title are. *)
Theorem derived_name_has_no_illegal_character :
  forall record c,
    c ∈ list_ascii_of_string (deriveFilename record) ->
    Sanitize.illegal c = false
    /\ c <> "/"%char /\ c <> "\"%char
    /\ (31 < Sanitize.code c)%nat.
Proof.
  intros record c Hc. unfold deriveFilename, Sanitize.sanitizeFilename in Hc.
  set (input := record_id record +:+ "-" +:+ record_title record +:+ ".mp3") in Hc.
  assert (Sanitize.illegal c = false) as Hlegal.
  { pose proof (all_chars_sanitize_tail _ _
      (all_chars_remove_control _ _ (all_chars_remove_illegal input))) as H.
    rewrite all_chars_forall in H. specialize (H c Hc).
    now apply negb_true_iff in H. }
  split; [ exact Hlegal | ].
  split; [ intros ->; discriminate | ].
  split; [ intros ->; discriminate | ].
  pose proof (all_chars_sanitize_tail _ _
    (remove_control_high (Sanitize.remove_illegal input))) as H.
  rewrite all_chars_forall in H. specialize (H c Hc).
  now apply Nat.ltb_lt in H.
Qed.

(** The name derived for a title full of separators. *)
Lemma derived_name_has_no_illegal_character_witness :
  Sanitize.illegal "C" = false
  /\ "C"%char <> "/"%char /\ "C"%char <> "\"%char
  /\ (31 < Sanitize.code "C")%nat.
Proof.
  apply (derived_name_has_no_illegal_character Scenario.r1 "C"%char).
  vm_compute. do 7 apply list_elem_of_further. apply list_elem_of_here.
Defined.

(** X3.  The file name derived for a record is at most 255 bytes long. *)
Theorem derived_name_at_most_255_bytes :
  forall record, (String.length (deriveFilename record) <= 255)%nat.
Proof.
  intros record. unfold deriveFilename, Sanitize.sanitizeFilename, Sanitize.truncate.
  destruct (Nat.leb_spec (String.length
    (Sanitize.remove_trailing
       (Sanitize.remove_windows_reserved
          (Sanitize.remove_reserved
             (Sanitize.remove_control
                (Sanitize.remove_illegal
                   (record_id record +:+ "-" +:+ record_title record +:+ ".mp3")))))))
    255) as [Hle | _]; [ exact Hle | ].
  destruct (cut_substring 255 (Sanitize.remove_trailing
       (Sanitize.remove_windows_reserved
          (Sanitize.remove_reserved
             (Sanitize.remove_control
                (Sanitize.remove_illegal
                   (record_id record +:+ "-" +:+ record_title record +:+ ".mp3")))))))
    as (k & Hk & ->).
  etransitivity; [ apply length_substring | exact Hk ].
Qed.

(** ** What the encoder call and the loop leave alone *)

Lemma existsSync_false (fs : gmap string node) path :
  existsSync fs path = false <-> fs !! path = None.
Proof.
  unfold existsSync. rewrite bool_decide_eq_false, <- eq_None_not_Some.
  reflexivity.
Qed.

Lemma existsSync_true (fs : gmap string node) path :
  existsSync fs path = true <-> is_Some (fs !! path).
Proof. unfold existsSync. apply bool_decide_eq_true. Qed.

Lemma processRecord_files_cases e tempDir st r :
  files (processRecord e tempDir st r) = files st
  \/ (files st !! savePath_of tempDir r = None
      /\ exists content,
           files (processRecord e tempDir st r)
           = <[savePath_of tempDir r := File content]> (files st)).
Proof.
  destruct (processRecord_outcomes e tempDir st r)
    as [[_ ->] | [(vm & Hres & _ & ->) | (vm & Hres & Hfile & ->)]].
  - now left.
  - left. now apply resolved_state_files.
  - rewrite encodeAndIndex_files, (resolved_state_files e st r vm Hres).
    destruct (encoder e _ _) as [content | ]; [ right | now left ].
    split; [ now apply existsSync_false | eauto ].
Qed.

(** X5.  The loop never deletes or overwrites a file: every file that
    exists before the loop is there after it with the same contents, and a
    file that appears during the loop lies at the save path of one of the
    records and is a file the encoder left. *)
Theorem loop_keeps_existing_files :
  forall e rs st,
    (forall path node,
       files st !! path = Some node ->
       files (loop e rs st) !! path = Some node)
    /\ (forall path,
          files st !! path = None ->
          is_Some (files (loop e rs st) !! path) ->
          exists r content,
            r ∈ rs /\ path = savePath_of (tempDir_of e) r
            /\ files (loop e rs st) !! path = Some (File content)).
Proof.
  intros e rs.
  assert (forall st path node,
            files st !! path = Some node ->
            files (loop e rs st) !! path = Some node) as Hkeep.
  { induction rs as [ | r rs IH ]; intros st path node H; [ exact H | ].
    rewrite loop_cons. apply IH.
    destruct (processRecord_files_cases e (tempDir_of e) st r)
      as [-> | (Hnone & content & ->)]; [ exact H | ].
    rewrite lookup_insert_ne; [ exact H | ]. intros <-. congruence. }
  intros st. split; [ apply Hkeep | ]. clear Hkeep. revert st.
  induction rs as [ | r rs IH ]; intros st path Hnone Hsome.
  - cbn in Hsome. rewrite Hnone in Hsome. now destruct Hsome.
  - rewrite loop_cons in Hsome |- *.
    destruct (files (processRecord e (tempDir_of e) st r) !! path)
      as [node | ] eqn:Hstep.
    + destruct (processRecord_files_cases e (tempDir_of e) st r)
        as [Heq | (_ & content & Heq)]; rewrite Heq in Hstep;
        [ congruence | ].
      destruct (decide (savePath_of (tempDir_of e) r = path)) as [<- | Hne];
        [ | rewrite lookup_insert_ne in Hstep by exact Hne; congruence ].
      rewrite lookup_insert_eq in Hstep. injection Hstep as <-.
      exists r, content. split; [ apply list_elem_of_here | ].
      split; [ reflexivity | ].
      assert (forall st' node,
                files st' !! savePath_of (tempDir_of e) r = Some node ->
                files (loop e rs st') !! savePath_of (tempDir_of e) r
                = Some node) as Hkeep.
      { clear. induction rs as [ | r' rs IH ]; intros st' node H; [ exact H | ].
        rewrite loop_cons. apply IH.
        destruct (processRecord_files_cases e (tempDir_of e) st' r')
          as [-> | (Hnone & content & ->)]; [ exact H | ].
        rewrite lookup_insert_ne; [ exact H | ]. intros Heq.
        rewrite Heq in Hnone. congruence. }
      apply Hkeep. rewrite Heq. apply lookup_insert_eq.
    + destruct (IH _ path Hstep Hsome) as (r' & content & Hin & Hpath & Hfile).
      exists r', content. split; [ now apply list_elem_of_further | auto ].
Qed.

Lemma initial_files e fs st0 :
  initial e fs = Some st0 ->
  files st0 = if existsSync fs (tempDir_of e) then fs
              else <[tempDir_of e := Dir]> fs.
Proof.
  unfold initial.
  destruct (loadMetaFile _ (metaFilePath_of e)); [ | discriminate ].
  now intros [= <-].
Qed.

Lemma writeMetaFile_Some fs path index fs' :
  writeMetaFile fs path index = Some fs' ->
  fs' = <[path := File (JSON.stringify (Codec.encode_index index))]> fs.
Proof.
  unfold writeMetaFile, writeFileSync.
  destruct (fs !! path) as [[ | content] | ]; now intros [= <-].
Qed.

(** ** Counting what a run does *)

Lemma execs_snoc t ev :
  execs (t ++ [ev]) = (execs t + if is_exec ev then 1 else 0)%nat.
Proof.
  unfold execs. rewrite List.filter_app, length_app. cbn.
  now destruct (is_exec ev).
Qed.

Lemma resolves_snoc t ev :
  resolves (t ++ [ev]) = (resolves t + if is_exec ev then 0 else 1)%nat.
Proof.
  unfold resolves. rewrite List.filter_app, length_app. cbn.
  now destruct (is_exec ev).
Qed.

Lemma resolved_state_counts e st r vm :
  resolution e st r = Some vm ->
  execs (trace (resolved_state e st r vm)) = execs (trace st)
  /\ (resolves (trace (resolved_state e st r vm)) <= S (resolves (trace st)))%nat.
Proof.
  intros Hres. rewrite (resolved_state_trace e st r vm Hres).
  destruct (videoMetaCache st !! record_videoUrl r); [ split; [ reflexivity | lia ] | ].
  rewrite execs_snoc, resolves_snoc. cbn [is_exec]. lia.
Qed.

Lemma processRecord_counts e tempDir st r :
  let st' := processRecord e tempDir st r in
  (execs (trace st') + generated st = execs (trace st) + generated st')%nat
  /\ (generated st' <= S (generated st))%nat
  /\ (resolves (trace st') <= S (resolves (trace st)))%nat
  /\ (size (resources (metaFile st')) + generated st
      <= size (resources (metaFile st)) + generated st')%nat.
Proof.
  intros st'. subst st'.
  destruct (processRecord_outcomes e tempDir st r)
    as [[_ ->] | [(vm & Hres & _ & ->) | (vm & Hres & _ & ->)]].
  - cbn [log_event trace generated metaFile].
    rewrite execs_snoc, resolves_snoc. cbn [is_exec]. lia.
  - destruct (resolved_state_counts e st r vm Hres) as [-> Hr].
    rewrite resolved_state_generated, resolved_state_metaFile by assumption. lia.
  - rewrite encodeAndIndex_trace, encodeAndIndex_generated,
      encodeAndIndex_metaFile, execs_snoc, resolves_snoc.
    cbn [is_exec resources].
    destruct (resolved_state_counts e st r vm Hres) as [-> Hr].
    rewrite resolved_state_generated, resolved_state_metaFile by assumption.
    rewrite map_size_insert.
    destruct (resources (metaFile st) !! deriveFilename r); unfold id; lia.
Qed.

(** X7.  In the loop every encoder run is paired with one generated
    identifier and the other way round; there is at most one encoder run
    and at most one provider call for each record; and the index grows by
    at most one entry for each encoder run. *)
Theorem loop_counts :
  forall e rs st,
    let st' := loop e rs st in
    (execs (trace st') + generated st = execs (trace st) + generated st')%nat
    /\ (execs (trace st') <= execs (trace st) + length rs)%nat
    /\ (resolves (trace st') <= resolves (trace st) + length rs)%nat
    /\ (size (resources (metaFile st')) + execs (trace st)
        <= size (resources (metaFile st)) + execs (trace st'))%nat.
Proof.
  intros e rs.
  assert (forall st,
            (execs (trace (loop e rs st)) + generated st
             = execs (trace st) + generated (loop e rs st))%nat
            /\ (generated (loop e rs st) <= generated st + length rs)%nat
            /\ (resolves (trace (loop e rs st))
                <= resolves (trace st) + length rs)%nat
            /\ (size (resources (metaFile (loop e rs st))) + generated st
                <= size (resources (metaFile st)) + generated (loop e rs st))%nat)
    as H.
  { induction rs as [ | r rs IH ]; intros st; [ cbn; lia | ].
    rewrite loop_cons. cbn [length].
    destruct (IH (processRecord e (tempDir_of e) st r)) as (H1 & H2 & H3 & H4).
    destruct (processRecord_counts e (tempDir_of e) st r) as (S1 & S2 & S3 & S4).
    pose proof (processRecord_generated e (tempDir_of e) st r).
    lia. }
  intros st st'. subst st'. destruct (H st) as (H1 & H2 & H3 & H4).
  pose proof (loop_generated e rs st). lia.
Qed.

(** ** The shape of the index *)

(** X8.  The loop keeps the version tag of the index; when every entry
    it starts with is stored under its own file name, so is every entry it
    ends with; and a key of the index after the loop is a key it had
    before or the derived file name of one of the records. *)
Theorem loop_keeps_index_shape :
  forall e rs st,
    v (metaFile (loop e rs st)) = v (metaFile st)
    /\ (keyed_by_filename (metaFile st) ->
        keyed_by_filename (metaFile (loop e rs st)))
    /\ (forall key,
          is_Some (resources (metaFile (loop e rs st)) !! key) ->
          is_Some (resources (metaFile st) !! key)
          \/ exists r, r ∈ rs /\ key = deriveFilename r).
Proof.
  intros e rs. induction rs as [ | r rs IH ]; intros st.
  - split; [ reflexivity | ]. split; [ auto | ]. intros key H. now left.
  - rewrite loop_cons.
    destruct (IH (processRecord e (tempDir_of e) st r)) as (Hv & Hkeyed & Hkeys).
    split; [ | split ].
    + rewrite Hv.
      destruct (processRecord_outcomes e (tempDir_of e) st r)
        as [[_ ->] | [(vm & Hres & _ & ->) | (vm & Hres & _ & ->)]];
        [ reflexivity | now rewrite resolved_state_metaFile | ].
      rewrite encodeAndIndex_metaFile. cbn [v].
      now rewrite resolved_state_metaFile.
    + intros H. apply Hkeyed. intros key m Hm.
      destruct (processRecord_entry e (tempDir_of e) st r key)
        as [Hsame | (-> & _ & vm & _ & Hnew)].
      * apply H. congruence.
      * rewrite Hnew in Hm. now injection Hm as <-.
    + intros key H. destruct (Hkeys key H) as [Hstep | (r' & Hin & ->)].
      * destruct (processRecord_entry e (tempDir_of e) st r key)
          as [Hsame | (-> & _)].
        -- left. congruence.
        -- right. exists r. split; [ apply list_elem_of_here | reflexivity ].
      * right. exists r'. split; [ now apply list_elem_of_further | reflexivity ].
Qed.

(** The loop over two colliding records from the fresh index. *)
Lemma loop_keeps_index_shape_witness :
  keyed_by_filename
    (metaFile (loop (Scenario.env false) [Scenario.c1; Scenario.c2]
                 (Scenario.start ∅ fresh_index))).
Proof.
  apply (proj1 (proj2 (loop_keeps_index_shape (Scenario.env false)
                         [Scenario.c1; Scenario.c2]
                         (Scenario.start ∅ fresh_index)))).
  intros key m H. cbn in H. rewrite lookup_empty in H. discriminate.
Defined.

(** ** Running again *)

Lemma loop_all_present e rs : forall st,
  (forall r, r ∈ rs ->
     existsSync (files st) (savePath_of (tempDir_of e) r) = true) ->
  files (loop e rs st) = files st
  /\ metaFile (loop e rs st) = metaFile st
  /\ execs (trace (loop e rs st)) = execs (trace st).
Proof.
  induction rs as [ | r rs IH ]; intros st H; [ repeat split | ].
  rewrite loop_cons.
  destruct (processRecord_present_untouched e (tempDir_of e) st r)
    as (Hf & Hm & Hx); [ apply H, list_elem_of_here | ].
  destruct (IH (processRecord e (tempDir_of e) st r)) as (Hf' & Hm' & Hx').
  { intros r' Hr'. rewrite Hf. apply H. now apply list_elem_of_further. }
  rewrite Hf', Hm', Hx', Hf, Hm. unfold execs. now rewrite Hx.
Qed.

Lemma tempDir_of_dirname e e' :
  dirname e' = dirname e ->
  tempDir_of e' = tempDir_of e /\ metaFilePath_of e' = metaFilePath_of e.
Proof. unfold metaFilePath_of, tempDir_of. now intros ->. Qed.

Lemma loop_other_environment e e' rs st :
  dirname e' = dirname e ->
  (forall r, r ∈ rs ->
     existsSync (files st) (savePath_of (tempDir_of e) r) = true) ->
  files (loop e' rs st) = files st
  /\ metaFile (loop e' rs st) = metaFile st
  /\ execs (trace (loop e' rs st)) = execs (trace st).
Proof.
  intros Hdir H. apply loop_all_present.
  destruct (tempDir_of_dirname e e' Hdir) as [-> _]. exact H.
Qed.

(** X9.  When after a run the file of every record is on disk, running
    again over the same records, whatever the provider and the encoder
    then are, invokes the encoder for no record and leaves the disk and
    the index exactly as the first run left them. *)
Theorem second_run_changes_nothing :
  forall e e' rs fs st0,
    initial e fs = Some st0 ->
    dirname e' = dirname e ->
    (forall r, r ∈ rs ->
       existsSync (files (loop e rs st0)) (savePath_of (tempDir_of e) r)
       = true) ->
    exists st1 st2,
      downloadAudioclip e rs fs = Some st1
      /\ downloadAudioclip e' rs (files st1) = Some st2
      /\ files st2 = files st1
      /\ metaFile st2 = metaFile st1
      /\ execs (trace st2) = 0%nat.
Proof.
  intros e e' rs fs st0 Hinit Hdir Hall.
  destruct (downloadAudioclip_initial e rs fs st0 Hinit) as (fs1 & Hwrite & Hrun).
  pose proof (load_after_write _ _ _ _ Hwrite) as Hload.
  pose proof (writeMetaFile_lookup _ _ _ _ Hwrite) as Hmeta.
  pose proof (writeMetaFile_Some _ _ _ _ Hwrite) as Hfs1.
  destruct (tempDir_of_dirname e e' Hdir) as [Htemp Hpath].
  set (index := metaFile (loop e rs st0)) in *.
  assert (existsSync fs1 (tempDir_of e) = true) as Hexists.
  { rewrite Hfs1. apply existsSync_insert, loop_files.
    rewrite (initial_files e fs st0 Hinit).
    destruct (existsSync fs (tempDir_of e)) eqn:Hd; [ exact Hd | ].
    apply existsSync_true. rewrite lookup_insert_eq. eauto. }
  set (s0 := {| files := fs1; videoMetaCache := ∅; metaFile := index;
                trace := []; generated := 0 |}).
  assert (initial e' fs1 = Some s0) as Hinit'.
  { unfold initial. rewrite Htemp, Hpath, Hexists, Hload. reflexivity. }
  destruct (loop_other_environment e e' rs s0 Hdir) as (Hf & Hm & Hx).
  { intros r Hr. cbn [s0 files]. rewrite Hfs1.
    now apply existsSync_insert, Hall. }
  exists (set_files fs1 (loop e rs st0)),
    (set_files fs1 (loop e' rs s0)).
  split; [ exact Hrun | ].
  split.
  - cbn [set_files files]. unfold downloadAudioclip. rewrite Hinit'.
    cbn [mbind option_bind]. rewrite Hf, Hm, Hpath. cbn [s0 files metaFile].
    unfold writeMetaFile, writeFileSync. rewrite Hmeta.
    cbn [mbind option_bind]. do 2 f_equal. fold index.
    now apply insert_id.
  - cbn [set_files files metaFile trace]. rewrite Hm, Hx. repeat split.
Qed.

(** Two runs over [r1] with an encoder that leaves its file. *)
Lemma second_run_changes_nothing_witness :
  let e := Scenario.env true in
  exists st1 st2,
    downloadAudioclip e [Scenario.r1] ∅ = Some st1
    /\ downloadAudioclip (with_encoder (fun _ _ => None) e) [Scenario.r1]
         (files st1) = Some st2
    /\ files st2 = files st1
    /\ metaFile st2 = metaFile st1
    /\ execs (trace st2) = 0%nat.
Proof.
  apply (second_run_changes_nothing (Scenario.env true)
           (with_encoder (fun _ _ => None) (Scenario.env true))
           [Scenario.r1] ∅
           (Scenario.start {[ "/app/.temp" := Dir ]} fresh_index)).
  - vm_compute. reflexivity.
  - reflexivity.
  - intros r Hr. apply list_elem_of_singleton in Hr. subst r.
    vm_compute. reflexivity.
Defined.

(** ** What a run with a working provider and encoder achieves *)

Lemma length_append (a b : string) :
  String.length (a +:+ b) = (String.length a + String.length b)%nat.
Proof.
  induction a as [ | c a IH ]; [ reflexivity | ].
  rewrite JSONFacts.append_cons. cbn [String.length]. now rewrite IH.
Qed.

Lemma path_resolve_injective dir a b :
  path_resolve dir a = path_resolve dir b -> a = b.
Proof.
  destruct a as [ | x a ], b as [ | y b ]; cbn [path_resolve]; intros H.
  - reflexivity.
  - apply (f_equal String.length) in H. rewrite !length_append in H.
    cbn [String.length] in H. lia.
  - apply (f_equal String.length) in H. rewrite !length_append in H.
    cbn [String.length] in H. lia.
  - apply (inj (String.app dir)) in H. apply (inj (String.app "/")) in H.
    exact H.
Qed.

Lemma loop_entry_retained e rs : forall st key m,
  resources (metaFile st) !! key = Some m ->
  existsSync (files st) (path_resolve (tempDir_of e) key) = true ->
  resources (metaFile (loop e rs st)) !! key = Some m.
Proof.
  induction rs as [ | r rs IH ]; intros st key m Hm Hfile; [ exact Hm | ].
  rewrite loop_cons. apply IH.
  - destruct (processRecord_entry e (tempDir_of e) st r key)
      as [-> | (-> & Hmissing & _)]; [ exact Hm | ].
    unfold savePath_of in Hmissing. congruence.
  - now apply processRecord_files.
Qed.

Lemma resolution_succeeds e st r :
  is_Some (getVideoMeta (ytdl e) (length (trace st)) (record_videoUrl r)) ->
  is_Some (resolution e st r).
Proof.
  unfold resolution, lookupVideoMeta.
  destruct (videoMetaCache st !! record_videoUrl r); cbn [fst]; eauto.
Qed.

(** One record with a provider that resolves it and an encoder that leaves
    its file: the file exists afterwards, and when it was missing the
    record has its entry. *)
Lemma processRecord_materialises e st r :
  is_Some (getVideoMeta (ytdl e) (length (trace st)) (record_videoUrl r)) ->
  (forall now argv, is_Some (encoder e now argv)) ->
  let st' := processRecord e (tempDir_of e) st r in
  existsSync (files st') (savePath_of (tempDir_of e) r) = true
  /\ (existsSync (files st) (savePath_of (tempDir_of e) r) = false ->
      exists m, resources (metaFile st') !! deriveFilename r = Some m
                /\ meta_refId m = record_id r
                /\ meta_filename m = deriveFilename r).
Proof.
  intros Hget Henc st'. subst st'.
  destruct (resolution_succeeds e st r Hget) as [vm Hres].
  destruct (existsSync (files st) (savePath_of (tempDir_of e) r)) eqn:Hfile.
  - split; [ | discriminate ]. now apply processRecord_files.
  - rewrite (processRecord_encode e (tempDir_of e) st r vm Hres Hfile).
    split.
    + rewrite encodeAndIndex_files.
      destruct (Henc (length (trace (resolved_state e st r vm)))
                  (encode_argv e
                     {| opt_url := vm_source_url vm;
                        opt_output := savePath_of (tempDir_of e) r;
                        opt_startTime := record_startTime r;
                        opt_duration := record_duration r |}))
        as [content ->].
      apply existsSync_true. rewrite lookup_insert_eq. eauto.
    + intros _. rewrite encodeAndIndex_metaFile. cbn [resources].
      rewrite lookup_insert_eq. eexists. split; [ reflexivity | ]. split; reflexivity.
Qed.

(** X10.  With a provider that resolves the URL of every record whenever
    asked and an encoder that always leaves its output file, after the
    loop the file of every record is on disk, and every record whose file
    was missing before the loop has an index entry under its derived file
    name; the entry carries that file name and the id of a record that
    derives it (the record itself when no other record derives the same
    name). *)
Theorem loop_materialises_every_record :
  forall e rs st,
    (forall r now, r ∈ rs ->
       is_Some (getVideoMeta (ytdl e) now (record_videoUrl r))) ->
    (forall now argv, is_Some (encoder e now argv)) ->
    forall r, r ∈ rs ->
      existsSync (files (loop e rs st)) (savePath_of (tempDir_of e) r) = true
      /\ (existsSync (files st) (savePath_of (tempDir_of e) r) = false ->
          exists r' m,
            r' ∈ rs /\ deriveFilename r' = deriveFilename r
            /\ resources (metaFile (loop e rs st)) !! deriveFilename r = Some m
            /\ meta_refId m = record_id r'
            /\ meta_filename m = deriveFilename r).
Proof.
  intros e rs st Hget Henc. revert st.
  induction rs as [ | r0 rs IH ]; intros st r Hr; [ inversion Hr | ].
  rewrite loop_cons.
  assert (Hget0 :
    is_Some (getVideoMeta (ytdl e) (length (trace st)) (record_videoUrl r0)))
    by (apply Hget, list_elem_of_here).
  destruct (processRecord_materialises e st r0 Hget0 Henc) as [Hfile0 Hentry0].
  assert (Hhead :
    existsSync (files st) (savePath_of (tempDir_of e) r0) = false ->
    exists m,
      resources (metaFile (loop e rs (processRecord e (tempDir_of e) st r0)))
        !! deriveFilename r0 = Some m
      /\ meta_refId m = record_id r0 /\ meta_filename m = deriveFilename r0).
  { intros Hmissing. destruct (Hentry0 Hmissing) as (m & Hm & Hid & Hname).
    exists m. split; [ | auto ]. now apply loop_entry_retained. }
  specialize (IH (fun r now Hin => Hget r now (list_elem_of_further _ _ _ Hin))).
  apply elem_of_cons in Hr as [-> | Hr].
  - split; [ now apply loop_files | ].
    intros Hmissing. destruct (Hhead Hmissing) as (m & Hm & Hid & Hname).
    exists r0, m. split; [ apply list_elem_of_here | auto ].
  - destruct (IH (processRecord e (tempDir_of e) st r0) r Hr) as [Hfile Hentry].
    split; [ exact Hfile | ]. intros Hmissing.
    destruct (existsSync (files (processRecord e (tempDir_of e) st r0))
                (savePath_of (tempDir_of e) r)) eqn:Hstep.
    + assert (deriveFilename r0 = deriveFilename r
              /\ existsSync (files st) (savePath_of (tempDir_of e) r0) = false)
        as [Hsame Hmissing0].
      { apply existsSync_true in Hstep. apply existsSync_false in Hmissing.
        destruct (processRecord_files_cases e (tempDir_of e) st r0)
          as [Heq | (Hnone & content & Heq)]; rewrite Heq in Hstep.
        - rewrite Hmissing in Hstep. now destruct Hstep.
        - destruct (decide (savePath_of (tempDir_of e) r0
                            = savePath_of (tempDir_of e) r)) as [Hp | Hp].
          + split; [ now apply path_resolve_injective in Hp | ].
            now apply existsSync_false.
          + rewrite lookup_insert_ne, Hmissing in Hstep by exact Hp.
            now destruct Hstep. }
      destruct (Hhead Hmissing0) as (m & Hm & Hid & Hname).
      exists r0, m. rewrite <- Hsame.
      split; [ apply list_elem_of_here | auto ].
    + destruct (Hentry eq_refl) as (r' & m & Hin & Hrest).
      exists r', m. split; [ now apply list_elem_of_further | exact Hrest ].
Qed.

(** The two colliding records: both files are the one file, and the entry
    is the first record's. *)
Lemma loop_materialises_every_record_witness :
  let e := Scenario.env true in
  let st := Scenario.start ∅ fresh_index in
  let rs := [Scenario.c1; Scenario.c2] in
  existsSync (files (loop e rs st)) (savePath_of (tempDir_of e) Scenario.c2)
  = true
  /\ (existsSync (files st) (savePath_of (tempDir_of e) Scenario.c2) = false ->
      exists r' m,
        r' ∈ rs /\ deriveFilename r' = deriveFilename Scenario.c2
        /\ resources (metaFile (loop e rs st)) !! deriveFilename Scenario.c2
           = Some m
        /\ meta_refId m = record_id r'
        /\ meta_filename m = deriveFilename Scenario.c2).
Proof.
  apply (loop_materialises_every_record (Scenario.env true)
           [Scenario.c1; Scenario.c2] (Scenario.start ∅ fresh_index)).
  - intros r now Hr.
    apply elem_of_cons in Hr as [-> | Hr];
      [ | apply list_elem_of_singleton in Hr; subst r ];
      eexists; reflexivity.
  - intros now argv. eexists. reflexivity.
  - apply list_elem_of_further, list_elem_of_here.
Defined.

(** ** The resolution cache *)

Lemma processRecord_cache_cases e tempDir st r :
  videoMetaCache (processRecord e tempDir st r) = videoMetaCache st
  \/ (videoMetaCache st !! record_videoUrl r = None
      /\ exists vm,
           getVideoMeta (ytdl e) (length (trace st)) (record_videoUrl r)
           = Some vm
           /\ videoMetaCache (processRecord e tempDir st r)
              = <[record_videoUrl r := vm]> (videoMetaCache st)).
Proof.
  assert (forall vm, resolution e st r = Some vm ->
            videoMetaCache (resolved_state e st r vm) = videoMetaCache st
            \/ (videoMetaCache st !! record_videoUrl r = None
                /\ getVideoMeta (ytdl e) (length (trace st)) (record_videoUrl r)
                   = Some vm
                /\ videoMetaCache (resolved_state e st r vm)
                   = <[record_videoUrl r := vm]> (videoMetaCache st))) as Hr.
  { intros vm Hres.
    destruct (resolved_state_cases e st r vm Hres) as [[_ ->] | (Hc & Hget & ->)];
      [ now left | right; auto ]. }
  destruct (processRecord_outcomes e tempDir st r)
    as [[_ ->] | [(vm & Hres & _ & ->) | (vm & Hres & _ & ->)]].
  - now left.
  - destruct (Hr vm Hres) as [-> | (Hc & Hget & ->)]; [ now left | right; eauto ].
  - change (videoMetaCache (encodeAndIndex e r vm (deriveFilename r)
                              (savePath_of tempDir r) (resolved_state e st r vm)))
      with (videoMetaCache (resolved_state e st r vm)).
    destruct (Hr vm Hres) as [-> | (Hc & Hget & ->)]; [ now left | right; eauto ].
Qed.

(** X11.  The cache only grows during the loop: an entry it holds is
    never dropped or replaced, and an entry it gains is, for the URL of one
    of the records, the metadata the provider returned for that URL at
    some call. *)
Theorem cache_only_grows :
  forall e rs st,
    (forall url vm,
       videoMetaCache st !! url = Some vm ->
       videoMetaCache (loop e rs st) !! url = Some vm)
    /\ (forall url vm,
          videoMetaCache (loop e rs st) !! url = Some vm ->
          videoMetaCache st !! url = Some vm
          \/ (videoMetaCache st !! url = None
              /\ exists r now,
                   r ∈ rs /\ record_videoUrl r = url
                   /\ getVideoMeta (ytdl e) now url = Some vm)).
Proof.
  intros e rs. induction rs as [ | r rs IH ]; intros st.
  - split; [ auto | ]. intros url vm H. now left.
  - rewrite loop_cons.
    destruct (IH (processRecord e (tempDir_of e) st r)) as [Hkeep Hnew].
    split.
    + intros url vm H. now apply Hkeep, processRecord_cache.
    + intros url vm H.
      destruct (processRecord_cache_cases e (tempDir_of e) st r)
        as [Heq | (Hnone & vm' & Hget & Heq)].
      * destruct (Hnew url vm H) as [Hold | (Hmiss & r' & now & Hin & Hrest)];
          rewrite Heq in *.
        -- now left.
        -- destruct (videoMetaCache st !! url) eqn:Hst; [ discriminate | ].
           right. split; [ reflexivity | ].
           exists r', now. split; [ now apply list_elem_of_further | exact Hrest ].
      * destruct (decide (record_videoUrl r = url)) as [<- | Hne].
        -- right. split; [ exact Hnone | ].
           exists r, (length (trace st)).
           split; [ apply list_elem_of_here | ]. split; [ reflexivity | ].
           assert (videoMetaCache (processRecord e (tempDir_of e) st r)
                   !! record_videoUrl r = Some vm') as Hstep
             by (rewrite Heq; apply lookup_insert_eq).
           apply Hkeep in Hstep. congruence.
        -- destruct (Hnew url vm H) as [Hold | (Hmiss & r' & now & Hin & Hrest)];
             rewrite Heq, lookup_insert_ne in * by exact Hne.
           ++ now left.
           ++ right. split; [ exact Hmiss | ].
              exists r', now. split; [ now apply list_elem_of_further | exact Hrest ].
Qed.

(** ** A record without a file name *)

(** X14.  A record whose derived file name is empty (the sanitiser empties
    a name that starts with a device name and a dot) has the working
    directory as its save path; in a run the working directory exists, so
    such a record is always skipped: no encoder run, no file, no index
    entry. *)
Theorem record_without_name_is_skipped :
  forall e fs st0 rs r,
    initial e fs = Some st0 ->
    deriveFilename r = "" ->
    let st := loop e rs st0 in
    let st' := processRecord e (tempDir_of e) st r in
    savePath_of (tempDir_of e) r = tempDir_of e
    /\ files st' = files st
    /\ metaFile st' = metaFile st
    /\ execs (trace st') = execs (trace st).
Proof.
  intros e fs st0 rs r Hinit Hname st st'. subst st st'.
  assert (savePath_of (tempDir_of e) r = tempDir_of e) as Hpath
    by (unfold savePath_of; now rewrite Hname).
  split; [ exact Hpath | ].
  destruct (processRecord_present_untouched e (tempDir_of e) (loop e rs st0) r)
    as (Hf & Hm & Hx).
  - rewrite Hpath. apply loop_files. rewrite (initial_files e fs st0 Hinit).
    destruct (existsSync fs (tempDir_of e)) eqn:Hd; [ exact Hd | ].
    apply existsSync_true. rewrite lookup_insert_eq. eauto.
  - unfold execs. now rewrite Hf, Hm, Hx.
Qed.

(** The record with id [nul.7] after a run over [r1]. *)
Lemma record_without_name_is_skipped_witness :
  let e := Scenario.env true in
  let st := loop e [Scenario.r1]
              (Scenario.start {[ "/app/.temp" := Dir ]} fresh_index) in
  let st' := processRecord e (tempDir_of e) st Cases.device_record in
  savePath_of (tempDir_of e) Cases.device_record = tempDir_of e
  /\ files st' = files st
  /\ metaFile st' = metaFile st
  /\ execs (trace st') = execs (trace st).
Proof.
  apply (record_without_name_is_skipped (Scenario.env true) ∅
           (Scenario.start {[ "/app/.temp" := Dir ]} fresh_index)
           [Scenario.r1] Cases.device_record).
  - vm_compute. reflexivity.
  - vm_compute. reflexivity.
Defined.

(** ** Names the sanitiser keeps *)

Lemma plain_facts c :
  plain c = true ->
  Sanitize.illegal c = false
  /\ (Sanitize.code c <=? 31)%nat = false
  /\ (Sanitize.code c =? 194)%nat = false
  /\ Sanitize.is_dot c = false
  /\ Sanitize.dot_or_space c = false.
Proof.
  destruct c as [[] [] [] [] [] [] [] []]; intros H; vm_compute in H;
    try discriminate H; repeat split; reflexivity.
Qed.

Lemma is_dash_lower c : is_dash (Sanitize.lower c) = is_dash c.
Proof. destruct c as [[] [] [] [] [] [] [] []]; reflexivity. Qed.

Lemma is_digit_not_dash c : Sanitize.is_digit c = true -> is_dash c = false.
Proof.
  destruct c as [[] [] [] [] [] [] [] []]; intros H; vm_compute in H;
    try discriminate H; reflexivity.
Qed.

Lemma all_chars_append P a b :
  Sanitize.all_chars P (a +:+ b)
  = Sanitize.all_chars P a && Sanitize.all_chars P b.
Proof.
  induction a as [ | c a IH ]; [ reflexivity | ].
  rewrite JSONFacts.append_cons, !all_chars_cons, IH. apply andb_assoc.
Qed.

Lemma all_chars_weaken (P Q : ascii -> bool) s :
  (forall c, P c = true -> Q c = true) ->
  Sanitize.all_chars P s = true -> Sanitize.all_chars Q s = true.
Proof.
  intros HPQ. induction s as [ | c s IH ]; [ reflexivity | ].
  rewrite !all_chars_cons, !andb_true_iff. intros [Hc Hs]. auto.
Qed.

(** What holds of plain characters, of the dash and of the extension
    holds of the whole name. *)
Lemma all_chars_name P id title :
  (forall c, plain c = true -> P c = true) ->
  P "-"%char = true ->
  Sanitize.all_chars P ".mp3" = true ->
  plain_string id = true -> plain_string title = true ->
  Sanitize.all_chars P (id +:+ "-" +:+ title +:+ ".mp3") = true.
Proof.
  intros HP Hdash Hext Hid Htitle.
  rewrite all_chars_append, JSONFacts.append_cons, all_chars_cons,
    JSONFacts.append_nil, all_chars_append, Hdash, Hext.
  rewrite (all_chars_weaken plain P id HP Hid).
  now rewrite (all_chars_weaken plain P title HP Htitle).
Qed.

Lemma remove_illegal_kept s :
  Sanitize.all_chars (fun c => negb (Sanitize.illegal c)) s = true ->
  Sanitize.remove_illegal s = s.
Proof.
  unfold Sanitize.remove_illegal. induction s as [ | c s IH ]; [ reflexivity | ].
  rewrite all_chars_cons, andb_true_iff. intros [Hc Hs].
  cbn [list_ascii_of_string List.filter]. rewrite Hc.
  cbn [string_of_list_ascii]. now rewrite (IH Hs).
Qed.

Lemma remove_control_kept s :
  Sanitize.all_chars
    (fun c => negb (Sanitize.code c <=? 31)%nat
              && negb (Sanitize.code c =? 194)%nat) s = true ->
  Sanitize.remove_control s = s.
Proof.
  induction s as [ | c s IH ]; [ reflexivity | ].
  rewrite all_chars_cons, !andb_true_iff, !negb_true_iff.
  intros [[Hlow Hlead] Hs]. cbn [Sanitize.remove_control].
  rewrite Hlow, Hlead. cbn [andb].
  destruct s as [ | d s ]; [ reflexivity | ]. now rewrite (IH Hs).
Qed.

Lemma all_chars_false_append P s t :
  Sanitize.all_chars P t = false -> Sanitize.all_chars P (s +:+ t) = false.
Proof. intros H. rewrite all_chars_append, H. apply andb_false_r. Qed.

Lemma remove_reserved_kept s :
  Sanitize.all_chars Sanitize.is_dot s = false ->
  Sanitize.remove_reserved s = s.
Proof.
  intros H. unfold Sanitize.remove_reserved. rewrite H. now destruct s.
Qed.

Lemma remove_trailing_append s t :
  Sanitize.all_chars Sanitize.dot_or_space t = false ->
  Sanitize.remove_trailing (s +:+ t) = s +:+ Sanitize.remove_trailing t.
Proof.
  intros H. induction s as [ | c s IH ]; [ reflexivity | ].
  rewrite !JSONFacts.append_cons. cbn [Sanitize.remove_trailing].
  rewrite <- JSONFacts.append_cons, (all_chars_false_append _ _ _ H).
  now rewrite IH.
Qed.

(** What [strip_device] strips holds no dash. *)
Lemma strip_device_prefix s r :
  Sanitize.strip_device s = Some r ->
  exists p, s = p +:+ r /\ dash_free p = true.
Proof.
  destruct s as [ | a [ | b [ | c r0 ] ] ]; try discriminate.
  unfold Sanitize.strip_device.
  change (Sanitize.lower_string (String a (String b (String c EmptyString))))
    with (String (Sanitize.lower a)
            (String (Sanitize.lower b) (String (Sanitize.lower c) EmptyString))).
  set (w := String (Sanitize.lower a) _).
  assert (forall names,
            existsb (String.eqb w) names = true ->
            forallb dash_free names = true ->
            dash_free (String a (String b (String c EmptyString))) = true)
    as Hletters.
  { intros names Hex Hall.
    apply existsb_exists in Hex as (n & Hin & Heq).
    apply String.eqb_eq in Heq. subst n.
    rewrite forallb_forall in Hall. specialize (Hall _ Hin).
    revert Hall. unfold w, dash_free.
    cbn [list_ascii_of_string forallb]. now rewrite !is_dash_lower. }
  destruct (existsb (String.eqb w) ["con"; "prn"; "aux"; "nul"]) eqn:Hfirst.
  - intros [= <-]. exists (String a (String b (String c EmptyString))).
    split; [ reflexivity | ]. now apply (Hletters _ Hfirst).
  - destruct (existsb (String.eqb w) ["com"; "lpt"]) eqn:Hsecond;
      [ | discriminate ].
    destruct r0 as [ | d r' ]; [ discriminate | ].
    destruct (Sanitize.is_digit d) eqn:Hd; [ | discriminate ].
    intros [= <-].
    exists (String a (String b (String c (String d EmptyString)))).
    split; [ reflexivity | ].
    pose proof (Hletters _ Hsecond eq_refl) as H. revert H.
    unfold dash_free. cbn [list_ascii_of_string forallb].
    rewrite (is_digit_not_dash d Hd). cbn [negb andb].
    now rewrite !andb_true_r.
Qed.

(** A name with a dash before its first dot does not start with a device
    name followed by a dot or by nothing. *)
Lemma dash_before_dot u v p r :
  plain_string u = true -> dash_free p = true ->
  u +:+ "-" +:+ v = p +:+ r ->
  match r with
  | EmptyString => False
  | String c _ => Sanitize.is_dot c = false
  end.
Proof.
  revert p. induction u as [ | c u IH ]; intros p Hu Hp Heq.
  - rewrite JSONFacts.append_nil, JSONFacts.append_cons, JSONFacts.append_nil in Heq.
    destruct p as [ | a p ].
    + rewrite JSONFacts.append_nil in Heq. now subst r.
    + rewrite JSONFacts.append_cons in Heq. injection Heq as <- _.
      discriminate Hp.
  - rewrite JSONFacts.append_cons in Heq.
    change (plain_string (String c u)) with (plain c && plain_string u) in Hu.
    apply andb_true_iff in Hu as [Hc Hu].
    destruct p as [ | a p ].
    + rewrite JSONFacts.append_nil in Heq. subst r.
      now destruct (plain_facts c Hc) as (_ & _ & _ & Hdot & _).
    + rewrite JSONFacts.append_cons in Heq. injection Heq as <- Heq.
      change (dash_free (String c p))
        with (negb (is_dash c) && dash_free p) in Hp.
      apply andb_true_iff in Hp as [_ Hp]. now apply (IH p).
Qed.

Lemma remove_windows_reserved_kept u v :
  plain_string u = true ->
  Sanitize.remove_windows_reserved (u +:+ "-" +:+ v) = u +:+ "-" +:+ v.
Proof.
  intros Hu. unfold Sanitize.remove_windows_reserved.
  destruct (Sanitize.strip_device (u +:+ "-" +:+ v)) as [r | ] eqn:Hstrip;
    [ | reflexivity ].
  apply strip_device_prefix in Hstrip as (p & Heq & Hp).
  pose proof (dash_before_dot u v p r Hu Hp Heq) as H.
  destruct r as [ | c r ]; [ destruct H | ]. now rewrite H.
Qed.

(** The sanitiser leaves [id-title.mp3] as it is when the id and the
    title are plain and the name has at most 255 bytes. *)
Lemma deriveFilename_plain r :
  plain_string (record_id r) = true ->
  plain_string (record_title r) = true ->
  (String.length (record_id r) + String.length (record_title r) <= 250)%nat ->
  deriveFilename r = record_id r +:+ "-" +:+ record_title r +:+ ".mp3".
Proof.
  intros Hid Htitle Hlen. unfold deriveFilename, Sanitize.sanitizeFilename.
  rewrite remove_illegal_kept.
  2:{ apply all_chars_name; try reflexivity; try assumption.
      intros c Hc. now destruct (plain_facts c Hc) as (-> & _). }
  rewrite remove_control_kept.
  2:{ apply all_chars_name; try reflexivity; try assumption.
      intros c Hc. now destruct (plain_facts c Hc) as (_ & -> & -> & _). }
  rewrite remove_reserved_kept.
  2:{ apply all_chars_false_append. reflexivity. }
  rewrite (remove_windows_reserved_kept _ _ Hid).
  rewrite remove_trailing_append by reflexivity.
  rewrite JSONFacts.append_cons, JSONFacts.append_nil.
  cbn [Sanitize.remove_trailing].
  rewrite all_chars_cons. cbn [andb].
  change (Sanitize.dot_or_space "-") with false. cbn [andb].
  rewrite remove_trailing_append by reflexivity.
  change (Sanitize.remove_trailing ".mp3") with ".mp3".
  rewrite <- (JSONFacts.append_nil (String "-" _)), <- JSONFacts.append_cons.
  unfold Sanitize.truncate.
  rewrite (proj2 (Nat.leb_le _ _)); [ reflexivity | ].
  rewrite !length_append. cbn [String.length]. lia.
Qed.

(** X15.  For a record whose id and title are made of letters, digits,
    dashes and underscores and together have at most 250 bytes, the
    sanitiser changes nothing: the file name is [id-title.mp3] and the
    save path is that name under the working directory. *)
Theorem plain_name_is_kept :
  forall tempDir r,
    plain_string (record_id r) = true ->
    plain_string (record_title r) = true ->
    (String.length (record_id r) + String.length (record_title r) <= 250)%nat ->
    deriveFilename r = record_id r +:+ "-" +:+ record_title r +:+ ".mp3"
    /\ savePath_of tempDir r
       = tempDir +:+ "/" +:+ record_id r +:+ "-" +:+ record_title r +:+ ".mp3".
Proof.
  intros tempDir r Hid Htitle Hlen.
  pose proof (deriveFilename_plain r Hid Htitle Hlen) as Hname.
  split; [ exact Hname | ].
  unfold savePath_of. rewrite Hname.
  destruct (record_id r) as [ | c id ]; reflexivity.
Qed.

(** The record with id [7] and title [a-b]. *)
Lemma plain_name_is_kept_witness :
  deriveFilename Scenario.c1 = "7-a-b.mp3"
  /\ savePath_of "/app/.temp" Scenario.c1 = "/app/.temp/7-a-b.mp3".
Proof.
  apply (plain_name_is_kept "/app/.temp" Scenario.c1).
  - reflexivity.
  - reflexivity.
  - vm_compute. lia.
Defined.

Lemma append_inj_r a b k : a +:+ k = b +:+ k -> a = b.
Proof.
  revert b. induction a as [ | c a IH ]; intros [ | d b ] H.
  - reflexivity.
  - apply (f_equal String.length) in H. rewrite JSONFacts.append_nil in H.
    rewrite length_append in H. cbn [String.length] in H. lia.
  - apply (f_equal String.length) in H. rewrite JSONFacts.append_nil in H.
    rewrite length_append in H. cbn [String.length] in H. lia.
  - rewrite !JSONFacts.append_cons in H. injection H as <- H.
    now rewrite (IH b H).
Qed.

(** The first dash splits a name in one way only. *)
Lemma first_dash_split a b x y :
  dash_free a = true -> dash_free b = true ->
  a +:+ "-" +:+ x = b +:+ "-" +:+ y -> a = b /\ x = y.
Proof.
  revert b. induction a as [ | c a IH ]; intros [ | d b ] Ha Hb H.
  - rewrite !JSONFacts.append_nil, !JSONFacts.append_cons in H.
    injection H as H. now rewrite !JSONFacts.append_nil in H.
  - rewrite JSONFacts.append_nil, !JSONFacts.append_cons in H.
    injection H as <- _. discriminate Hb.
  - rewrite JSONFacts.append_nil, !JSONFacts.append_cons in H.
    injection H as -> _. discriminate Ha.
  - rewrite !JSONFacts.append_cons in H. injection H as <- H.
    change (dash_free (String c a)) with (negb (is_dash c) && dash_free a) in Ha.
    change (dash_free (String c b)) with (negb (is_dash c) && dash_free b) in Hb.
    apply andb_true_iff in Ha as [_ Ha]. apply andb_true_iff in Hb as [_ Hb].
    destruct (IH b Ha Hb H) as [-> ->]. now split.
Qed.

(** X16.  Two records with plain ids and titles, ids without a dash and
    names within the length limit derive the same file name only when
    they have the same id and the same title: a collision of file names
    needs a character the sanitiser removes, a dash in an id or a name
    that is cut. *)
Theorem plain_names_collide_only_when_equal :
  forall r r',
    plain_string (record_id r) = true ->
    plain_string (record_title r) = true ->
    plain_string (record_id r') = true ->
    plain_string (record_title r') = true ->
    dash_free (record_id r) = true ->
    dash_free (record_id r') = true ->
    (String.length (record_id r) + String.length (record_title r) <= 250)%nat ->
    (String.length (record_id r') + String.length (record_title r') <= 250)%nat ->
    deriveFilename r = deriveFilename r'
    <-> record_id r = record_id r' /\ record_title r = record_title r'.
Proof.
  intros r r' Hid Htitle Hid' Htitle' Hdash Hdash' Hlen Hlen'.
  rewrite (deriveFilename_plain r Hid Htitle Hlen),
    (deriveFilename_plain r' Hid' Htitle' Hlen').
  split.
  - intros H. apply (first_dash_split _ _ _ _ Hdash Hdash') in H as [Hi Ht].
    split; [ exact Hi | ]. now apply append_inj_r in Ht.
  - intros [-> ->]. reflexivity.
Qed.

(** Two records with the id [7] and the titles [a-b] and [b_2]. *)
Lemma plain_names_collide_only_when_equal_witness :
  deriveFilename Scenario.c1 = deriveFilename Cases.plain_record
  <-> record_id Scenario.c1 = record_id Cases.plain_record
      /\ record_title Scenario.c1 = record_title Cases.plain_record.
Proof.
  apply (plain_names_collide_only_when_equal Scenario.c1 Cases.plain_record);
    try reflexivity; vm_compute; lia.
Defined.
